(** * Route discovery by ant colony optimisation: a shallow embedding

    The Go program keeps one [RouteDiscovery] engine that owns a cost matrix,
    a pheromone matrix, a population of ants and the best tour seen so far.
    This development embeds the engine as state-passing functions over
    IEEE-754 binary64 numbers (Rocq's primitive floats, which compute), with
    Go's run-time panics made explicit in a result type.

    The same source file holds the schema client for Cassandra; its part
    that drops tables and types is embedded after the engine, over a
    session that records the statements sent. *)

From Stdlib Require Import ZArith Floats Lia Bool.
From stdpp Require Import gmap list strings.

Local Open Scope Z_scope.

(** ** Panics and the result monad *)

(** The ways a call can abort: an index outside a slice, [rand.Intn] with a
    non-positive bound, and the program's own [panic] in [selectNextCity]. *)
Inductive panic : Set :=
  | IndexOutOfRange
  | InvalidArgumentToIntn
  | NoOtherCities.

Inductive result (A : Type) : Type :=
  | Ok (a : A)
  | Panic (p : panic).
Arguments Ok {A} a.
Arguments Panic {A} p.

#[global] Instance result_ret : MRet result := fun A a => Ok a.
#[global] Instance result_bind : MBind result := fun A B f m =>
  match m with
  | Ok a => f a
  | Panic p => Panic p
  end.

(** ** Slices *)

(** [s[i]] for a Go slice [s] and an integer index [i]. *)
Definition index {A} (s : list A) (i : Z) : result A :=
  if i <? 0 then Panic IndexOutOfRange
  else match s !! Z.to_nat i with
       | Some x => Ok x
       | None => Panic IndexOutOfRange
       end.

(** [s[i] = x]. *)
Definition store {A} (s : list A) (i : Z) (x : A) : result (list A) :=
  if i <? 0 then Panic IndexOutOfRange
  else match s !! Z.to_nat i with
       | Some _ => Ok (<[Z.to_nat i := x]> s)
       | None => Panic IndexOutOfRange
       end.

(** [m[i][j]] and [m[i][j] = x] on a slice of slices. *)
Definition index2 {A} (m : list (list A)) (i j : Z) : result A :=
  row ← index m i; index row j.

Definition store2 {A} (m : list (list A)) (i j : Z) (x : A)
  : result (list (list A)) :=
  row ← index m i; row' ← store row j x; store m i row'.

(** [for i := from; i < from + k; i++ { body }], threading the state. *)
Fixpoint for_loop {St} (k : nat) (from : Z) (body : Z → St → result St) (s : St)
  : result St :=
  match k with
  | O => Ok s
  | S k' => s' ← body from s; for_loop k' (from + 1) body s'
  end.

(** [for i := 0; i < n; i++ { body }]. *)
Definition for_range {St} (n : Z) (body : Z → St → result St) (s : St)
  : result St :=
  for_loop (Z.to_nat n) 0 body s.

(** [for _, x := range xs { body }]: [xs] is evaluated once. *)
Fixpoint for_each {A St} (xs : list A) (body : A → St → result St) (s : St)
  : result St :=
  match xs with
  | [] => Ok s
  | x :: xs' => s' ← body x s; for_each xs' body s'
  end.

(** ** The store of [[]int64] backing arrays

    [bestTourOrder] may share its backing array with an ant's [trail]
    (the assignment in [updateBest]), so these slices live in a store and
    are named by their location; [make] allocates at the end. *)
Notation loc := nat (only parsing).
Notation Heap := (list (list Z)) (only parsing).

Definition alloc (h : Heap) (v : list Z) : loc * Heap := (length h, h ++ [v]).
Definition deref (h : Heap) (l : loc) : list Z := h !!! l.

(** ** The random source

    [math/rand] is outside the repository: the generator is a tape of raw
    draws and a cursor. [Intn n] panics for [n <= 0] and otherwise reduces
    the next integer draw into [[0, n)]; [Float64] returns the next
    unit-interval draw. *)
Record Rand : Type := mkRand {
  ints : nat → Z;
  units : nat → float;
  drawn : nat
}.

Definition advance (r : Rand) : Rand :=
  mkRand (ints r) (units r) (S (drawn r)).

Definition Intn (r : Rand) (n : Z) : result (Z * Rand) :=
  if n <=? 0 then Panic InvalidArgumentToIntn
  else Ok (ints r (drawn r) mod n, advance r).

Definition Float64 (r : Rand) : float * Rand :=
  (units r (drawn r), advance r).

(** ** Data model *)

Record FacetsValue : Set := mkFacets {
  Bandwidth : float;
  Latency : float;
  CPU : float;
  RetryLimit : Z;
  Timeout : float
}.

(** [Data] and [dependantTaskId] are never read by the engine. The
    engine holds its tasks by pointer; the list holds the records the
    pointers lead to. *)
Record AllocatedTaskInfo : Set := mkTask {
  TaskID : Z;
  Facets : FacetsValue
}.

Record Ant : Set := mkAnt {
  trail : loc;
  visited : list bool;
  trailSize : Z;
  trailLength : float;
  tourLength : float;
  facetsValues : FacetsValue
}.

Record RouteDiscovery : Type := mkRD {
  tasks : list AllocatedTaskInfo;
  pheromones : list (list float);
  distances : list (list float);
  alpha : float;
  beta : float;
  initialPheromone : float;
  remainingFactor : float;
  q : float;
  randomFactor : float;
  maxIterations : Z;
  numberOfCities : Z;
  numberOfAnts : Z;
  antFactor : float;
  ants : list Ant;
  random : Rand;
  probabilities : list float;
  currentIndex : Z;
  bestTourOrder : option loc;
  bestTourLength : float;
  heap : Heap
}.

(** Field updates. *)
Definition set_pheromones (v : list (list float)) (rd : RouteDiscovery) :=
  mkRD (tasks rd) v (distances rd) (alpha rd) (beta rd)
    (initialPheromone rd) (remainingFactor rd) (q rd) (randomFactor rd)
    (maxIterations rd) (numberOfCities rd) (numberOfAnts rd) (antFactor rd)
    (ants rd) (random rd) (probabilities rd) (currentIndex rd)
    (bestTourOrder rd) (bestTourLength rd) (heap rd).

Definition set_distances (v : list (list float)) (rd : RouteDiscovery) :=
  mkRD (tasks rd) (pheromones rd) v (alpha rd) (beta rd)
    (initialPheromone rd) (remainingFactor rd) (q rd) (randomFactor rd)
    (maxIterations rd) (numberOfCities rd) (numberOfAnts rd) (antFactor rd)
    (ants rd) (random rd) (probabilities rd) (currentIndex rd)
    (bestTourOrder rd) (bestTourLength rd) (heap rd).

Definition set_ants (v : list Ant) (rd : RouteDiscovery) :=
  mkRD (tasks rd) (pheromones rd) (distances rd) (alpha rd) (beta rd)
    (initialPheromone rd) (remainingFactor rd) (q rd) (randomFactor rd)
    (maxIterations rd) (numberOfCities rd) (numberOfAnts rd) (antFactor rd)
    v (random rd) (probabilities rd) (currentIndex rd)
    (bestTourOrder rd) (bestTourLength rd) (heap rd).

Definition set_random (v : Rand) (rd : RouteDiscovery) :=
  mkRD (tasks rd) (pheromones rd) (distances rd) (alpha rd) (beta rd)
    (initialPheromone rd) (remainingFactor rd) (q rd) (randomFactor rd)
    (maxIterations rd) (numberOfCities rd) (numberOfAnts rd) (antFactor rd)
    (ants rd) v (probabilities rd) (currentIndex rd)
    (bestTourOrder rd) (bestTourLength rd) (heap rd).

Definition set_probabilities (v : list float) (rd : RouteDiscovery) :=
  mkRD (tasks rd) (pheromones rd) (distances rd) (alpha rd) (beta rd)
    (initialPheromone rd) (remainingFactor rd) (q rd) (randomFactor rd)
    (maxIterations rd) (numberOfCities rd) (numberOfAnts rd) (antFactor rd)
    (ants rd) (random rd) v (currentIndex rd)
    (bestTourOrder rd) (bestTourLength rd) (heap rd).

Definition set_currentIndex (v : Z) (rd : RouteDiscovery) :=
  mkRD (tasks rd) (pheromones rd) (distances rd) (alpha rd) (beta rd)
    (initialPheromone rd) (remainingFactor rd) (q rd) (randomFactor rd)
    (maxIterations rd) (numberOfCities rd) (numberOfAnts rd) (antFactor rd)
    (ants rd) (random rd) (probabilities rd) v
    (bestTourOrder rd) (bestTourLength rd) (heap rd).

Definition set_best (o : option loc) (len : float) (rd : RouteDiscovery) :=
  mkRD (tasks rd) (pheromones rd) (distances rd) (alpha rd) (beta rd)
    (initialPheromone rd) (remainingFactor rd) (q rd) (randomFactor rd)
    (maxIterations rd) (numberOfCities rd) (numberOfAnts rd) (antFactor rd)
    (ants rd) (random rd) (probabilities rd) (currentIndex rd)
    o len (heap rd).

Definition set_heap (v : Heap) (rd : RouteDiscovery) :=
  mkRD (tasks rd) (pheromones rd) (distances rd) (alpha rd) (beta rd)
    (initialPheromone rd) (remainingFactor rd) (q rd) (randomFactor rd)
    (maxIterations rd) (numberOfCities rd) (numberOfAnts rd) (antFactor rd)
    (ants rd) (random rd) (probabilities rd) (currentIndex rd)
    (bestTourOrder rd) (bestTourLength rd) v.

Definition set_visited (v : list bool) (a : Ant) : Ant :=
  mkAnt (trail a) v (trailSize a) (trailLength a) (tourLength a)
    (facetsValues a).

Definition set_tourLength (v : float) (a : Ant) : Ant :=
  mkAnt (trail a) (visited a) (trailSize a) (trailLength a) v
    (facetsValues a).

(** ** The ant *)

(** [newAnt]: [make] gives a zeroed trail and an all-false [visited];
    [trailLength] and [tourLength] start at Go's zero value. *)
Definition newAnt (h : Heap) (size : Z) (f : FacetsValue) : Ant * Heap :=
  let '(l, h') := alloc h (replicate (Z.to_nat size) 0) in
  (mkAnt l (replicate (Z.to_nat size) false) size 0%float 0%float f, h').

(** [ant.visitCity(currentIndex, city)]. *)
Definition visitCity (h : Heap) (ant : Ant) (currentIndex : Z) (city : Z)
  : result (Heap * Ant) :=
  tr ← store (deref h (trail ant)) (currentIndex + 1) city;
  vs ← store (visited ant) city true;
  Ok (<[trail ant := tr]> h, set_visited vs ant).

(** [ant.clear()]. *)
Definition clear (ant : Ant) : result Ant :=
  for_range (trailSize ant)
    (fun i a => vs ← store (visited a) i false; Ok (set_visited vs a)) ant.

(** [ant.calculateTourLength(distances)]. *)
Definition calculateTourLength (h : Heap) (ant : Ant)
    (dist : list (list float)) : result Ant :=
  let tr := deref h (trail ant) in
  last ← index tr (trailSize ant - 1);
  first ← index tr 0;
  d ← index2 dist last first;
  for_range (trailSize ant - 1)
    (fun i a =>
       x ← index tr i; y ← index tr (i + 1); d ← index2 dist x y;
       Ok (set_tourLength (tourLength a + d)%float a))
    (set_tourLength d ant).

(** ** The colony engine *)

(** [getTotalCities]: the number of distinct task identifiers. *)
Definition getTotalCities (ts : list AllocatedTaskInfo) : Z :=
  Z.of_nat (size (foldl (fun (citySet : gmap Z bool) task =>
                           <[TaskID task := true]> citySet) ∅ ts)).

Definition generateDistanceMatrix (rd : RouteDiscovery)
  : result RouteDiscovery :=
  for_range (numberOfCities rd) (fun i =>
    for_range (numberOfCities rd) (fun j rd =>
      if i =? j then
        d ← store2 (distances rd) i j 0%float; Ok (set_distances d rd)
      else
        task ← index (tasks rd) i;
        d ← store2 (distances rd) i j (Latency (Facets task));
        Ok (set_distances d rd))) rd.

Definition clearTrails (rd : RouteDiscovery) : result RouteDiscovery :=
  for_range (numberOfCities rd) (fun i =>
    for_range (numberOfCities rd) (fun j rd =>
      p ← store2 (pheromones rd) i j (initialPheromone rd);
      Ok (set_pheromones p rd))) rd.

(** [NewRouteDiscovery]: the generator is seeded from the clock, so it is
    an argument here. *)
Definition NewRouteDiscovery (ts : list AllocatedTaskInfo) (r : Rand)
  : result RouteDiscovery :=
  let n := getTotalCities ts in
  let zeros := replicate (Z.to_nat n) (replicate (Z.to_nat n) 0%float) in
  let rd :=
    mkRD ts zeros zeros 1%float 5%float 1%float 0.5%float 500%float
      0.01%float 1000 n n 0.8%float [] r (replicate (Z.to_nat n) 0%float)
      0 None 0%float [] in
  rd ← generateDistanceMatrix rd;
  clearTrails rd.

(** [getPriorityMap]: ranks along the best tour, starting at 1. A nil
    [bestTourOrder] ranges over nothing. [priority] cannot wrap: a slice
    has fewer than 2^63 elements. *)
Definition bestTour (rd : RouteDiscovery) : list Z :=
  match bestTourOrder rd with
  | None => []
  | Some l => deref (heap rd) l
  end.

Definition getPriorityMap (rd : RouteDiscovery) : gmap Z Z :=
  fst (foldl (fun '(priorityMap, priority) taskID =>
                (<[taskID := priority]> priorityMap, priority + 1))
             (∅, 1) (bestTour rd)).

(** [updateBest]. The first branch stores the ant's slice itself; the
    loop allocates a new slice and copies into it. *)
Definition adoptFirst (rd : RouteDiscovery) : result RouteDiscovery :=
  match bestTourOrder rd with
  | None =>
      ant ← index (ants rd) 0;
      Ok (set_best (Some (trail ant)) (tourLength ant) rd)
  | Some _ => Ok rd
  end.

Definition considerAnt (ant : Ant) (rd : RouteDiscovery)
  : result RouteDiscovery :=
  if (tourLength ant <? bestTourLength rd)%float then
    let '(l, h) := alloc (heap rd) (deref (heap rd) (trail ant)) in
    Ok (set_best (Some l) (tourLength ant) (set_heap h rd))
  else Ok rd.

Definition updateBest (rd : RouteDiscovery) : result RouteDiscovery :=
  rd ← adoptFirst rd;
  for_each (ants rd) considerAnt rd.

(** [updateTrails]: evaporation, then reinforcement along each ant's
    closed tour. *)
Definition evaporate (rd : RouteDiscovery) : result RouteDiscovery :=
  for_range (numberOfCities rd) (fun i =>
    for_range (numberOfCities rd) (fun j rd =>
      p ← index2 (pheromones rd) i j;
      m ← store2 (pheromones rd) i j (p * remainingFactor rd)%float;
      Ok (set_pheromones m rd))) rd.

Definition deposit (i j : Z) (contribution : float) (rd : RouteDiscovery)
  : result RouteDiscovery :=
  p ← index2 (pheromones rd) i j;
  m ← store2 (pheromones rd) i j (p + contribution)%float;
  Ok (set_pheromones m rd).

Definition reinforce (ant : Ant) (rd : RouteDiscovery)
  : result RouteDiscovery :=
  let contribution := (q rd / tourLength ant)%float in
  let tr := deref (heap rd) (trail ant) in
  rd ← for_range (numberOfCities rd - 1) (fun i rd =>
          x ← index tr i; y ← index tr (i + 1);
          deposit x y contribution rd) rd;
  x ← index tr (numberOfCities rd - 1); y ← index tr 0;
  deposit x y contribution rd.

Definition updateTrails (rd : RouteDiscovery) : result RouteDiscovery :=
  rd ← evaporate rd;
  for_each (ants rd) reinforce rd.

(** [setupAnts]. The two [Println] calls only write to standard output.
    Ants are pointers that the engine alone holds, so the population is a
    list updated in place by index. *)
Definition spawnAnts (rd : RouteDiscovery) : result RouteDiscovery :=
  for_range (numberOfAnts rd) (fun i rd =>
    task ← index (tasks rd) i;
    let '(ant, h) := newAnt (heap rd) (numberOfCities rd) (Facets task) in
    Ok (set_ants (ants rd ++ [ant]) (set_heap h rd)))
    (set_ants [] rd).

Definition placeAnt (k : Z) (rd : RouteDiscovery) : result RouteDiscovery :=
  ant ← index (ants rd) k;
  ant ← clear ant;
  '(city, r) ← Intn (random rd) (numberOfCities rd);
  '(h, ant) ← visitCity (heap rd) ant (-1) city;
  as' ← store (ants rd) k ant;
  Ok (set_ants as' (set_heap h (set_random r rd))).

Definition setupAnts (rd : RouteDiscovery) : result RouteDiscovery :=
  rd ← spawnAnts rd;
  rd ← for_range (Z.of_nat (length (ants rd))) placeAnt rd;
  Ok (set_currentIndex 0 rd).

Section Engine.

(** [math.Pow] belongs to Go's library, not to the repository. *)
Variable Pow : float → float → float.

(** The desirability of going from city [i] to city [l]. *)
Definition desirability (rd : RouteDiscovery) (ant : Ant) (i l : Z)
  : result float :=
  p ← index2 (pheromones rd) i l;
  d ← index2 (distances rd) i l;
  Ok (Pow p (alpha rd) * Pow (1 / d * CPU (facetsValues ant)) (beta rd))%float.

Definition calculateProbabilities (rd : RouteDiscovery) (ant : Ant)
  : result RouteDiscovery :=
  i ← index (deref (heap rd) (trail ant)) (currentIndex rd);
  pheromone ← for_range (numberOfCities rd) (fun l (pheromone : float) =>
      v ← index (visited ant) l;
      if negb v then
        x ← desirability rd ant i l; Ok (pheromone + x)%float
      else Ok pheromone) 0%float;
  for_range (numberOfCities rd) (fun j (rd : RouteDiscovery) =>
      v ← index (visited ant) j;
      if v : bool then
        ps ← store (probabilities rd) j 0%float;
        Ok (set_probabilities ps rd)
      else
        numerator ← desirability rd ant i j;
        ps ← store (probabilities rd) j (numerator / pheromone)%float;
        Ok (set_probabilities ps rd)) rd.

(** The first loop of [selectNextCity]: [Some i] is its [return]. *)
Fixpoint explore (vs : list bool) (t : Z) (k : nat) (i : Z)
  : result (option Z) :=
  match k with
  | O => Ok None
  | S k' =>
      if i =? t then
        v ← index vs i;
        if negb v then Ok (Some i) else explore vs t k' (i + 1)
      else explore vs t k' (i + 1)
  end.

(** The second loop: the first index at which the running total reaches
    [r]; falling out of the loop is the program's panic. *)
Fixpoint roulette (ps : list float) (r total : float) (k : nat) (i : Z)
  : result Z :=
  match k with
  | O => Panic NoOtherCities
  | S k' =>
      p ← index ps i;
      let total := (total + p)%float in
      if (r <=? total)%float then Ok i else roulette ps r total k' (i + 1)
  end.

Definition spin (rd : RouteDiscovery) (ant : Ant)
  : result (Z * RouteDiscovery) :=
  rd ← calculateProbabilities rd ant;
  let '(r, g) := Float64 (random rd) in
  let rd := set_random g rd in
  city ← roulette (probabilities rd) r 0%float
           (Z.to_nat (numberOfCities rd)) 0;
  Ok (city, rd).

Definition selectNextCity (rd : RouteDiscovery) (ant : Ant)
  : result (Z * RouteDiscovery) :=
  '(t, g) ← Intn (random rd) (numberOfCities rd - currentIndex rd);
  let '(u, g) := Float64 g in
  let rd := set_random g rd in
  if (u <? randomFactor rd)%float then
    found ← explore (visited ant) t (Z.to_nat (numberOfCities rd)) 0;
    match found with
    | Some i => Ok (i, rd)
    | None => spin rd ant
    end
  else spin rd ant.

(** One pass of the inner loop of [moveAnts] for the ant at index [k]. *)
Definition moveAnt (k : Z) (rd : RouteDiscovery) : result RouteDiscovery :=
  ant ← index (ants rd) k;
  '(city, rd) ← selectNextCity rd ant;
  '(h, ant) ← visitCity (heap rd) ant (currentIndex rd) city;
  as' ← store (ants rd) k ant;
  Ok (set_ants as' (set_heap h rd)).

Definition moveStep (rd : RouteDiscovery) : result RouteDiscovery :=
  rd ← for_range (Z.of_nat (length (ants rd))) moveAnt rd;
  Ok (set_currentIndex (currentIndex rd + 1) rd).

(** [moveAnts]: the loop variable starts at [currentIndex] and both advance
    together, so the body runs [numberOfCities - 1 - currentIndex] times. *)
Definition moveAnts (rd : RouteDiscovery) : result RouteDiscovery :=
  for_loop (Z.to_nat (numberOfCities rd - 1 - currentIndex rd))
    (currentIndex rd) (fun _ => moveStep) rd.

(** The body of the loop of [InitiateOptimization]. *)
Definition iteration (rd : RouteDiscovery) : result RouteDiscovery :=
  rd ← moveAnts rd;
  rd ← updateTrails rd;
  updateBest rd.

Definition iterations (k : nat) (rd : RouteDiscovery)
  : result RouteDiscovery :=
  for_loop k 0 (fun _ => iteration) rd.

Definition InitiateOptimization (rd : RouteDiscovery)
  : result RouteDiscovery :=
  rd ← setupAnts rd;
  rd ← clearTrails rd;
  iterations (Z.to_nat (maxIterations rd)) rd.

(** [InitiateOptimization] observed after [k] passes of its loop. *)
Definition optimizeFor (k : nat) (rd : RouteDiscovery)
  : result RouteDiscovery :=
  rd ← setupAnts rd;
  rd ← clearTrails rd;
  iterations k rd.

(** The states of an engine: built by [NewRouteDiscovery], then taken
    through any number of optimisations, each seen after any number of
    passes. *)
Inductive reachable : RouteDiscovery → Prop :=
  | reach_new ts r rd :
      NewRouteDiscovery ts r = Ok rd → reachable rd
  | reach_optimize k rd rd' :
      reachable rd → optimizeFor k rd = Ok rd' → reachable rd'.

End Engine.

(** ** Fixtures for the examples

    Tasks whose latencies are powers of two and whose CPU weight is 1, so
    that every desirability is a power of two; the engine calls [math.Pow]
    only with the exponents 1 and 5, where it is repeated multiplication. *)
Definition powInt (x y : float) : float :=
  if (y =? 1)%float then x
  else if (y =? 5)%float then (x * x * x * x * x)%float
  else 1%float.

Definition task (id : Z) (latency : float) : AllocatedTaskInfo :=
  mkTask id (mkFacets 0%float latency 1%float 0 0%float).

Definition twoTasks : list AllocatedTaskInfo := [task 10 2; task 20 1].

Definition threeTasks : list AllocatedTaskInfo :=
  [task 10 2; task 20 1; task 30 4].

(** The tasks of [threeTasks] under the identifiers 2, 0, 1: every
    identifier is the list position of another task. *)
Definition shuffledTasks : list AllocatedTaskInfo :=
  [task 2 2; task 0 1; task 1 4].

(** A generator whose every draw is zero, and one whose unit draws are
    all one half. *)
Definition zeroRand : Rand := mkRand (fun _ => 0) (fun _ => 0%float) O.
Definition halfRand : Rand := mkRand (fun _ => 0) (fun _ => 0.5%float) O.

(** A generator whose integer draws are zero and whose unit draws are
    zero except the sixth, which is [r]: with three ants, the roulette
    draw of the first call of [selectNextCity]. *)
Definition sixthRand (r : float) : Rand :=
  mkRand (fun _ => 0) (fun k => if (k =? 5)%nat then r else 0%float) O.

(** An engine built and taken to the start of its first iteration, to
    the point where [updateTrails] reads the ants, and to the point where
    [updateBest] does. *)
Definition started (ts : list AllocatedTaskInfo) (g : Rand)
  : result RouteDiscovery :=
  rd ← NewRouteDiscovery ts g; rd ← setupAnts rd; clearTrails rd.

Definition toured (ts : list AllocatedTaskInfo) (g : Rand)
  : result RouteDiscovery :=
  rd ← started ts g; moveAnts powInt rd.

Definition trailed (ts : list AllocatedTaskInfo) (g : Rand)
  : result RouteDiscovery :=
  rd ← toured ts g; updateTrails rd.

(** ** Predicates and functions used in the statements *)

(** A slice of [n] slices of length [n]. *)
Definition square {A} (n : Z) (m : list (list A)) : Prop :=
  length m = Z.to_nat n ∧ Forall (fun row => length row = Z.to_nat n) m.

(** What [generateDistanceMatrix] writes at row [i], column [j]. *)
Definition costOf (ts : list AllocatedTaskInfo) (i j : Z) : result float :=
  if i =? j then Ok 0%float
  else task ← index ts i; Ok (Latency (Facets task)).

(** The engine that [NewRouteDiscovery] builds around its two matrices. *)
Definition freshEngine (ts : list AllocatedTaskInfo) (r : Rand)
    (p d : list (list float)) : RouteDiscovery :=
  let n := getTotalCities ts in
  mkRD ts p d 1%float 5%float 1%float 0.5%float 500%float 0.01%float
    1000 n n 0.8%float [] r (replicate (Z.to_nat n) 0%float) 0 None
    0%float [].

(** The loop of [getPriorityMap], from any map and any next rank. *)
Definition rankFrom (m : gmap Z Z) (p : Z) (t : list Z) : gmap Z Z * Z :=
  foldl (fun '(priorityMap, priority) taskID =>
           (<[taskID := priority]> priorityMap, priority + 1)) (m, p) t.

(** [0 <= x] in binary64 ([NaN] fails it), and the same on the
    specification side. *)
Definition nonneg (x : float) : Prop := (0 <=? x)%float = true.

Definition sf_nonneg (x : spec_float) : Prop :=
  SFleb (S754_zero false) x = true.

(** The part of an ant that tour construction never writes. *)
Definition antCore (a : Ant) : loc * Z * float * float * FacetsValue :=
  (trail a, trailSize a, trailLength a, tourLength a, facetsValues a).

(** Tour construction writes the ants' [visited] sets, the trails in the
    store, the generator, the scratch [probabilities]; nothing else. *)
Definition constructed (rd : RouteDiscovery) (as' : list Ant) (h : Heap)
    (g : Rand) (ps : list float) : RouteDiscovery :=
  set_ants as' (set_heap h (set_random g (set_probabilities ps rd))).

(** [rd'] comes from [rd] by tour construction: the ants keep their
    cores and no slice is allocated. *)
Definition construction (rd rd' : RouteDiscovery) : Prop :=
  ∃ as' h g ps ci,
    rd' = set_currentIndex ci (constructed rd as' h g ps)
    ∧ length h = length (heap rd)
    ∧ antCore <$> as' = antCore <$> ants rd.

(** Every entry of the pheromone matrix is non-negative. *)
Definition pheromones_nonneg (rd : RouteDiscovery) : Prop :=
  Forall (Forall nonneg) (pheromones rd).

(** Only the pheromone matrix differs. *)
Definition repainted (rd rd' : RouteDiscovery) : Prop :=
  ∃ p, rd' = set_pheromones p rd.

(** The city on which [setupAnts] puts its [k]-th ant: the [k]-th draw
    from the generator, reduced by [Intn]. *)
Definition startCity (rd : RouteDiscovery) (k : nat) : Z :=
  ints (random rd) (drawn (random rd) + k)%nat mod numberOfCities rd.

(** The ant that [newAnt] returns for task [k] of engine [rd], and the
    same ant once placed on its start city. *)
Definition spawnedAnt (rd : RouteDiscovery) (k : nat)
    (t : AllocatedTaskInfo) : Ant :=
  mkAnt (length (heap rd) + k)%nat
    (replicate (Z.to_nat (numberOfCities rd)) false)
    (numberOfCities rd) 0%float 0%float (Facets t).

Definition placedAnt (rd : RouteDiscovery) (k : nat)
    (t : AllocatedTaskInfo) : Ant :=
  set_visited
    (<[Z.to_nat (startCity rd k) := true]>
       (replicate (Z.to_nat (numberOfCities rd)) false))
    (spawnedAnt rd k t).

(** The effect of the loop of [updateBest] over the ants [xs]: nothing,
    or the tour of an ant strictly shorter than the best so far, copied
    to a new slice allocated after [h], the copies made before it. *)
Definition bettered (xs : list Ant) (rd rd' : RouteDiscovery) : Prop :=
  rd' = rd
  ∨ ∃ ant h,
      ant ∈ xs
      ∧ (tourLength ant <? bestTourLength rd)%float = true
      ∧ rd' = set_best (Some (length (heap rd ++ h))) (tourLength ant)
                (set_heap
                   (heap rd ++ h ++ [deref (heap rd ++ h) (trail ant)]) rd).

(** [rd1] is [rd] with the tour of [ant] recorded as the best one, at
    the cost [tourLength ant]: the recorded slice holds the entries of
    the ant's trail. Which slice it is, is not said. *)
Definition adopted (ant : Ant) (rd rd1 : RouteDiscovery) : Prop :=
  ∃ l h,
    rd1 = set_best (Some l) (tourLength ant) (set_heap (heap rd ++ h) rd)
    ∧ deref (heap rd ++ h) l = deref (heap rd) (trail ant).

(** The invariant behind the pheromone bound: the engine's constants are
    those of [NewRouteDiscovery], and no ant has ever been given a tour
    length, since nothing calls [calculateTourLength]. *)
Definition steady (rd : RouteDiscovery) : Prop :=
  pheromones_nonneg rd
  ∧ initialPheromone rd = 1%float
  ∧ remainingFactor rd = 0.5%float
  ∧ q rd = 500%float
  ∧ Forall (fun ant => tourLength ant = 0%float) (ants rd).

(** [b] is no worse a cost than [a]. *)
Definition no_worse (a b : float) : Prop := b = a ∨ (b <? a)%float = true.

(** What an iteration keeps once construction is over: the ants, the
    generator, [currentIndex], and every slice already allocated. *)
Definition settled (rd rd' : RouteDiscovery) : Prop :=
  ants rd' = ants rd
  ∧ random rd' = random rd
  ∧ currentIndex rd' = currentIndex rd
  ∧ numberOfCities rd' = numberOfCities rd
  ∧ ∃ h, heap rd' = heap rd ++ h.

#[global] Instance float_inhabited : Inhabited float := populate 0%float.

(** The three draws of one call of [selectNextCity]. *)
Definition exploreIndex (rd : RouteDiscovery) : Z :=
  ints (random rd) (drawn (random rd))
    mod (numberOfCities rd - currentIndex rd).

Definition exploreDraw (rd : RouteDiscovery) : float :=
  units (random rd) (S (drawn (random rd))).

Definition rouletteDraw (rd : RouteDiscovery) : float :=
  units (random rd) (S (S (drawn (random rd)))).

(** The call returns from its first loop: the exploration draw is below
    [randomFactor] and the city of index [exploreIndex] is one of the
    engine's and unvisited. *)
Definition explores (rd : RouteDiscovery) (ant : Ant) : bool :=
  (exploreDraw rd <? randomFactor rd)%float
  && (exploreIndex rd <? numberOfCities rd)
  && negb (visited ant !!! Z.to_nat (exploreIndex rd)).

(** The desirability of city [l] seen from city [i], and the sum of the
    desirabilities of the unvisited cities among the first [k], added
    from left to right as the program does. *)
Definition weight Pow (rd : RouteDiscovery) (ant : Ant) (i l : Z) : float :=
  match desirability Pow rd ant i l with
  | Ok x => x
  | Panic _ => 0%float
  end.

Fixpoint weightSum Pow (rd : RouteDiscovery) (ant : Ant) (i : Z) (k : nat)
  : float :=
  match k with
  | O => 0%float
  | S k' =>
      if (visited ant !!! k' : bool) then weightSum Pow rd ant i k'
      else (weightSum Pow rd ant i k' + weight Pow rd ant i (Z.of_nat k'))%float
  end.

(** The running total of [selectNextCity] after [k] entries. *)
Fixpoint prefixSum (ps : list float) (k : nat) : float :=
  match k with
  | O => 0%float
  | S k' => (prefixSum ps k' + ps !!! k')%float
  end.

(** Every unit draw of the generator is strictly positive. *)
Definition positive_draws (g : Rand) : Prop :=
  ∀ k, (0 <? units g k)%float = true.

(** An ant of an engine of [n] cities that has filled the first [c + 1]
    entries of its trail, in the store [h]: these entries are distinct and
    are exactly the cities marked in [visited]. *)
Definition on_tour (n c : nat) (h : Heap) (ant : Ant) : Prop :=
  length (visited ant) = n
  ∧ ∃ tr, h !! trail ant = Some tr ∧ length tr = n
      ∧ NoDup (take (S c) tr)
      ∧ ∀ city, city ∈ take (S c) tr
                ↔ 0 ≤ city ∧ visited ant !! Z.to_nat city = Some true.

(** A population in the middle of a pass of [moveStep]: the ants before
    index [k] have made step [c + 1], the others are at step [c]; no two
    ants share a trail. *)
Definition staged (n c k : nat) (h : Heap) (as' : list Ant) : Prop :=
  NoDup (trail <$> as')
  ∧ ∀ j ant, as' !! j = Some ant →
      on_tour n (if decide (j < k)%nat then S c else c) h ant.



(** ** Shapes and outcomes used in the further properties *)

(** The outcome of a call: a result that satisfies [Q], or one of the
    panics [bad]. *)
Definition within {A} (bad : panic → Prop) (Q : A → Prop) (m : result A)
  : Prop :=
  match m with
  | Ok a => Q a
  | Panic p => bad p
  end.

(** A city index of an engine of [n] cities. *)
Definition in_range (n : nat) (c : Z) : Prop := 0 ≤ c < Z.of_nat n.

(** An ant of an engine of [n] cities as [newAnt] makes it and the
    engine keeps it: [n] flags, a trail of [n] city indices in the store
    [h]. *)
Definition shaped (n : nat) (h : Heap) (a : Ant) : Prop :=
  length (visited a) = n
  ∧ trailSize a = Z.of_nat n
  ∧ ∃ tr,
      h !! trail a = Some tr ∧ length tr = n ∧ Forall (in_range n) tr.

(** The shape [NewRouteDiscovery] gives an engine, and the shape
    [setupAnts] gives its population. *)
Definition sound (rd : RouteDiscovery) : Prop :=
  numberOfCities rd = getTotalCities (tasks rd)
  ∧ numberOfAnts rd = numberOfCities rd
  ∧ square (numberOfCities rd) (pheromones rd)
  ∧ square (numberOfCities rd) (distances rd)
  ∧ length (probabilities rd) = Z.to_nat (numberOfCities rd).

Definition populated (rd : RouteDiscovery) : Prop :=
  sound rd
  ∧ length (ants rd) = Z.to_nat (numberOfCities rd)
  ∧ Forall (shaped (Z.to_nat (numberOfCities rd)) (heap rd)) (ants rd)
  ∧ 0 ≤ currentIndex rd.

(** What holds of the best tour in every state of an engine: its cost
    is the zero [NewRouteDiscovery] starts from, and its slice is
    allocated. *)
Definition kept (rd : RouteDiscovery) : Prop :=
  sound rd ∧ steady rd
  ∧ bestTourLength rd = 0%float
  ∧ ∀ l, bestTourOrder rd = Some l → (l < length (heap rd))%nat.

(** Tasks of latency zero: every cost off the diagonal is zero. *)
Definition idleTasks : list AllocatedTaskInfo := [task 10 0; task 20 0].

(** The latency of the task of city [c], and the latencies of the cities
    [cs] added onto [x] from left to right. *)
Definition latencyOf (ts : list AllocatedTaskInfo) (c : Z) : float :=
  match ts !! Z.to_nat c with
  | Some t => Latency (Facets t)
  | None => 0%float
  end.

Definition addLatencies (ts : list AllocatedTaskInfo) (x : float)
    (cs : list Z) : float :=
  foldl (fun acc c => (acc + latencyOf ts c)%float) x cs.

(** * The Cassandra schema client

    [cqlClient] sends CQL statements through a gocql session. The driver
    and the cluster are outside the repository: a session is the list of
    the statements sent so far, oldest first, and the answers the cluster
    gives, each by the number of statements sent before it. An [error] is
    a value of the driver. *)

Inductive error : Set := gocqlError (message : string).

(** [executed] holds the statements sent, oldest first. [answers] is
    what [Query(stmt).Exec()] returns and [agreements] what
    [AwaitSchemaAgreement] returns; [rows] gives the rows an iterator
    scans for a query and its argument, and what its [Close] returns. *)
Record Session : Type := mkSession {
  executed : list string;
  answers : nat → string → option error;
  agreements : nat → option error;
  rows : nat → string → string → list string * option error
}.

(** [clusterKeyspace] is [clusterConfig.Keyspace]. *)
Record cqlClient : Type := mkClient {
  nReplicas : Z;
  datacenter : string;
  timeout : Z;
  session : Session;
  clusterKeyspace : string
}.

Definition set_session (s : Session) (c : cqlClient) : cqlClient :=
  mkClient (nReplicas c) (datacenter c) (timeout c) s (clusterKeyspace c).

Definition listTablesCQL : string :=
  "SELECT table_name from system_schema.tables where keyspace_name=?".

Definition listTypesCQL : string :=
  "SELECT type_name from system_schema.types where keyspace_name=?".

(** The session once [stmt] is sent. *)
Definition send (stmt : string) (s : Session) : Session :=
  mkSession (executed s ++ [stmt]) (answers s) (agreements s) (rows s).

(** [waitSchemaAgreement]: the context only carries the timeout. *)
Definition waitSchemaAgreement (c : cqlClient) : option error :=
  agreements (session c) (length (executed (session c))).

(** [Exec], as every caller in the file uses it: without arguments. *)
Definition Exec (stmt : string) (c : cqlClient) : option error * cqlClient :=
  let err := answers (session c) (length (executed (session c))) stmt in
  let c := set_session (send stmt (session c)) c in
  match err with
  | Some err => (Some err, c)
  | None => (waitSchemaAgreement c, c)
  end.

(** The loop over an iterator in [ListTables] and [listTypes]: the names
    scanned, or the error of [Close] and a nil slice. *)
Definition scanNames (cql : string) (c : cqlClient)
  : list string * option error :=
  let '(names, closing) :=
    rows (session c) (length (executed (session c))) cql
      (clusterKeyspace c) in
  match closing with
  | Some err => ([], Some err)
  | None => (names, None)
  end.

Definition ListTables (c : cqlClient) : list string * option error :=
  scanNames listTablesCQL c.

Definition listTypes (c : cqlClient) : list string * option error :=
  scanNames listTypesCQL c.

(** [fmt.Sprintf] with [%v] of a string is the string. *)
Definition dropTable (name : string) (c : cqlClient)
  : option error * cqlClient :=
  Exec ("DROP TABLE " +:+ name) c.

Definition dropType (name : string) (c : cqlClient)
  : option error * cqlClient :=
  Exec ("DROP TYPE " +:+ name) c.

Definition dropKeyspace (name : string) (c : cqlClient)
  : option error * cqlClient :=
  Exec ("DROP KEYSPACE IF EXISTS " +:+ name) c.

Definition DropDatabase (name : string) (c : cqlClient)
  : option error * cqlClient :=
  dropKeyspace name c.

(** The first loop of [dropAllTablesTypes]: an error is only logged. *)
Definition dropTables (tables : list string) (c : cqlClient) : cqlClient :=
  foldl (fun c table => (dropTable table c).2) c tables.

(** One pass of the inner loop over [types]: the state is
    [erroredTypes], the variable [err] and the client. *)
Definition dropOne (acc : list string * option error * cqlClient)
    (t : string) : list string * option error * cqlClient :=
  let '(erroredTypes, _, c) := acc in
  let '(err, c) := dropType t c in
  match err with
  | Some _ => (erroredTypes ++ [t], err, c)
  | None => (erroredTypes, err, c)
  end.

Definition dropTypesOnce (types : list string) (err : option error)
    (c : cqlClient) : list string * option error * cqlClient :=
  foldl dropOne ([], err, c) types.

(** The outer loop, [k] being [numOfTypes - i]. *)
Fixpoint retryTypes (k : nat) (types : list string) (err : option error)
    (c : cqlClient) : list string * option error * cqlClient :=
  match k, types with
  | O, _ | _, [] => (types, err, c)
  | S k', _ :: _ =>
      let '(erroredTypes, err, c) := dropTypesOnce types err c in
      retryTypes k' erroredTypes err c
  end.

Definition dropAllTablesTypes (c : cqlClient) : option error * cqlClient :=
  match ListTables c with
  | (_, Some err) => (Some err, c)
  | (tables, None) =>
      let c := dropTables tables c in
      match listTypes c with
      | (_, Some err) => (Some err, c)
      | (types, None) =>
          let '(types, err, c) := retryTypes (length types) types None c in
          match types with
          | [] => (None, c)
          | _ :: _ => (err, c)
          end
      end
  end.

Definition DropAllTables (c : cqlClient) : option error * cqlClient :=
  dropAllTablesTypes c.

(** What [Exec] returns for [stmt] sent after [k] statements. *)
Definition outcome (s : Session) (k : nat) (stmt : string) : option error :=
  match answers s k stmt with
  | Some err => Some err
  | None => agreements s (S k)
  end.

(** [c'] is [c] after the statements [sent]: same cluster, same client. *)
Definition after (sent : list string) (c c' : cqlClient) : Prop :=
  c' = set_session
         (mkSession (executed (session c) ++ sent) (answers (session c))
            (agreements (session c)) (rows (session c))) c.

(** The statements that drop the tables [tables] and the types [types]. *)
Definition tableDrops (tables : list string) : list string :=
  (fun t => "DROP TABLE " +:+ t) <$> tables.

Definition typeDrops (types : list string) : list string :=
  (fun t => "DROP TYPE " +:+ t) <$> types.

(** [err] is nil, or what the last statement sent, the drop of one of
    [types], was answered. *)
Definition reported (types : list string) (c : cqlClient)
    (err : option error) : Prop :=
  err = None
  ∨ ∃ pre t,
      t ∈ types
      ∧ executed (session c) = pre ++ ["DROP TYPE " +:+ t]
      ∧ err = outcome (session c) (length pre) ("DROP TYPE " +:+ t).

(** Of [types], dropped one after the other from statement [k] on, those
    whose drop is answered with an error. *)
Fixpoint refused (s : Session) (k : nat) (types : list string)
  : list string :=
  match types with
  | [] => []
  | t :: types' =>
      match outcome s k ("DROP TYPE " +:+ t) with
      | Some _ => t :: refused s (S k) types'
      | None => refused s (S k) types'
      end
  end.

(** A client of a cluster that holds the tables [tables] and the types
    [types] and answers its first [failures] statements with an error. *)
Definition clientOf (failures : nat) (tables types : list string)
  : cqlClient :=
  mkClient 1 "" 30
    (mkSession []
       (fun k _ =>
          if (k <? failures)%nat then Some (gocqlError "in use") else None)
       (fun _ => None)
       (fun _ cql _ =>
          if String.eqb cql listTablesCQL then (tables, None)
          else (types, None)))
    "temporal".

(** * Properties *)

(** ** The result monad, slices and loops *)

Lemma bind_Ok {A B} (m : result A) (f : A → result B) (b : B) :
  m ≫= f = Ok b ↔ ∃ a, m = Ok a ∧ f a = Ok b.
Proof.
  destruct m as [a|p]; simpl; split.
  - intros H; exists a; auto.
  - intros (a' & [= <-] & H); exact H.
  - discriminate.
  - intros (a' & [=] & _).
Qed.

Lemma index_Ok {A} (s : list A) (i : Z) (x : A) :
  index s i = Ok x ↔ 0 ≤ i ∧ s !! Z.to_nat i = Some x.
Proof.
  unfold index. destruct (Z.ltb_spec i 0).
  - split; [discriminate | lia].
  - destruct (s !! Z.to_nat i) eqn:E; split.
    + intros [= <-]; auto.
    + intros (_ & [= <-]); auto.
    + discriminate.
    + intros (_ & [=]).
Qed.

Lemma store_Ok {A} (s s' : list A) (i : Z) (x : A) :
  store s i x = Ok s' ↔
  0 ≤ i ∧ (Z.to_nat i < length s)%nat ∧ s' = <[Z.to_nat i := x]> s.
Proof.
  unfold store. destruct (Z.ltb_spec i 0).
  - split; [discriminate | lia].
  - destruct (s !! Z.to_nat i) eqn:E; split.
    + intros [= <-]. apply lookup_lt_Some in E. auto.
    + intros (_ & _ & ->); auto.
    + discriminate.
    + intros (_ & Hl & _). apply lookup_ge_None in E. lia.
Qed.

Lemma index_in_range {A} (s : list A) (i : Z) :
  0 ≤ i < Z.of_nat (length s) → ∃ x, index s i = Ok x.
Proof.
  intros Hi. destruct (lookup_lt_is_Some_2 s (Z.to_nat i)) as [x Hx]; [lia|].
  exists x. apply index_Ok. split; [lia | exact Hx].
Qed.

Lemma store_in_range {A} (s : list A) (i : Z) (x : A) :
  0 ≤ i < Z.of_nat (length s) → store s i x = Ok (<[Z.to_nat i := x]> s).
Proof. intros Hi. apply store_Ok. repeat split; lia. Qed.

Lemma index_bounds {A} (s : list A) (i : Z) (x : A) :
  index s i = Ok x → 0 ≤ i < Z.of_nat (length s).
Proof.
  intros (H0 & H)%index_Ok. apply lookup_lt_Some in H. lia.
Qed.

Lemma index_store {A} (s s' : list A) (i j : Z) (x : A) :
  store s i x = Ok s' →
  index s' j = if decide (j = i) then Ok x else index s j.
Proof.
  intros (H0 & Hl & ->)%store_Ok. case_decide as E.
  - subst j. apply index_Ok. split; [lia|].
    by apply list_lookup_insert_eq.
  - unfold index. destruct (Z.ltb_spec j 0); [done|].
    rewrite list_lookup_insert_ne; [done | lia].
Qed.

Lemma store_length {A} (s s' : list A) (i : Z) (x : A) :
  store s i x = Ok s' → length s' = length s.
Proof. intros (_ & _ & ->)%store_Ok. apply length_insert. Qed.

Lemma square_replicate {A} (n : Z) (x : A) :
  square n (replicate (Z.to_nat n) (replicate (Z.to_nat n) x)).
Proof.
  split; [apply length_replicate|].
  apply Forall_replicate, length_replicate.
Qed.

Lemma index2_in_range {A} (n : Z) (m : list (list A)) (i j : Z) :
  square n m → 0 ≤ i < n → 0 ≤ j < n → ∃ x, index2 m i j = Ok x.
Proof.
  intros [Hl Hr] Hi Hj.
  destruct (index_in_range m i) as [row Hrow]; [lia|].
  assert (length row = Z.to_nat n) as Hlen.
  { apply index_Ok in Hrow as [_ Hrow].
    eapply Forall_lookup_1 in Hr; eauto. }
  destruct (index_in_range row j) as [x Hx]; [lia|].
  exists x. unfold index2. rewrite Hrow. exact Hx.
Qed.

Lemma store2_in_range {A} (n : Z) (m : list (list A)) (i j : Z) (x : A) :
  square n m → 0 ≤ i < n → 0 ≤ j < n →
  ∃ m', store2 m i j x = Ok m' ∧ square n m'.
Proof.
  intros [Hl Hr] Hi Hj.
  destruct (index_in_range m i) as [row Hrow]; [lia|].
  assert (length row = Z.to_nat n) as Hlen.
  { apply index_Ok in Hrow as [_ Hrow].
    eapply Forall_lookup_1 in Hr; eauto. }
  exists (<[Z.to_nat i := <[Z.to_nat j := x]> row]> m). split.
  - unfold store2. rewrite Hrow. simpl.
    rewrite store_in_range by lia. simpl. apply store_in_range. lia.
  - split; [by rewrite length_insert|].
    apply Forall_insert; [exact Hr | by rewrite length_insert].
Qed.

Lemma store2_square {A} (n : Z) (m m' : list (list A)) (i j : Z) (x : A) :
  square n m → store2 m i j x = Ok m' → square n m'.
Proof.
  intros [Hl Hr] (row & Hrow & (row' & Hrow' & Hm)%bind_Ok)%bind_Ok.
  apply store_Ok in Hm as (_ & _ & ->).
  apply index_Ok in Hrow as [_ Hrow].
  split; [by rewrite length_insert|].
  apply Forall_insert; [exact Hr|].
  rewrite (store_length _ _ _ _ Hrow').
  eapply Forall_lookup_1 in Hr; eauto.
Qed.

Lemma index2_store2 {A} (m m' : list (list A)) (i j a b : Z) (x : A) :
  store2 m i j x = Ok m' →
  index2 m' a b = if decide (a = i ∧ b = j) then Ok x else index2 m a b.
Proof.
  intros (row & Hrow & (row' & Hrow' & Hm)%bind_Ok)%bind_Ok.
  unfold index2. rewrite (index_store _ _ _ a _ Hm).
  destruct (decide (a = i)) as [->|Hne].
  - simpl. rewrite (index_store _ _ _ b _ Hrow'). rewrite Hrow. simpl.
    destruct (decide (b = j)) as [->|Hb].
    + rewrite decide_True by done. done.
    + rewrite decide_False by tauto. done.
  - rewrite decide_False by tauto. done.
Qed.

(** Loop rules: an invariant indexed by the loop variable. The first
    gives the final state, the second only describes it. *)
Lemma for_loop_total {St} (P : Z → St → Prop) (body : Z → St → result St)
    (k : nat) (from : Z) (s : St) :
  P from s →
  (∀ i t, from ≤ i < from + Z.of_nat k → P i t →
          ∃ t', body i t = Ok t' ∧ P (i + 1) t') →
  ∃ s', for_loop k from body s = Ok s' ∧ P (from + Z.of_nat k) s'.
Proof.
  revert from s. induction k as [|k IH]; intros from s H0 Hstep.
  - exists s. split; [done|]. by replace (from + Z.of_nat 0) with from by lia.
  - destruct (Hstep from s) as (t' & Hb & Ht'); [lia | done |].
    destruct (IH (from + 1) t') as (s' & Hs' & HP); [done | |].
    + intros i t Hi. apply Hstep. lia.
    + exists s'. simpl. rewrite Hb. simpl. split; [done|].
      by replace (from + Z.of_nat (S k)) with (from + 1 + Z.of_nat k) by lia.
Qed.

Lemma for_loop_inv {St} (P : Z → St → Prop) (body : Z → St → result St)
    (k : nat) (from : Z) (s s' : St) :
  P from s →
  (∀ i t t', from ≤ i < from + Z.of_nat k → P i t → body i t = Ok t' →
             P (i + 1) t') →
  for_loop k from body s = Ok s' → P (from + Z.of_nat k) s'.
Proof.
  revert from s. induction k as [|k IH]; intros from s H0 Hstep Hrun.
  - simpl in Hrun. injection Hrun as <-.
    by replace (from + Z.of_nat 0) with from by lia.
  - simpl in Hrun. apply bind_Ok in Hrun as (t' & Hb & Hrun).
    replace (from + Z.of_nat (S k)) with (from + 1 + Z.of_nat k) by lia.
    eapply IH; [| | exact Hrun].
    + eapply Hstep; [lia | exact H0 | exact Hb].
    + intros i t t'' Hi. apply Hstep. lia.
Qed.

Lemma for_range_total {St} (P : Z → St → Prop) (body : Z → St → result St)
    (n : Z) (s : St) :
  0 ≤ n → P 0 s →
  (∀ i t, 0 ≤ i < n → P i t → ∃ t', body i t = Ok t' ∧ P (i + 1) t') →
  ∃ s', for_range n body s = Ok s' ∧ P n s'.
Proof.
  intros Hn H0 Hstep.
  destruct (for_loop_total P body (Z.to_nat n) 0 s) as (s' & Hs' & HP);
    [done | | ].
  - intros i t Hi. apply Hstep. lia.
  - exists s'. split; [done|]. by replace n with (0 + Z.of_nat (Z.to_nat n)) by lia.
Qed.

Lemma for_range_inv {St} (P : Z → St → Prop) (body : Z → St → result St)
    (n : Z) (s s' : St) :
  0 ≤ n → P 0 s →
  (∀ i t t', 0 ≤ i < n → P i t → body i t = Ok t' → P (i + 1) t') →
  for_range n body s = Ok s' → P n s'.
Proof.
  intros Hn H0 Hstep Hrun.
  replace n with (0 + Z.of_nat (Z.to_nat n)) by lia.
  eapply for_loop_inv; [exact H0 | | exact Hrun].
  intros i t t' Hi. apply Hstep. lia.
Qed.

(** A state property kept by every pass is kept by the loop. *)
Lemma for_loop_keeps {St} (P : St → Prop) (body : Z → St → result St)
    (k : nat) (from : Z) (s s' : St) :
  (∀ i t t', P t → body i t = Ok t' → P t') →
  P s → for_loop k from body s = Ok s' → P s'.
Proof.
  intros Hstep H0 Hrun.
  apply (for_loop_inv (fun _ => P) body k from s s'); auto.
  intros i t t' _. apply Hstep.
Qed.

Lemma for_each_keeps {A St} (P : St → Prop) (body : A → St → result St)
    (xs : list A) (s s' : St) :
  (∀ x t t', x ∈ xs → P t → body x t = Ok t' → P t') →
  P s → for_each xs body s = Ok s' → P s'.
Proof.
  revert s. induction xs as [|x xs IH]; intros s Hstep H0 Hrun.
  - simpl in Hrun. by injection Hrun as <-.
  - simpl in Hrun. apply bind_Ok in Hrun as (t & Hb & Hrun).
    eapply IH; [| | exact Hrun].
    + intros y u u' Hy. apply Hstep. by right.
    + eapply Hstep; [by left | exact H0 | exact Hb].
Qed.

(** Nested loops over the cells of a square matrix, row by row. *)
Lemma for_cells_total {St} (P : Z → Z → St → Prop)
    (body : Z → Z → St → result St) (n : Z) (s : St) :
  0 ≤ n → P 0 0 s →
  (∀ i j t, 0 ≤ i < n → 0 ≤ j < n → P i j t →
            ∃ t', body i j t = Ok t' ∧ P i (j + 1) t') →
  (∀ i t, 0 ≤ i < n → P i n t → P (i + 1) 0 t) →
  ∃ s', for_range n (fun i => for_range n (body i)) s = Ok s' ∧ P n 0 s'.
Proof.
  intros Hn H0 Hcell Hrow.
  apply (for_range_total (fun i => P i 0)); [done | done |].
  intros i t Hi Ht.
  destruct (for_range_total (P i) (body i) n t) as (t' & Hrun & Ht');
    [done | done | |].
  - intros j u Hj. by apply Hcell.
  - exists t'. split; [done|]. by apply Hrow.
Qed.

Lemma for_cells_keeps {St} (P : St → Prop) (body : Z → Z → St → result St)
    (n : Z) (s s' : St) :
  (∀ i j t t', P t → body i j t = Ok t' → P t') →
  P s → for_range n (fun i => for_range n (body i)) s = Ok s' → P s'.
Proof.
  intros Hcell. apply for_loop_keeps. intros i t t'.
  apply for_loop_keeps. intros j. apply Hcell.
Qed.

(** ** Initialisation *)

Lemma citySet_size (ts : list AllocatedTaskInfo) (m : gmap Z bool) :
  (size (foldl (fun (citySet : gmap Z bool) task =>
                  <[TaskID task := true]> citySet) m ts)
   ≤ size m + length ts)%nat.
Proof.
  revert m. induction ts as [|t ts IH]; intros m; simpl; [lia|].
  etrans; [apply IH|].
  destruct (m !! TaskID t) eqn:E.
  - erewrite map_size_insert_Some by eauto. lia.
  - rewrite map_size_insert_None by done. lia.
Qed.

Lemma getTotalCities_bounds (ts : list AllocatedTaskInfo) :
  0 ≤ getTotalCities ts ≤ Z.of_nat (length ts).
Proof.
  unfold getTotalCities. pose proof (citySet_size ts ∅) as H.
  rewrite map_size_empty in H. lia.
Qed.

Lemma generateDistanceMatrix_spec (rd : RouteDiscovery) :
  0 ≤ numberOfCities rd ≤ Z.of_nat (length (tasks rd)) →
  square (numberOfCities rd) (distances rd) →
  ∃ d, generateDistanceMatrix rd = Ok (set_distances d rd)
       ∧ square (numberOfCities rd) d
       ∧ ∀ a b, 0 ≤ a < numberOfCities rd → 0 ≤ b < numberOfCities rd →
                index2 d a b = costOf (tasks rd) a b.
Proof.
  intros Hn Hsq. set (n := numberOfCities rd) in *.
  pose (P := fun (i j : Z) (t : RouteDiscovery) =>
    ∃ d, t = set_distances d rd ∧ square n d
         ∧ ∀ a b, 0 ≤ a → 0 ≤ b < n → a < i ∨ (a = i ∧ b < j) →
                  index2 d a b = costOf (tasks rd) a b).
  destruct (for_cells_total P
    (fun i j rd =>
       if i =? j then
         d ← store2 (distances rd) i j 0%float; Ok (set_distances d rd)
       else
         task ← index (tasks rd) i;
         d ← store2 (distances rd) i j (Latency (Facets task));
         Ok (set_distances d rd)) n rd) as (s' & Hrun & d & -> & Hd & Hcells).
  - lia.
  - exists (distances rd). split; [by destruct rd|]. split; [done|]. lia.
  - intros i j t Hi Hj (d & -> & Hd & Hcells). simpl.
    assert (∃ x, costOf (tasks rd) i j = Ok x) as [x Hx].
    { unfold costOf. destruct (i =? j); [eauto|].
      destruct (index_in_range (tasks rd) i) as [task ->]; [lia|].
      simpl. eauto. }
    destruct (store2_in_range n d i j x) as (d' & Hst & Hd'); try done.
    exists (set_distances d' rd). split.
    + unfold costOf in Hx. destruct (i =? j).
      * injection Hx as <-. rewrite Hst. done.
      * apply bind_Ok in Hx as (task & -> & [= <-]). simpl.
        rewrite Hst. done.
    + exists d'. split; [done|]. split; [done|].
      intros a b Ha Hb Hlt. rewrite (index2_store2 _ _ _ _ a b _ Hst).
      case_decide as E.
      * destruct E as [-> ->]. done.
      * apply Hcells; try done. lia.
  - intros i t Hi (d & -> & Hd & Hcells). exists d.
    split; [done|]. split; [done|]. intros a b Ha Hb Hlt.
    apply Hcells; try done. lia.
  - exists d. split; [exact Hrun|]. split; [done|].
    intros a b Ha Hb. apply Hcells; lia.
Qed.

Lemma clearTrails_spec (rd : RouteDiscovery) :
  0 ≤ numberOfCities rd →
  square (numberOfCities rd) (pheromones rd) →
  ∃ p, clearTrails rd = Ok (set_pheromones p rd)
       ∧ square (numberOfCities rd) p
       ∧ ∀ a b, 0 ≤ a < numberOfCities rd → 0 ≤ b < numberOfCities rd →
                index2 p a b = Ok (initialPheromone rd).
Proof.
  intros Hn Hsq. set (n := numberOfCities rd) in *.
  pose (P := fun (i j : Z) (t : RouteDiscovery) =>
    ∃ p, t = set_pheromones p rd ∧ square n p
         ∧ ∀ a b, 0 ≤ a → 0 ≤ b < n → a < i ∨ (a = i ∧ b < j) →
                  index2 p a b = Ok (initialPheromone rd)).
  destruct (for_cells_total P
    (fun i j rd =>
       p ← store2 (pheromones rd) i j (initialPheromone rd);
       Ok (set_pheromones p rd)) n rd) as (s' & Hrun & p & -> & Hp & Hcells).
  - lia.
  - exists (pheromones rd). split; [by destruct rd|]. split; [done|]. lia.
  - intros i j t Hi Hj (p & -> & Hp & Hcells). simpl.
    destruct (store2_in_range n p i j (initialPheromone rd))
      as (p' & Hst & Hp'); try done.
    exists (set_pheromones p' rd). split; [by rewrite Hst|].
    exists p'. split; [done|]. split; [done|].
    intros a b Ha Hb Hlt. rewrite (index2_store2 _ _ _ _ a b _ Hst).
    case_decide as E; [done|]. apply Hcells; try done. lia.
  - intros i t Hi (p & -> & Hp & Hcells). exists p.
    split; [done|]. split; [done|]. intros a b Ha Hb Hlt.
    apply Hcells; try done. lia.
  - exists p. split; [exact Hrun|]. split; [done|].
    intros a b Ha Hb. apply Hcells; lia.
Qed.

Lemma NewRouteDiscovery_spec (ts : list AllocatedTaskInfo) (r : Rand) :
  let n := getTotalCities ts in
  ∃ p d, NewRouteDiscovery ts r = Ok (freshEngine ts r p d)
         ∧ square n p ∧ square n d
         ∧ (∀ a b, 0 ≤ a < n → 0 ≤ b < n → index2 d a b = costOf ts a b)
         ∧ (∀ a b, 0 ≤ a < n → 0 ≤ b < n → index2 p a b = Ok 1%float).
Proof.
  intros n. pose proof (getTotalCities_bounds ts) as Hn.
  unfold NewRouteDiscovery. fold n.
  set (zeros := replicate (Z.to_nat n) (replicate (Z.to_nat n) 0%float)).
  set (rd0 := mkRD _ _ _ _ _ _ _ _ _ _ _ _ _ _ _ _ _ _ _ _).
  destruct (generateDistanceMatrix_spec rd0) as (d & -> & Hd & Hcost).
  { simpl. exact Hn. }
  { apply square_replicate. }
  simpl. destruct (clearTrails_spec (set_distances d rd0)) as (p & -> & Hp & Hph).
  { simpl. lia. }
  { apply square_replicate. }
  exists p, d. split; [reflexivity|]. auto.
Qed.

(** C2 (as amended): after initialisation the cost from city [i] to a
    different city [j] is the Latency facet of task [i], the source, and
    every diagonal entry is zero. *)
Theorem cost_matrix_after_init (ts : list AllocatedTaskInfo) (r : Rand)
    (rd : RouteDiscovery) (i j : Z) :
  NewRouteDiscovery ts r = Ok rd →
  0 ≤ i < numberOfCities rd → 0 ≤ j < numberOfCities rd →
  ∃ src, index ts i = Ok src
    ∧ index2 (distances rd) i j
      = Ok (if decide (i = j) then 0%float else Latency (Facets src)).
Proof.
  intros Hnew Hi Hj.
  destruct (NewRouteDiscovery_spec ts r) as (p & d & Hnew' & _ & _ & Hd & _).
  rewrite Hnew in Hnew'. injection Hnew' as ->. simpl in *.
  pose proof (getTotalCities_bounds ts) as Hn.
  destruct (index_in_range ts i) as [task Htask]; [lia|].
  exists task. split; [done|]. rewrite Hd by done. unfold costOf.
  destruct (Z.eqb_spec i j).
  - by rewrite decide_True.
  - rewrite decide_False by done. by rewrite Htask.
Qed.

(** The entry from city 0 to city 1 of an engine over two tasks. *)
Lemma cost_matrix_after_init_witness :
  ∃ src, index twoTasks 0 = Ok src
    ∧ index2 (distances (freshEngine twoTasks zeroRand
                [[1; 1]; [1; 1]] [[0; 2]; [1; 0]])%float) 0 1
      = Ok (if decide (0 = 1) then 0%float else Latency (Facets src)).
Proof.
  apply (cost_matrix_after_init twoTasks zeroRand).
  - vm_compute. reflexivity.
  - vm_compute. split; [discriminate | reflexivity].
  - vm_compute. split; [discriminate | reflexivity].
Defined.

(** C2, the claim as written, fails: with latencies 2 and 1 the cost
    from city 0 to city 1 is 2, the latency of city 0, and not 1. *)
Lemma cost_is_not_destination_latency :
  ∃ rd dest,
    NewRouteDiscovery twoTasks zeroRand = Ok rd
    ∧ index twoTasks 1 = Ok dest
    ∧ index2 (distances rd) 0 1 = Ok 2%float
    ∧ index2 (distances rd) 0 1 ≠ Ok (Latency (Facets dest)).
Proof.
  eexists. eexists. split; [vm_compute; reflexivity|].
  split; [vm_compute; reflexivity|].
  split; [vm_compute; reflexivity|].
  vm_compute. intros [= H].
Qed.

(** C4 (as amended): [NewRouteDiscovery] on an empty task list does not
    fail; it returns an engine with no cities, no ants, empty matrices
    and no best tour. *)
Theorem init_empty_task_list (r : Rand) :
  ∃ rd, NewRouteDiscovery [] r = Ok rd
    ∧ numberOfCities rd = 0 ∧ numberOfAnts rd = 0
    ∧ pheromones rd = [] ∧ distances rd = [] ∧ probabilities rd = []
    ∧ ants rd = [] ∧ bestTourOrder rd = None.
Proof.
  exists (freshEngine [] r [] []). repeat split.
Qed.

(** C4, the claim as written, fails: the call returns an engine. *)
Lemma init_empty_does_not_fail :
  ¬ ∃ p, NewRouteDiscovery [] zeroRand = Panic p.
Proof. intros [p H]. vm_compute in H. discriminate. Qed.

(** ** Priority extraction *)

Lemma getPriorityMap_nil (rd : RouteDiscovery) :
  bestTourOrder rd = None → getPriorityMap rd = ∅.
Proof. intros H. unfold getPriorityMap, bestTour. by rewrite H. Qed.

(** C5 (as amended): on an engine that has not run an iteration yet,
    [getPriorityMap] does not fail; it returns the empty map. *)
Theorem priority_map_before_optimization (ts : list AllocatedTaskInfo)
    (r : Rand) (rd : RouteDiscovery) :
  NewRouteDiscovery ts r = Ok rd → getPriorityMap rd = ∅.
Proof.
  intros Hnew.
  destruct (NewRouteDiscovery_spec ts r) as (p & d & Hnew' & _).
  rewrite Hnew in Hnew'. injection Hnew' as ->.
  by apply getPriorityMap_nil.
Qed.

(** The map of an engine over two tasks that has not run. *)
Lemma priority_map_before_optimization_witness :
  getPriorityMap (freshEngine twoTasks zeroRand
                    [[1; 1]; [1; 1]] [[0; 2]; [1; 0]])%float = ∅.
Proof.
  apply (priority_map_before_optimization twoTasks zeroRand).
  vm_compute. reflexivity.
Defined.

(** C5, the claim as written, fails: the result is a map with no entry,
    and the model of the call has no way to fail. *)
Lemma priority_map_not_ready_returns_map :
  ∃ rd, NewRouteDiscovery twoTasks zeroRand = Ok rd
    ∧ bestTourOrder rd = None
    ∧ getPriorityMap rd = ∅.
Proof.
  eexists. split; [vm_compute; reflexivity|]. split; reflexivity.
Qed.

Lemma rankFrom_cons (m : gmap Z Z) (p c : Z) (t : list Z) :
  rankFrom m p (c :: t) = rankFrom (<[c := p]> m) (p + 1) t.
Proof. reflexivity. Qed.

Lemma rankFrom_other (t : list Z) (m : gmap Z Z) (p c : Z) :
  c ∉ t → (rankFrom m p t).1 !! c = m !! c.
Proof.
  revert m p. induction t as [|c0 t IH]; intros m p Hc; [done|].
  rewrite rankFrom_cons, IH by set_solver.
  apply lookup_insert_ne. set_solver.
Qed.

Lemma rankFrom_lookup (t : list Z) (m : gmap Z Z) (p c : Z) (k : nat) :
  NoDup t → t !! k = Some c →
  (rankFrom m p t).1 !! c = Some (p + Z.of_nat k).
Proof.
  revert m p k. induction t as [|c0 t IH]; intros m p k Hnd Hk; [done|].
  apply NoDup_cons in Hnd as [Hc0 Hnd]. rewrite rankFrom_cons.
  destruct k as [|k]; simpl in Hk.
  - injection Hk as ->. rewrite rankFrom_other by done.
    rewrite lookup_insert_eq. f_equal. lia.
  - rewrite (IH _ _ k) by done. f_equal. lia.
Qed.

Lemma rankFrom_dom (t : list Z) (m : gmap Z Z) (p : Z) :
  dom (rankFrom m p t).1 = dom m ∪ list_to_set t.
Proof.
  revert m p. induction t as [|c0 t IH]; intros m p.
  - simpl. set_solver.
  - rewrite rankFrom_cons, IH, dom_insert_L. set_solver.
Qed.

Lemma getPriorityMap_rankFrom (rd : RouteDiscovery) :
  getPriorityMap rd = (rankFrom ∅ 1 (bestTour rd)).1.
Proof. reflexivity. Qed.

(** For a best tour of [N] distinct cities, [getPriorityMap] has exactly
    [N] entries; the city at position [k] of the tour gets rank [k + 1],
    so the first gets 1 and the last [N]; the ranks are exactly 1..N,
    each held by one city; and the map is a function of the best tour
    alone. *)
Lemma priority_map_of_best_tour (rd : RouteDiscovery) (N : nat) :
  NoDup (bestTour rd) → length (bestTour rd) = N →
  size (getPriorityMap rd) = N
  ∧ (∀ k c, bestTour rd !! k = Some c →
            getPriorityMap rd !! c = Some (Z.of_nat k + 1))
  ∧ (∀ rank, (∃ c, getPriorityMap rd !! c = Some rank)
             ↔ 1 ≤ rank ≤ Z.of_nat N)
  ∧ (∀ c c' rank, getPriorityMap rd !! c = Some rank →
                  getPriorityMap rd !! c' = Some rank → c = c')
  ∧ (∀ rd', bestTour rd' = bestTour rd →
            getPriorityMap rd' = getPriorityMap rd).
Proof.
  intros Hnd Hlen. rewrite getPriorityMap_rankFrom.
  set (t := bestTour rd) in *.
  assert (∀ k c, t !! k = Some c →
            (rankFrom ∅ 1 t).1 !! c = Some (Z.of_nat k + 1)) as Hpos.
  { intros k c Hk. rewrite (rankFrom_lookup t ∅ 1 c k) by done.
    f_equal. lia. }
  assert (∀ c rank, (rankFrom ∅ 1 t).1 !! c = Some rank →
            ∃ k, t !! k = Some c ∧ rank = Z.of_nat k + 1) as Hinv.
  { intros c rank Hc. destruct (decide (c ∈ t)) as [Hin|Hout].
    - apply list_elem_of_lookup in Hin as [k Hk]. exists k.
      split; [done|]. rewrite (Hpos k c Hk) in Hc. by injection Hc.
    - rewrite rankFrom_other in Hc by done. done. }
  split; [|split; [|split; [|split]]].
  - rewrite <- size_dom, rankFrom_dom, dom_empty_L, (left_id_L ∅ (∪)).
    rewrite size_list_to_set by done. done.
  - exact Hpos.
  - intros rank. split.
    + intros (c & (k & Hk & ->)%Hinv). apply lookup_lt_Some in Hk. lia.
    + intros Hr.
      destruct (lookup_lt_is_Some_2 t (Z.to_nat (rank - 1))) as [c Hc];
        [lia|].
      exists c. rewrite (Hpos _ _ Hc). f_equal. lia.
  - intros c c' rank (k & Hk & ->)%Hinv (k' & Hk' & Heq)%Hinv.
    assert (k = k') as -> by lia. congruence.
  - intros rd' Heq. rewrite getPriorityMap_rankFrom, Heq. done.
Qed.

(** ** binary64 facts

    Signs survive rounding: the specification of multiplication rounds a
    non-negative mantissa to a non-negative mantissa. *)

Lemma nonneg_spec (x : float) : nonneg x ↔ sf_nonneg (Prim2SF x).
Proof. unfold nonneg, sf_nonneg. rewrite leb_spec. reflexivity. Qed.

Lemma shr_1_nonneg (mrs : shr_record) :
  0 ≤ shr_m mrs → 0 ≤ shr_m (shr_1 mrs).
Proof.
  destruct mrs as [m r s]. simpl. destruct m as [|p|p]; simpl; try lia.
  intros _. destruct p; simpl; lia.
Qed.

Lemma iter_shr_1_nonneg (p : positive) (mrs : shr_record) :
  0 ≤ shr_m mrs → 0 ≤ shr_m (SpecFloat.iter_pos shr_1 p mrs).
Proof.
  revert mrs. induction p as [p IH|p IH|]; intros mrs H; simpl.
  - apply IH, IH, shr_1_nonneg, H.
  - apply IH, IH, H.
  - apply shr_1_nonneg, H.
Qed.

Lemma shr_fexp_nonneg (prec emax m e : Z) (l : location) :
  0 ≤ m → 0 ≤ shr_m (shr_fexp prec emax m e l).1.
Proof.
  intros H. unfold shr_fexp, shr.
  assert (0 ≤ shr_m (shr_record_of_loc m l)) as H'.
  { destruct l as [|[]]; simpl; exact H. }
  destruct (fexp prec emax (Zdigits2 m + e) - e); simpl; try exact H'.
  apply iter_shr_1_nonneg, H'.
Qed.

Lemma round_nearest_even_nonneg (m : Z) (l : location) :
  0 ≤ m → 0 ≤ round_nearest_even m l.
Proof.
  intros H. unfold round_nearest_even.
  destruct l as [|[]]; try lia. destruct (Z.even m); lia.
Qed.

Lemma binary_round_aux_nonneg (prec emax m e : Z) (l : location) :
  0 ≤ m → sf_nonneg (binary_round_aux prec emax false m e l).
Proof.
  intros H. unfold binary_round_aux.
  pose proof (shr_fexp_nonneg prec emax m e l H) as H1.
  destruct (shr_fexp prec emax m e l) as [mrs' e'] eqn:E1. simpl in H1.
  pose proof (shr_fexp_nonneg prec emax
    (round_nearest_even (shr_m mrs') (loc_of_shr_record mrs')) e' loc_Exact
    (round_nearest_even_nonneg _ _ H1)) as H2.
  destruct (shr_fexp prec emax _ e' loc_Exact) as [mrs'' e''] eqn:E2.
  simpl in H2. destruct (shr_m mrs'') as [|p|p]; try reflexivity.
  - destruct (e'' <=? emax - prec); reflexivity.
  - lia.
Qed.

(** Halving keeps a number non-negative. *)
Lemma nonneg_mul_half (x : float) : nonneg x → nonneg (x * 0.5)%float.
Proof.
  rewrite !nonneg_spec, mul_spec.
  replace (Prim2SF 0.5) with (S754_finite false 4503599627370496 (-53))
    by reflexivity.
  destruct (Prim2SF x) as [s|s| |s m e]; unfold sf_nonneg; simpl.
  - done.
  - destruct s; done.
  - done.
  - destruct s; [done|]. intros _. apply binary_round_aux_nonneg. lia.
Qed.

(** Adding [+Inf] to a non-negative number gives a non-negative number. *)
Lemma nonneg_add_infinity (x : float) :
  nonneg x → nonneg (x + infinity)%float.
Proof.
  rewrite !nonneg_spec, add_spec.
  replace (Prim2SF infinity) with (S754_infinity false) by reflexivity.
  destruct (Prim2SF x) as [s|s| |s m e]; unfold sf_nonneg; simpl; try done.
  destruct s; done.
Qed.

(** [<] on binary64 is a strict order. *)
Lemma SFltb_trans (a b c : spec_float) :
  SFltb a b = true → SFltb b c = true → SFltb a c = true.
Proof.
  unfold SFltb.
  destruct a as [sa|sa| |sa ma ea], b as [sb|sb| |sb mb eb],
           c as [sc|sc| |sc mc ec]; simpl;
    repeat match goal with s : bool |- _ => destruct s end; simpl;
    try discriminate; try reflexivity;
    change (Pos.compare_cont Eq) with Pos.compare;
    destruct (Z.compare_spec ea eb), (Z.compare_spec eb ec),
      (Z.compare_spec ea ec); try discriminate; try lia; try reflexivity;
    destruct (Pos.compare_spec ma mb), (Pos.compare_spec mb mc),
      (Pos.compare_spec ma mc); simpl; try discriminate; try lia;
      try reflexivity.
Qed.

Lemma ltb_trans (x y z : float) :
  (x <? y)%float = true → (y <? z)%float = true → (x <? z)%float = true.
Proof. rewrite !ltb_spec. apply SFltb_trans. Qed.

Lemma ltb_irrefl (x : float) : (x <? x)%float = false.
Proof.
  rewrite ltb_spec. unfold SFltb.
  destruct (Prim2SF x) as [s|s| |s m e]; simpl; try reflexivity.
  - destruct s; reflexivity.
  - change (Pos.compare_cont Eq) with Pos.compare.
    destruct s; rewrite Z.compare_refl, Pos.compare_refl; reflexivity.
Qed.

Lemma ltb_asym (x y : float) :
  (x <? y)%float = true → (y <? x)%float = false.
Proof.
  intros H. destruct (y <? x)%float eqn:E; [|done].
  pose proof (ltb_trans _ _ _ H E) as H'. by rewrite ltb_irrefl in H'.
Qed.

(** ** What each operation may change *)

(** Closing a goal about a concrete run by evaluation. *)
Ltac run := vm_compute; reflexivity.

(** Inversion of a successful monadic computation. *)
Ltac inv_ok :=
  repeat match goal with
  | H : Ok _ = Ok _ |- _ => injection H as H
  | H : Panic _ = Ok _ |- _ => discriminate H
  | H : mbind _ _ = Ok _ |- _ =>
      apply bind_Ok in H; destruct H as (? & ? & H); cbn beta in H
  | H : (let '(_, _) := ?x in _) = Ok _ |- _ =>
      is_var x; destruct x; cbn iota beta in H
  | H : (let '(_, _) := ?x in _) = Ok _ |- _ =>
      let a := fresh "a" in let b := fresh "b" in
      destruct x as [a b] eqn:?; cbn iota beta in H
  | H : (if ?b then _ else _) = Ok _ |- _ => destruct b eqn:?
  | H : match ?x with Some _ => _ | None => _ end = Ok _ |- _ =>
      destruct x eqn:?
  end.

Ltac inv_store :=
  repeat match goal with
  | H : store _ _ _ = Ok ?s |- _ =>
      is_var s; apply store_Ok in H as (? & ? & ->)
  end.

Ltac inv_index :=
  repeat match goal with
  | H : index _ _ = Ok _ |- _ => apply index_Ok in H as [? H]
  end.

Lemma calculateProbabilities_frame Pow (rd rd' : RouteDiscovery) (ant : Ant) :
  calculateProbabilities Pow rd ant = Ok rd' →
  ∃ ps, rd' = set_probabilities ps rd.
Proof.
  unfold calculateProbabilities. intros H. inv_ok.
  revert H. apply (for_loop_keeps (fun t => ∃ ps, t = set_probabilities ps rd)).
  - intros j t t' [ps ->] Hb. inv_ok; subst t'; eauto.
  - exists (probabilities rd). by destruct rd.
Qed.

Lemma spin_frame Pow (rd rd' : RouteDiscovery) (ant : Ant) (city : Z) :
  spin Pow rd ant = Ok (city, rd') →
  ∃ g ps, rd' = set_random g (set_probabilities ps rd).
Proof.
  unfold spin. intros H. inv_ok.
  match goal with
  | H : calculateProbabilities _ _ _ = Ok _ |- _ =>
      apply calculateProbabilities_frame in H as [ps ->]
  end.
  subst. eauto.
Qed.

Lemma selectNextCity_frame Pow (rd rd' : RouteDiscovery) (ant : Ant)
    (city : Z) :
  selectNextCity Pow rd ant = Ok (city, rd') →
  ∃ g ps, rd' = set_random g (set_probabilities ps rd).
Proof.
  unfold selectNextCity. intros H. inv_ok;
    try match goal with
    | H : spin _ _ _ = Ok _ |- _ =>
        apply spin_frame in H as (g & ps & ->); by eauto
    end.
  subst. eexists _, (probabilities rd). by destruct rd.
Qed.

Lemma visitCity_Ok (h h' : Heap) (ant ant' : Ant) (ci city : Z) :
  visitCity h ant ci city = Ok (h', ant') →
  ∃ tr vs,
    store (deref h (trail ant)) (ci + 1) city = Ok tr
    ∧ store (visited ant) city true = Ok vs
    ∧ h' = <[trail ant := tr]> h ∧ ant' = set_visited vs ant.
Proof.
  unfold visitCity. intros H. inv_ok. subst. eauto 10.
Qed.

Lemma moveAnt_frame Pow (k : Z) (rd rd' : RouteDiscovery) :
  moveAnt Pow k rd = Ok rd' →
  ∃ ant vs h g ps,
    index (ants rd) k = Ok ant
    ∧ length h = length (heap rd)
    ∧ rd' = set_ants (<[Z.to_nat k := set_visited vs ant]> (ants rd))
              (set_heap h (set_random g (set_probabilities ps rd))).
Proof.
  unfold moveAnt. intros H. inv_ok.
  apply selectNextCity_frame in H1 as (g & ps & ->).
  apply visitCity_Ok in H2 as (tr & vs & _ & _ & -> & ->).
  apply store_Ok in H3 as (_ & _ & ->). subst rd'. simpl.
  exists x, vs, (<[trail x := tr]> (heap rd)), g, ps.
  split; [done|]. split; [apply length_insert|]. reflexivity.
Qed.

Lemma construction_refl (rd : RouteDiscovery) : construction rd rd.
Proof.
  exists (ants rd), (heap rd), (random rd), (probabilities rd),
    (currentIndex rd).
  split; [by destruct rd|]. done.
Qed.

Lemma construction_trans (a b c : RouteDiscovery) :
  construction a b → construction b c → construction a c.
Proof.
  intros (as1 & h1 & g1 & ps1 & ci1 & -> & Hh1 & Hc1)
         (as2 & h2 & g2 & ps2 & ci2 & -> & Hh2 & Hc2).
  exists as2, h2, g2, ps2, ci2. simpl in *.
  split; [reflexivity|]. split; congruence.
Qed.

Lemma moveAnt_construction Pow (k : Z) (rd rd' : RouteDiscovery) :
  moveAnt Pow k rd = Ok rd' →
  construction rd rd' ∧ currentIndex rd' = currentIndex rd.
Proof.
  intros (ant & vs & h & g & ps & Hant & Hh & ->)%moveAnt_frame.
  split; [|reflexivity].
  exists (<[Z.to_nat k := set_visited vs ant]> (ants rd)), h, g, ps,
    (currentIndex rd).
  split; [reflexivity|]. split; [done|].
  apply index_Ok in Hant as [_ Hant].
  rewrite list_fmap_insert. apply list_insert_id.
  by rewrite list_lookup_fmap, Hant.
Qed.

Lemma moveStep_construction Pow (rd rd' : RouteDiscovery) :
  moveStep Pow rd = Ok rd' →
  construction rd rd' ∧ currentIndex rd' = currentIndex rd + 1.
Proof.
  unfold moveStep. intros H. inv_ok. subst rd'. simpl.
  assert (construction rd x ∧ currentIndex x = currentIndex rd)
    as [Hx Hci].
  { revert H0. apply (for_loop_keeps
      (fun t => construction rd t ∧ currentIndex t = currentIndex rd)).
    - intros i t t' [Ht Hi] [Hb Hi']%moveAnt_construction. split.
      + eapply construction_trans; eauto.
      + congruence.
    - split; [apply construction_refl | done]. }
  destruct Hx as (as' & h & g & ps & ci & -> & Hh & Hc).
  split; [|lia].
  exists as', h, g, ps, (ci + 1). done.
Qed.

Lemma moveAnts_construction Pow (rd rd' : RouteDiscovery) :
  moveAnts Pow rd = Ok rd' →
  construction rd rd'
  ∧ currentIndex rd'
    = currentIndex rd
      + Z.of_nat (Z.to_nat (numberOfCities rd - 1 - currentIndex rd)).
Proof.
  unfold moveAnts.
  apply (for_loop_inv
    (fun i t => construction rd t ∧ currentIndex t = i)).
  - split; [apply construction_refl | done].
  - intros i t t' _ [Ht Hi] [Hc Hi']%moveStep_construction. split.
    + eapply construction_trans; eauto.
    + lia.
Qed.

(** [moveAnts] on an engine whose [currentIndex] already stands at
    [numberOfCities - 1] (or beyond) does nothing at all. *)
Lemma moveAnts_done Pow (rd : RouteDiscovery) :
  numberOfCities rd - 1 ≤ currentIndex rd → moveAnts Pow rd = Ok rd.
Proof.
  intros H. unfold moveAnts.
  by replace (Z.to_nat (numberOfCities rd - 1 - currentIndex rd)) with O
    by lia.
Qed.

(** ** Pheromones *)

Lemma repainted_refl (rd : RouteDiscovery) : repainted rd rd.
Proof. exists (pheromones rd). by destruct rd. Qed.

Lemma repainted_trans (a b c : RouteDiscovery) :
  repainted a b → repainted b c → repainted a c.
Proof. intros [p ->] [p' ->]. by exists p'. Qed.

Lemma store2_Forall {A} (P : A → Prop) (m m' : list (list A)) (i j : Z)
    (x : A) :
  Forall (Forall P) m → P x → store2 m i j x = Ok m' → Forall (Forall P) m'.
Proof.
  intros Hm Hx H. unfold store2 in H. inv_ok.
  apply index_Ok in H0 as [_ Hrow].
  apply store_Ok in H1 as (_ & _ & ->). apply store_Ok in H as (_ & _ & ->).
  apply Forall_insert; [done|]. apply Forall_insert; [|done].
  eapply Forall_lookup_1 in Hm; eauto.
Qed.

Lemma index2_Forall {A} (P : A → Prop) (m : list (list A)) (i j : Z)
    (x : A) :
  Forall (Forall P) m → index2 m i j = Ok x → P x.
Proof.
  intros Hm H. unfold index2 in H. inv_ok.
  apply index_Ok in H0 as [_ Hrow]. apply index_Ok in H as [_ Hx].
  eapply Forall_lookup_1 in Hm; eauto.
  eapply Forall_lookup_1 in Hm; eauto.
Qed.

Lemma clearTrails_repainted (rd rd' : RouteDiscovery) :
  clearTrails rd = Ok rd' →
  repainted rd rd'
  ∧ (nonneg (initialPheromone rd) → pheromones_nonneg rd →
     pheromones_nonneg rd').
Proof.
  unfold clearTrails.
  apply (for_cells_keeps (fun t => repainted rd t
    ∧ (nonneg (initialPheromone rd) → pheromones_nonneg rd →
       pheromones_nonneg t))).
  - intros i j t t' [[p ->] Hp] Hb. inv_ok. subst t'. split.
    + by eexists.
    + intros Hi Hrd. eapply store2_Forall; [apply Hp| |]; eauto.
  - split; [apply repainted_refl | auto].
Qed.

Lemma evaporate_repainted (rd rd' : RouteDiscovery) :
  evaporate rd = Ok rd' →
  repainted rd rd'
  ∧ (remainingFactor rd = 0.5%float → pheromones_nonneg rd →
     pheromones_nonneg rd').
Proof.
  unfold evaporate.
  apply (for_cells_keeps (fun t => repainted rd t
    ∧ (remainingFactor rd = 0.5%float → pheromones_nonneg rd →
       pheromones_nonneg t))).
  - intros i j t t' [[p ->] Hp] Hb. inv_ok. subst t'. split.
    + by eexists.
    + intros Hrf Hrd. simpl in *.
      eapply store2_Forall; [by apply Hp| |eauto].
      rewrite Hrf. apply nonneg_mul_half.
      eapply index2_Forall; [by apply Hp | eauto].
  - split; [apply repainted_refl | auto].
Qed.

Lemma deposit_repainted (i j : Z) (c : float) (rd rd' : RouteDiscovery) :
  deposit i j c rd = Ok rd' →
  repainted rd rd'
  ∧ (c = infinity → pheromones_nonneg rd → pheromones_nonneg rd').
Proof.
  unfold deposit. intros H. inv_ok. subst rd'. split; [by eexists|].
  intros -> Hrd. eapply store2_Forall; [exact Hrd| |eauto].
  apply nonneg_add_infinity. eapply index2_Forall; eauto.
Qed.

Lemma reinforce_repainted (ant : Ant) (rd rd' : RouteDiscovery) :
  reinforce ant rd = Ok rd' →
  repainted rd rd'
  ∧ (q rd = 500%float → tourLength ant = 0%float →
     pheromones_nonneg rd → pheromones_nonneg rd').
Proof.
  unfold reinforce. intros H. inv_ok.
  assert (repainted rd x
    ∧ (q rd = 500%float → tourLength ant = 0%float →
       pheromones_nonneg rd → pheromones_nonneg x)) as [[p ->] Hp].
  { revert H0. apply (for_loop_keeps (fun t => repainted rd t
      ∧ (q rd = 500%float → tourLength ant = 0%float →
         pheromones_nonneg rd → pheromones_nonneg t))).
    - intros i t t' [Ht Hp] Hb. inv_ok.
      apply deposit_repainted in Hb as [Hr Hn]. split.
      + eapply repainted_trans; eauto.
      + intros Hq Hl Hrd. apply Hn; [|by apply Hp].
        rewrite Hq, Hl. reflexivity.
    - split; [apply repainted_refl | auto]. }
  apply deposit_repainted in H as [Hr Hn]. split.
  - eapply repainted_trans; [by eexists | exact Hr].
  - intros Hq Hl Hrd. apply Hn; [|by apply Hp].
    simpl. rewrite Hq, Hl. reflexivity.
Qed.

Lemma updateTrails_repainted (rd rd' : RouteDiscovery) :
  updateTrails rd = Ok rd' →
  repainted rd rd'
  ∧ (remainingFactor rd = 0.5%float → q rd = 500%float →
     Forall (fun ant => tourLength ant = 0%float) (ants rd) →
     pheromones_nonneg rd → pheromones_nonneg rd').
Proof.
  unfold updateTrails. intros H. inv_ok.
  apply evaporate_repainted in H0 as [[p ->] Hp].
  revert H. simpl.
  apply (for_each_keeps (fun t => repainted rd t
    ∧ (remainingFactor rd = 0.5%float → q rd = 500%float →
       Forall (fun ant => tourLength ant = 0%float) (ants rd) →
       pheromones_nonneg rd → pheromones_nonneg t))).
  - intros ant t t' Hin [[p' ->] Hp'] [Hr Hn]%reinforce_repainted. split.
    + eapply repainted_trans; [by eexists | exact Hr].
    + intros Hrf Hq Hants Hrd. apply Hn; [done| |by apply Hp'].
      eapply Forall_forall in Hants; eauto.
  - split; [by eexists | auto].
Qed.

(** ** Setting the ants up *)

Lemma clear_spec (ant ant' : Ant) :
  clear ant = Ok ant' →
  length (visited ant) = Z.to_nat (trailSize ant) →
  ant' = set_visited (replicate (Z.to_nat (trailSize ant)) false) ant.
Proof.
  unfold clear, for_range. intros Hrun Hlen.
  set (n := Z.to_nat (trailSize ant)) in *.
  assert (∃ vs, ant' = set_visited vs ant ∧ length vs = n
          ∧ ∀ j, (j < n)%nat → vs !! j = Some false) as (vs & -> & Hl & Hvs).
  { pose (P := fun (i : Z) (a : Ant) =>
      ∃ vs, a = set_visited vs ant ∧ length vs = n
            ∧ ∀ j, (Z.of_nat j < i) → vs !! j = Some false).
    assert (P (0 + Z.of_nat n) ant') as (vs & -> & Hl & Hvs).
    { eapply for_loop_inv; [| |exact Hrun].
      - exists (visited ant). split; [by destruct ant|]. split; [done|]. lia.
      - intros i t t' Hi (vs & -> & Hl & Hvs) Hb. inv_ok. subst t'.
        inv_store. simpl.
        eexists. split; [reflexivity|]. split; [by rewrite length_insert|].
        intros j Hj. destruct (decide (j = Z.to_nat i)) as [->|Hne].
        + apply list_lookup_insert_eq. simpl. lia.
        + rewrite list_lookup_insert_ne by done. apply Hvs. lia. }
    exists vs. split; [done|]. split; [done|]. intros j Hj. apply Hvs. lia. }
  f_equal. apply list_eq. intros j.
  destruct (decide (j < n)%nat).
  - rewrite Hvs by done. symmetry. by apply lookup_replicate_2.
  - rewrite !lookup_ge_None_2; [done| |]; rewrite ?length_replicate; lia.
Qed.

Lemma iter_advance (k : nat) (r : Rand) :
  Nat.iter k advance r = mkRand (ints r) (units r) (drawn r + k)%nat.
Proof.
  induction k as [|k IH]; simpl.
  - destruct r. simpl. f_equal. lia.
  - rewrite IH. unfold advance. simpl. f_equal. lia.
Qed.

Lemma spawnAnts_spec (rd rd' : RouteDiscovery) :
  spawnAnts rd = Ok rd' →
  ∃ as',
    rd' = set_ants as'
            (set_heap (heap rd ++ replicate (Z.to_nat (numberOfAnts rd))
                         (replicate (Z.to_nat (numberOfCities rd)) 0)) rd)
    ∧ length as' = Z.to_nat (numberOfAnts rd)
    ∧ ∀ k, (k < Z.to_nat (numberOfAnts rd))%nat →
        ∃ t, tasks rd !! k = Some t ∧ as' !! k = Some (spawnedAnt rd k t).
Proof.
  unfold spawnAnts, for_range. intros Hrun.
  set (N := Z.to_nat (numberOfAnts rd)) in *.
  set (zeros := replicate (Z.to_nat (numberOfCities rd)) 0).
  pose (P := fun (i : Z) (s : RouteDiscovery) =>
    ∃ as',
      s = set_ants as'
            (set_heap (heap rd ++ replicate (Z.to_nat i) zeros) rd)
      ∧ length as' = Z.to_nat i
      ∧ ∀ k, (k < Z.to_nat i)%nat →
          ∃ t, tasks rd !! k = Some t
               ∧ as' !! k = Some (spawnedAnt rd k t)).
  assert (P (0 + Z.of_nat N) rd') as (as' & -> & Hl & Has).
  { eapply for_loop_inv; [| |exact Hrun].
    - exists []. simpl. rewrite app_nil_r.
      split; [by destruct rd|]. split; [done|]. lia.
    - intros i s s' Hi (as' & -> & Hl & Has) Hb. inv_ok. simpl in *.
      inv_index. unfold newAnt, alloc in Heqp. injection Heqp as <- <-.
      subst s'. eexists (as' ++ [_]). split; [|split].
      + replace (Z.to_nat (i + 1)) with (S (Z.to_nat i)) by lia.
        rewrite replicate_S_end, app_assoc. reflexivity.
      + rewrite length_app. simpl. lia.
      + intros k Hk. destruct (decide (k = Z.to_nat i)) as [->|Hne].
        * exists x. split; [done|].
          rewrite lookup_app_r by lia. rewrite Hl, Nat.sub_diag. simpl.
          unfold spawnedAnt.
          rewrite length_app, length_replicate. reflexivity.
        * destruct (Has k) as (t & Ht & Hk'); [lia|].
          exists t. split; [done|]. by rewrite lookup_app_l by lia. }
  exists as'. replace (Z.to_nat (0 + Z.of_nat N)) with N in * by lia. auto.
Qed.

Lemma placeAnt_spec (rd s s' : RouteDiscovery) (as' : list Ant) (h : Heap)
    (g : Rand) (i : nat) (t : AllocatedTaskInfo) :
  s = set_ants as' (set_heap h (set_random g rd)) →
  as' !! i = Some (spawnedAnt rd i t) →
  h !! (length (heap rd) + i)%nat
    = Some (replicate (Z.to_nat (numberOfCities rd)) 0) →
  placeAnt (Z.of_nat i) s = Ok s' →
  let city := ints g (drawn g) mod numberOfCities rd in
  0 < numberOfCities rd ∧
  s' = set_ants
         (<[i := set_visited
                   (<[Z.to_nat city := true]>
                      (replicate (Z.to_nat (numberOfCities rd)) false))
                   (spawnedAnt rd i t)]> as')
         (set_heap
            (<[(length (heap rd) + i)%nat :=
                 <[0%nat := city]>
                   (replicate (Z.to_nat (numberOfCities rd)) 0)]> h)
            (set_random (advance g) rd)).
Proof.
  intros -> Hant Hh Hrun. unfold placeAnt in Hrun. simpl in Hrun. inv_ok.
  match goal with H : index _ _ = Ok _ |- _ =>
    apply index_Ok in H as [_ H]; rewrite Nat2Z.id, Hant in H;
    injection H as <- end.
  match goal with H : clear _ = Ok _ |- _ =>
    apply clear_spec in H; [|apply length_replicate]; simpl in H; subst end.
  match goal with H : Intn _ _ = Ok _ |- _ =>
    unfold Intn in H; destruct (Z.leb_spec (numberOfCities rd) 0); [done|];
    injection H as <- <- end.
  split; [lia|].
  match goal with H : visitCity _ _ _ _ = Ok _ |- _ =>
    apply visitCity_Ok in H as (tr & vs & Htr & Hvs & -> & ->) end.
  simpl in Htr, Hvs. unfold deref in Htr.
  rewrite (list_lookup_total_correct _ _ _ Hh) in Htr.
  apply store_Ok in Htr as (_ & _ & ->). apply store_Ok in Hvs as (_ & _ & ->).
  inv_store. simpl. rewrite Nat2Z.id. reflexivity.
Qed.

Lemma setupAnts_spec (rd rd' : RouteDiscovery) :
  setupAnts rd = Ok rd' →
  ∃ as' h,
    rd' = set_currentIndex 0
            (set_ants as'
               (set_heap h
                  (set_random
                     (Nat.iter (Z.to_nat (numberOfAnts rd)) advance
                        (random rd)) rd)))
    ∧ length as' = Z.to_nat (numberOfAnts rd)
    ∧ length h = (length (heap rd) + Z.to_nat (numberOfAnts rd))%nat
    ∧ (0 < numberOfAnts rd → 0 < numberOfCities rd)
    ∧ (∀ l, (l < length (heap rd))%nat → h !! l = heap rd !! l)
    ∧ ∀ k, (k < Z.to_nat (numberOfAnts rd))%nat →
        ∃ t, tasks rd !! k = Some t
          ∧ as' !! k = Some (placedAnt rd k t)
          ∧ h !! (length (heap rd) + k)%nat
            = Some (<[0%nat := startCity rd k]>
                      (replicate (Z.to_nat (numberOfCities rd)) 0)).
Proof.
  unfold setupAnts. intros Hrun. inv_ok. subst rd'.
  match goal with H : spawnAnts _ = Ok _ |- _ =>
    apply spawnAnts_spec in H as (as1 & -> & Hl1 & Has1) end.
  set (N := Z.to_nat (numberOfAnts rd)) in *.
  set (n := Z.to_nat (numberOfCities rd)) in *.
  set (len0 := length (heap rd)) in *.
  pose (Q := fun (i : Z) (s : RouteDiscovery) =>
    ∃ as' h,
      s = set_ants as'
            (set_heap h
               (set_random (Nat.iter (Z.to_nat i) advance (random rd)) rd))
      ∧ length as' = N ∧ length h = (len0 + N)%nat
      ∧ (0 < i → 0 < numberOfCities rd)
      ∧ (∀ l, (l < len0)%nat → h !! l = heap rd !! l)
      ∧ ∀ k, (k < N)%nat →
          ∃ t, tasks rd !! k = Some t
            ∧ if decide (k < Z.to_nat i)%nat then
                as' !! k = Some (placedAnt rd k t)
                ∧ h !! (len0 + k)%nat
                  = Some (<[0%nat := startCity rd k]> (replicate n 0))
              else
                as' !! k = Some (spawnedAnt rd k t)
                ∧ h !! (len0 + k)%nat = Some (replicate n 0)).
  match goal with H : for_range _ _ _ = Ok _ |- _ =>
    unfold for_range in H; simpl in H; rewrite Hl1, Nat2Z.id in H;
    rename H into Hloop end.
  apply (for_loop_inv Q) in Hloop.
  - destruct Hloop as (as' & h & -> & Hl & Hh & Hn & Hold & Has).
    exists as', h. replace (Z.to_nat (0 + Z.of_nat N)) with N in * by lia.
    split; [reflexivity|]. split; [done|]. split; [done|].
    split; [intros; apply Hn; lia|]. split; [done|].
    intros k Hk. destruct (Has k Hk) as (t & Ht & Hk').
    rewrite decide_True in Hk' by done. exists t. tauto.
  - exists as1, (heap rd ++ replicate N (replicate n 0)).
    split; [reflexivity|]. split; [done|].
    split; [by rewrite length_app, length_replicate|]. split; [lia|].
    split; [intros l Hl; by rewrite lookup_app_l|].
    intros k Hk. destruct (Has1 k Hk) as (t & Ht & Hk'). exists t.
    split; [done|]. rewrite decide_False by (simpl; lia). split; [done|].
    rewrite lookup_app_r by lia. apply lookup_replicate_2. lia.
  - intros i s s' Hi (as' & h & Hs & Hl & Hh & _ & Hold & Has) Hb.
    destruct (Has (Z.to_nat i)) as (t & Ht & Hi'); [lia|].
    rewrite decide_False in Hi' by lia. destruct Hi' as [Hant Hcell].
    replace i with (Z.of_nat (Z.to_nat i)) in Hb by lia.
    eapply placeAnt_spec in Hb; [|exact Hs|exact Hant|exact Hcell].
    destruct Hb as [Hn Hb]. rewrite iter_advance in Hb. simpl in Hb.
    eexists _, _. split; [|split; [|split; [|split; [done|split]]]].
    + rewrite Hb. replace (Z.to_nat (i + 1)) with (S (Z.to_nat i)) by lia.
      simpl. rewrite iter_advance. reflexivity.
    + by rewrite length_insert.
    + by rewrite length_insert.
    + intros l Hlt. rewrite list_lookup_insert_ne by (fold len0; lia).
      by apply Hold.
    + intros k Hk. destruct (Has k Hk) as (t' & Ht' & Hk'). exists t'.
      split; [done|].
      destruct (decide (k = Z.to_nat i)) as [->|Hne].
      * rewrite decide_True by lia.
        assert (t' = t) as -> by congruence. split.
        -- rewrite list_lookup_insert_eq by lia. reflexivity.
        -- rewrite list_lookup_insert_eq by (fold len0; lia). reflexivity.
      * rewrite !list_lookup_insert_ne by (fold len0; lia).
        destruct (decide (k < Z.to_nat i)%nat).
        -- rewrite decide_True by lia. done.
        -- rewrite decide_False by lia. done.
Qed.

(** ** The best tour *)

Lemma considerAnt_spec (ant : Ant) (rd rd' : RouteDiscovery) :
  considerAnt ant rd = Ok rd' →
  ((tourLength ant <? bestTourLength rd)%float = false ∧ rd' = rd)
  ∨ ((tourLength ant <? bestTourLength rd)%float = true
     ∧ rd' = set_best (Some (length (heap rd))) (tourLength ant)
               (set_heap (heap rd ++ [deref (heap rd) (trail ant)]) rd)).
Proof.
  unfold considerAnt, alloc. intros H.
  destruct (tourLength ant <? bestTourLength rd)%float.
  - right. split; [done|]. by injection H as <-.
  - left. split; [done|]. by injection H as <-.
Qed.

Lemma considerAnts_bettered (xs : list Ant) (rd rd' : RouteDiscovery) :
  for_each xs considerAnt rd = Ok rd' → bettered xs rd rd'.
Proof.
  apply (for_each_keeps (bettered xs rd)); [|by left].
  intros a t t' Ha Ht [[Hlt ->]|[Hlt ->]]%considerAnt_spec; [done|].
  right. destruct Ht as [->|(ant & h & Hant & Hlt' & ->)].
  - exists a, []. rewrite app_nil_r. done.
  - simpl in *. exists a, (h ++ [deref (heap rd ++ h) (trail ant)]).
    split; [done|]. split; [by eapply ltb_trans|].
    rewrite <- !app_assoc. reflexivity.
Qed.

Lemma adoptFirst_spec (rd rd' : RouteDiscovery) :
  adoptFirst rd = Ok rd' →
  match bestTourOrder rd with
  | Some _ => rd' = rd
  | None => ∃ ant, index (ants rd) 0 = Ok ant
                   ∧ rd' = set_best (Some (trail ant)) (tourLength ant) rd
  end.
Proof.
  unfold adoptFirst. destruct (bestTourOrder rd); intros H; inv_ok; eauto.
Qed.

(** [updateBest] writes the best tour and allocates; nothing else. *)
Lemma updateBest_frame (rd rd' : RouteDiscovery) :
  updateBest rd = Ok rd' →
  ∃ o len h, rd' = set_best o len (set_heap (heap rd ++ h) rd).
Proof.
  unfold updateBest. intros H. inv_ok.
  assert (∃ o len, x = set_best o len rd) as (o & len & ->).
  { match goal with H : adoptFirst _ = Ok _ |- _ =>
      apply adoptFirst_spec in H end.
    destruct (bestTourOrder rd) eqn:E.
    - subst x. exists (bestTourOrder rd), (bestTourLength rd). by destruct rd.
    - destruct H0 as (ant & _ & ->). eauto. }
  apply considerAnts_bettered in H as [->|(ant & h & _ & _ & ->)].
  - exists o, len, []. rewrite app_nil_r. by destruct rd.
  - simpl. eexists _, _, _. reflexivity.
Qed.

Lemma generateDistanceMatrix_frame (rd rd' : RouteDiscovery) :
  generateDistanceMatrix rd = Ok rd' → ∃ d, rd' = set_distances d rd.
Proof.
  unfold generateDistanceMatrix.
  apply (for_cells_keeps (fun t => ∃ d, t = set_distances d rd)).
  - intros i j t t' [d ->] Hb. inv_ok; subst t'; eauto.
  - exists (distances rd). by destruct rd.
Qed.

Lemma NewRouteDiscovery_steady (ts : list AllocatedTaskInfo) (r : Rand)
    (rd : RouteDiscovery) :
  NewRouteDiscovery ts r = Ok rd → steady rd.
Proof.
  unfold NewRouteDiscovery. intros H. inv_ok.
  match goal with H : generateDistanceMatrix _ = Ok _ |- _ =>
    apply generateDistanceMatrix_frame in H as [d ->] end.
  apply clearTrails_repainted in H as [[p ->] Hp]. simpl in Hp.
  split; [|by repeat split].
  apply Hp; [reflexivity|].
  apply Forall_replicate, Forall_replicate. reflexivity.
Qed.

Lemma setupAnts_steady (rd rd' : RouteDiscovery) :
  steady rd → setupAnts rd = Ok rd' → steady rd'.
Proof.
  intros (Hp & Hi & Hr & Hq & _)
         (as' & h & -> & Hl & _ & _ & _ & Has)%setupAnts_spec.
  split; [done|]. repeat (split; [done|]). simpl.
  apply Forall_lookup. intros k ant Hk.
  destruct (Has k) as (t & _ & Hk' & _).
  { apply lookup_lt_Some in Hk. lia. }
  rewrite Hk in Hk'. by injection Hk' as ->.
Qed.

Lemma clearTrails_steady (rd rd' : RouteDiscovery) :
  steady rd → clearTrails rd = Ok rd' → steady rd'.
Proof.
  intros (Hp & Hi & Hr & Hq & Ha) [[p ->] Hn]%clearTrails_repainted.
  split; [|by repeat split]. apply Hn; [|done]. rewrite Hi. reflexivity.
Qed.

Lemma moveAnts_steady Pow (rd rd' : RouteDiscovery) :
  steady rd → moveAnts Pow rd = Ok rd' → steady rd'.
Proof.
  intros (Hp & Hi & Hr & Hq & Ha)
    [(as' & h & g & ps & ci & -> & _ & Hc) _]%moveAnts_construction.
  split; [done|]. repeat (split; [done|]). simpl.
  assert (Forall (fun c : loc * Z * float * float * FacetsValue =>
            c.1.2 = 0%float) (antCore <$> as')) as H.
  { rewrite Hc. apply Forall_fmap. exact Ha. }
  apply Forall_fmap in H. exact H.
Qed.

Lemma updateTrails_steady (rd rd' : RouteDiscovery) :
  steady rd → updateTrails rd = Ok rd' → steady rd'.
Proof.
  intros (Hp & Hi & Hr & Hq & Ha) [[p ->] Hn]%updateTrails_repainted.
  split; [|by repeat split]. by apply Hn.
Qed.

Lemma updateBest_steady (rd rd' : RouteDiscovery) :
  steady rd → updateBest rd = Ok rd' → steady rd'.
Proof.
  intros Hs (o & len & h & ->)%updateBest_frame. exact Hs.
Qed.

Lemma iteration_steady Pow (rd rd' : RouteDiscovery) :
  steady rd → iteration Pow rd = Ok rd' → steady rd'.
Proof.
  unfold iteration. intros Hs H. inv_ok.
  eapply updateBest_steady; [|eauto].
  eapply updateTrails_steady; [|eauto].
  eapply moveAnts_steady; eauto.
Qed.

Lemma iterations_steady Pow (k : nat) (rd rd' : RouteDiscovery) :
  steady rd → iterations Pow k rd = Ok rd' → steady rd'.
Proof.
  intros Hs. apply (for_loop_keeps steady); [|done].
  intros _ t t'. apply iteration_steady.
Qed.

Lemma InitiateOptimization_optimizeFor Pow (rd rd' : RouteDiscovery) :
  InitiateOptimization Pow rd = Ok rd' ↔
  optimizeFor Pow (Z.to_nat (maxIterations rd)) rd = Ok rd'.
Proof.
  unfold InitiateOptimization, optimizeFor.
  destruct (setupAnts rd) as [rd1|] eqn:E1; [|done]. simpl.
  destruct (clearTrails rd1) as [rd2|] eqn:E2; [|done]. simpl.
  apply setupAnts_spec in E1 as (as' & h & -> & _).
  apply clearTrails_repainted in E2 as [[p ->] _]. reflexivity.
Qed.

Lemma optimizeFor_steady Pow (k : nat) (rd rd' : RouteDiscovery) :
  steady rd → optimizeFor Pow k rd = Ok rd' → steady rd'.
Proof.
  unfold optimizeFor. intros Hs H. inv_ok.
  eapply iterations_steady; [|eauto].
  eapply clearTrails_steady; [|eauto].
  eapply setupAnts_steady; eauto.
Qed.

Lemma reachable_steady Pow (rd : RouteDiscovery) :
  reachable Pow rd → steady rd.
Proof.
  induction 1 as [ts r rd H|k rd rd' _ IH H].
  - eapply NewRouteDiscovery_steady, H.
  - eapply optimizeFor_steady; eauto.
Qed.

(** C7: every pheromone entry is non-negative ([0 <= p] in binary64, so
    not NaN either) once the engine is built and after any number of
    passes of evaporation and reinforcement. *)
Theorem pheromones_stay_nonneg Pow (rd : RouteDiscovery) :
  reachable Pow rd → pheromones_nonneg rd.
Proof. intros H. by apply reachable_steady in H as [H _]. Qed.

Lemma no_worse_trans (a b c : float) :
  no_worse a b → no_worse b c → no_worse a c.
Proof.
  intros [->|Hab] [->|Hbc]; [by left|by right|by right|].
  right. by eapply ltb_trans.
Qed.

Lemma no_worse_not_greater (a b : float) :
  no_worse a b → (a <? b)%float = false.
Proof. intros [->|H]; [apply ltb_irrefl | by apply ltb_asym]. Qed.

Lemma updateBest_recorded (rd rd' : RouteDiscovery) (l0 : loc) :
  bestTourOrder rd = Some l0 → updateBest rd = Ok rd' →
  rd' = rd
  ∨ ∃ ant l,
      ant ∈ ants rd
      ∧ (tourLength ant <? bestTourLength rd)%float = true
      ∧ bestTourLength rd' = tourLength ant
      ∧ bestTourOrder rd' = Some l
      ∧ (length (heap rd) ≤ l)%nat
      ∧ (∀ l', (l' < length (heap rd))%nat → heap rd' !! l' = heap rd !! l')
      ∧ ((trail ant < length (heap rd))%nat →
         heap rd' !! l = Some (deref (heap rd) (trail ant))).
Proof.
  intros Hsome H. unfold updateBest in H. inv_ok.
  match goal with H : adoptFirst _ = Ok _ |- _ =>
    apply adoptFirst_spec in H; rewrite Hsome in H; subst x end.
  apply considerAnts_bettered in H as [->|(ant & h & Hant & Hlt & ->)];
    [by left|].
  right. exists ant, (length (heap rd ++ h)). simpl.
  split; [done|]. split; [done|]. split; [done|]. split; [done|].
  split; [rewrite length_app; lia|]. split.
  - intros l' Hl'. by rewrite lookup_app_l.
  - intros Hv. rewrite app_assoc, lookup_app_r by done.
    rewrite Nat.sub_diag. simpl. f_equal. unfold deref.
    apply list_lookup_total_correct.
    destruct (lookup_lt_is_Some_2 (heap rd) (trail ant) Hv) as [t Ht].
    rewrite lookup_app_l by done. rewrite Ht. f_equal.
    symmetry. by apply list_lookup_total_correct.
Qed.

Lemma updateBest_first (rd rd' : RouteDiscovery) :
  bestTourOrder rd = None → updateBest rd = Ok rd' →
  ∃ ant, index (ants rd) 0 = Ok ant
    ∧ updateBest (set_best (Some (trail ant)) (tourLength ant) rd) = Ok rd'.
Proof.
  intros Hnone H. unfold updateBest in *. inv_ok.
  match goal with H : adoptFirst _ = Ok _ |- _ =>
    apply adoptFirst_spec in H; rewrite Hnone in H;
    destruct H as (ant & Hant & ->) end.
  exists ant. split; [done|]. exact H.
Qed.

Lemma updateBest_cost (rd rd' : RouteDiscovery) :
  is_Some (bestTourOrder rd) → updateBest rd = Ok rd' →
  is_Some (bestTourOrder rd')
  ∧ no_worse (bestTourLength rd) (bestTourLength rd').
Proof.
  intros [l0 Hl0] H.
  destruct (updateBest_recorded _ _ _ Hl0 H)
    as [->|(ant & l & _ & Hlt & -> & -> & _)].
  - split; [by eexists | by left].
  - split; [by eexists | by right].
Qed.

Lemma iteration_cost Pow (rd rd' : RouteDiscovery) :
  is_Some (bestTourOrder rd) → iteration Pow rd = Ok rd' →
  is_Some (bestTourOrder rd')
  ∧ no_worse (bestTourLength rd) (bestTourLength rd').
Proof.
  unfold iteration. intros Hs H. inv_ok.
  match goal with H : moveAnts _ _ = Ok _ |- _ =>
    apply moveAnts_construction in H as [(as' & h & g & ps & ci & -> & _) _] end.
  match goal with H : updateTrails _ = Ok _ |- _ =>
    apply updateTrails_repainted in H as [[p ->] _] end.
  apply updateBest_cost in H; [exact H | exact Hs].
Qed.

Lemma iterations_cost Pow (k : nat) (rd rd' : RouteDiscovery) :
  is_Some (bestTourOrder rd) → iterations Pow k rd = Ok rd' →
  is_Some (bestTourOrder rd')
  ∧ no_worse (bestTourLength rd) (bestTourLength rd').
Proof.
  intros Hs. apply (for_loop_keeps (fun t =>
    is_Some (bestTourOrder t)
    ∧ no_worse (bestTourLength rd) (bestTourLength t))).
  - intros _ t t' [Ht Hw] [Ht' Hw']%iteration_cost; [|done].
    split; [done|]. by eapply no_worse_trans.
  - split; [done | by left].
Qed.

Lemma updateBest_adopts (rd rd' : RouteDiscovery) :
  bestTourOrder rd = None → updateBest rd = Ok rd' →
  ∃ ant rd1,
    index (ants rd) 0 = Ok ant
    ∧ adopted ant rd rd1
    ∧ updateBest rd1 = Ok rd'.
Proof.
  intros Hnone H.
  destruct (updateBest_first _ _ Hnone H) as (ant & Hant & Hrun).
  exists ant, (set_best (Some (trail ant)) (tourLength ant) rd).
  split; [done|]. split; [|done].
  exists (trail ant), []. rewrite app_nil_r. split; [by destruct rd | done].
Qed.

(** C8 (as amended). Once a best tour is recorded, [updateBest] either
    leaves the engine as it is or replaces the tour because some ant is
    strictly shorter than the recorded cost, and then by a copy in a slice
    allocated by this call; over any number of iterations the recorded
    cost never increases. When no tour is recorded yet, [updateBest]
    first records the tour and the tour length of ant 0, whatever they
    are, and goes on as on a recorded tour. *)
Theorem best_tour_update Pow :
  (∀ rd rd' l0,
     bestTourOrder rd = Some l0 → updateBest rd = Ok rd' →
     rd' = rd
     ∨ ∃ ant l,
         ant ∈ ants rd
         ∧ (tourLength ant <? bestTourLength rd)%float = true
         ∧ bestTourLength rd' = tourLength ant
         ∧ bestTourOrder rd' = Some l
         ∧ (length (heap rd) ≤ l)%nat
         ∧ (∀ l', (l' < length (heap rd))%nat →
                  heap rd' !! l' = heap rd !! l')
         ∧ ((trail ant < length (heap rd))%nat →
            heap rd' !! l = Some (deref (heap rd) (trail ant))))
  ∧ (∀ k rd rd',
       is_Some (bestTourOrder rd) → iterations Pow k rd = Ok rd' →
       is_Some (bestTourOrder rd')
       ∧ (bestTourLength rd <? bestTourLength rd')%float = false)
  ∧ (∀ rd rd',
       bestTourOrder rd = None → updateBest rd = Ok rd' →
       ∃ ant rd1,
         index (ants rd) 0 = Ok ant
         ∧ adopted ant rd rd1
         ∧ updateBest rd1 = Ok rd').
Proof.
  split; [exact updateBest_recorded|]. split; [|exact updateBest_adopts].
  intros k rd rd' Hs [Hs' Hw]%iterations_cost; [|done].
  split; [done|]. by apply no_worse_not_greater.
Qed.

(** ** The population over a run *)

Lemma for_loop_from {St} (f : St → result St) (k : nat) (a b : Z) (s : St) :
  for_loop k a (fun _ => f) s = for_loop k b (fun _ => f) s.
Proof.
  revert a b s. induction k as [|k IH]; intros a b s; [done|].
  simpl. destruct (f s); simpl; [apply IH | done].
Qed.

Lemma settled_refl (rd : RouteDiscovery) : settled rd rd.
Proof. repeat split. exists []. by rewrite app_nil_r. Qed.

Lemma settled_trans (a b c : RouteDiscovery) :
  settled a b → settled b c → settled a c.
Proof.
  intros (?&?&?&?&h&Hh) (?&?&?&?&h'&Hh').
  repeat split; try congruence.
  exists (h ++ h'). rewrite Hh', Hh. by rewrite app_assoc.
Qed.

Lemma iteration_settled Pow (rd rd' : RouteDiscovery) :
  numberOfCities rd - 1 ≤ currentIndex rd →
  iteration Pow rd = Ok rd' → settled rd rd'.
Proof.
  intros Hci H. unfold iteration in H. rewrite moveAnts_done in H by done.
  simpl in H. inv_ok.
  match goal with H : updateTrails _ = Ok _ |- _ =>
    apply updateTrails_repainted in H as [[p ->] _] end.
  apply updateBest_frame in H as (o & len & h & ->).
  repeat split. by exists h.
Qed.

Lemma iterations_settled Pow (k : nat) (rd rd' : RouteDiscovery) :
  numberOfCities rd - 1 ≤ currentIndex rd →
  iterations Pow k rd = Ok rd' → settled rd rd'.
Proof.
  intros Hci. apply (for_loop_keeps (settled rd)); [|apply settled_refl].
  intros _ t t' Ht Hb. eapply settled_trans; [exact Ht|].
  eapply iteration_settled; [|exact Hb].
  destruct Ht as (_ & _ & -> & -> & _). exact Hci.
Qed.

Lemma iteration_currentIndex Pow (rd rd' : RouteDiscovery) :
  iteration Pow rd = Ok rd' →
  numberOfCities rd' = numberOfCities rd
  ∧ currentIndex rd'
    = currentIndex rd
      + Z.of_nat (Z.to_nat (numberOfCities rd - 1 - currentIndex rd)).
Proof.
  unfold iteration. intros H. inv_ok.
  match goal with H : moveAnts _ _ = Ok _ |- _ =>
    apply moveAnts_construction in H
      as [(as' & h & g & ps & ci & -> & _) Hci] end.
  match goal with H : updateTrails _ = Ok _ |- _ =>
    apply updateTrails_repainted in H as [[p ->] _] end.
  apply updateBest_frame in H as (o & len & h' & ->).
  simpl in *. done.
Qed.

(** ** Next-city selection *)

Lemma index_total `{Inhabited A} (s : list A) (i : Z) (x : A) :
  index s i = Ok x → s !!! Z.to_nat i = x.
Proof. intros [_ Hx]%index_Ok. by apply list_lookup_total_correct. Qed.

Lemma explore_spec (vs : list bool) (t : Z) (k : nat) (i : Z)
    (found : option Z) :
  0 ≤ i → explore vs t k i = Ok found →
  match found with
  | Some c => c = t ∧ i ≤ t < i + Z.of_nat k ∧ vs !!! Z.to_nat t = false
  | None => ¬ (i ≤ t < i + Z.of_nat k) ∨ vs !!! Z.to_nat t = true
  end.
Proof.
  revert i. induction k as [|k IH]; intros i Hi H; simpl in H.
  - injection H as <-. left. lia.
  - destruct (Z.eqb_spec i t) as [->|Hne].
    + inv_ok;
        match goal with H : index _ _ = Ok _ |- _ =>
          apply index_total in H; rename H into Hv end;
        match goal with H : negb _ = _ |- _ => rename H into Hneg end.
      * subst found. split; [done|]. split; [lia|].
        rewrite Hv. by destruct x.
      * apply IH in H; [|lia]. destruct found as [c|].
        -- destruct H as (_ & ? & _). lia.
        -- right. rewrite Hv. by destruct x.
    + apply IH in H; [|lia]. destruct found as [c|].
      * destruct H as (? & ? & ?). split; [done|]. split; [lia|done].
      * destruct H as [H|H]; [left; lia | by right].
Qed.

Lemma roulette_spec (ps : list float) (r total : float) (k : nat) (i c : Z) :
  0 ≤ i → total = prefixSum ps (Z.to_nat i) →
  roulette ps r total k i = Ok c →
  i ≤ c < i + Z.of_nat k
  ∧ (r <=? prefixSum ps (S (Z.to_nat c)))%float = true
  ∧ ∀ j, i ≤ j < c → (r <=? prefixSum ps (S (Z.to_nat j)))%float = false.
Proof.
  revert i total. induction k as [|k IH]; intros i total Hi Ht H;
    simpl in H; [done|].
  apply bind_Ok in H as (p & Hp & H). apply index_total in Hp.
  assert ((total + p)%float = prefixSum ps (S (Z.to_nat i))) as Hsum.
  { simpl. by rewrite Ht, Hp. }
  rewrite Hsum in H.
  destruct (r <=? prefixSum ps (S (Z.to_nat i)))%float eqn:E.
  - injection H as <-. split; [lia|]. split; [done|]. lia.
  - apply IH in H; [|lia|].
    + destruct H as (Hc & Hle & Hbefore). split; [lia|]. split; [done|].
      intros j Hj. destruct (decide (j = i)) as [->|Hne]; [done|].
      apply Hbefore. lia.
    + by replace (Z.to_nat (i + 1)) with (S (Z.to_nat i)) by lia.
Qed.

Lemma weightSum_loop Pow (rd : RouteDiscovery) (ant : Ant) (i : Z)
    (total : float) :
  for_range (numberOfCities rd)
    (fun l (pheromone : float) =>
       v ← index (visited ant) l;
       if negb v then
         x ← desirability Pow rd ant i l; Ok (pheromone + x)%float
       else Ok pheromone) 0%float = Ok total →
  total = weightSum Pow rd ant i (Z.to_nat (numberOfCities rd)).
Proof.
  intros H. unfold for_range in H.
  apply (for_loop_inv
    (fun l acc => acc = weightSum Pow rd ant i (Z.to_nat l))) in H.
  - by rewrite Z.add_0_l, Nat2Z.id in H.
  - reflexivity.
  - intros l acc acc' Hl -> Hb.
    replace (Z.to_nat (l + 1)) with (S (Z.to_nat l)) by lia. simpl.
    rewrite Z2Nat.id by lia.
    apply bind_Ok in Hb as (v & Hv & Hb). apply index_total in Hv.
    rewrite Hv. destruct v; simpl in Hb.
    + by injection Hb as <-.
    + apply bind_Ok in Hb as (x & Hx & Hb). injection Hb as <-.
      unfold weight. by rewrite Hx.
Qed.

Lemma calculateProbabilities_spec Pow (rd rd' : RouteDiscovery) (ant : Ant) :
  calculateProbabilities Pow rd ant = Ok rd' →
  ∃ i ps,
    index (deref (heap rd) (trail ant)) (currentIndex rd) = Ok i
    ∧ rd' = set_probabilities ps rd
    ∧ ∀ j, 0 ≤ j < numberOfCities rd →
        index ps j
        = Ok (if (visited ant !!! Z.to_nat j : bool) then 0%float
              else (weight Pow rd ant i j
                    / weightSum Pow rd ant i
                        (Z.to_nat (numberOfCities rd)))%float).
Proof.
  unfold calculateProbabilities. intros H.
  apply bind_Ok in H as (i & Hi & H). apply bind_Ok in H as (total & Ht & H).
  apply weightSum_loop in Ht. subst total.
  set (total := weightSum Pow rd ant i (Z.to_nat (numberOfCities rd))) in *.
  exists i. unfold for_range in H.
  apply (for_loop_inv (fun j t =>
    ∃ ps, t = set_probabilities ps rd
      ∧ ∀ k, 0 ≤ k < j →
          index ps k
          = Ok (if (visited ant !!! Z.to_nat k : bool) then 0%float
                else (weight Pow rd ant i k / total)%float))) in H.
  - destruct H as (ps & -> & Hps). exists ps. split; [done|].
    split; [done|]. intros j Hj. apply Hps. lia.
  - exists (probabilities rd). split; [by destruct rd|]. lia.
  - intros j t t' Hj (ps & -> & Hps) Hb. simpl in Hb.
    apply bind_Ok in Hb as (v & Hv & Hb). apply index_total in Hv.
    assert (∃ ps', t' = set_probabilities ps' rd
      ∧ store ps j (if v then 0%float
                    else (weight Pow rd ant i j / total)%float) = Ok ps')
      as (ps' & -> & Hst).
    { destruct v; inv_ok; subst t'.
      - eexists. split; [reflexivity|]. done.
      - eexists. split; [reflexivity|].
        match goal with H : desirability _ _ _ _ _ = Ok _ |- _ =>
          change (desirability Pow rd ant i j = Ok x) in H;
          unfold weight; rewrite H end. done. }
    exists ps'. split; [done|]. intros k Hk.
    rewrite (index_store _ _ _ k _ Hst). case_decide as E.
    + subst k. by rewrite Hv.
    + apply Hps. lia.
Qed.

Lemma weightSum_set_random Pow (g : Rand) (rd : RouteDiscovery) (ant : Ant)
    (i : Z) (k : nat) :
  weightSum Pow (set_random g rd) ant i k = weightSum Pow rd ant i k.
Proof. induction k as [|k IH]; simpl; [done|]. by rewrite IH. Qed.

Lemma spin_spec Pow (rd rd' : RouteDiscovery) (ant : Ant) (city : Z) :
  spin Pow rd ant = Ok (city, rd') →
  ∃ i ps,
    index (deref (heap rd) (trail ant)) (currentIndex rd) = Ok i
    ∧ rd' = set_random (advance (random rd)) (set_probabilities ps rd)
    ∧ (∀ j, 0 ≤ j < numberOfCities rd →
         index ps j
         = Ok (if (visited ant !!! Z.to_nat j : bool) then 0%float
               else (weight Pow rd ant i j
                     / weightSum Pow rd ant i
                         (Z.to_nat (numberOfCities rd)))%float))
    ∧ 0 ≤ city < numberOfCities rd
    ∧ (units (random rd) (drawn (random rd))
         <=? prefixSum ps (S (Z.to_nat city)))%float = true
    ∧ ∀ j, 0 ≤ j < city →
        (units (random rd) (drawn (random rd))
           <=? prefixSum ps (S (Z.to_nat j)))%float = false.
Proof.
  unfold spin. intros H. apply bind_Ok in H as (rd1 & Hcalc & H).
  apply calculateProbabilities_spec in Hcalc as (i & ps & Hi & -> & Hps).
  unfold Float64 in H. simpl in H.
  apply bind_Ok in H as (c & Hroul & H). injection H as -> <-.
  apply roulette_spec in Hroul; [|lia|done].
  destruct Hroul as (Hc & Hle & Hbefore).
  exists i, ps. split; [done|]. split; [reflexivity|]. split; [done|].
  split; [lia|]. split; [done|]. exact Hbefore.
Qed.

(** C10 (as amended). [selectNextCity] draws an index below
    [numberOfCities - currentIndex] and an exploration number. When that
    number is below [randomFactor] and the city of that index is
    unvisited, that city is returned. In every other case, an explored
    index that is already visited included, the desirabilities of the
    unvisited cities are normalised by their sum, visited cities get
    probability zero, and the city returned is the first whose running
    total reaches a third draw. *)
Theorem next_city_selection Pow (rd rd' : RouteDiscovery) (ant : Ant)
    (city : Z) :
  selectNextCity Pow rd ant = Ok (city, rd') →
  if explores rd ant then
    city = exploreIndex rd
    ∧ rd' = set_random (advance (advance (random rd))) rd
  else
    ∃ i ps,
      index (deref (heap rd) (trail ant)) (currentIndex rd) = Ok i
      ∧ rd' = set_random (advance (advance (advance (random rd))))
                (set_probabilities ps rd)
      ∧ (∀ j, 0 ≤ j < numberOfCities rd →
           index ps j
           = Ok (if (visited ant !!! Z.to_nat j : bool) then 0%float
                 else (weight Pow rd ant i j
                       / weightSum Pow rd ant i
                           (Z.to_nat (numberOfCities rd)))%float))
      ∧ 0 ≤ city < numberOfCities rd
      ∧ (rouletteDraw rd <=? prefixSum ps (S (Z.to_nat city)))%float = true
      ∧ ∀ j, 0 ≤ j < city →
          (rouletteDraw rd <=? prefixSum ps (S (Z.to_nat j)))%float = false.
Proof.
  unfold selectNextCity, Intn, Float64. intros H.
  destruct (numberOfCities rd - currentIndex rd <=? 0) eqn:En; [done|].
  simpl in H. fold (exploreIndex rd) in H. fold (exploreDraw rd) in H.
  assert (∀ rd1, spin Pow (set_random (advance (advance (random rd))) rd) ant
            = Ok (city, rd1) → explores rd ant = false →
          if explores rd ant then
            city = exploreIndex rd
            ∧ rd1 = set_random (advance (advance (random rd))) rd
          else
            ∃ i ps,
              index (deref (heap rd) (trail ant)) (currentIndex rd) = Ok i
              ∧ rd1 = set_random (advance (advance (advance (random rd))))
                        (set_probabilities ps rd)
              ∧ (∀ j, 0 ≤ j < numberOfCities rd →
                   index ps j
                   = Ok (if (visited ant !!! Z.to_nat j : bool) then 0%float
                         else (weight Pow rd ant i j
                               / weightSum Pow rd ant i
                                   (Z.to_nat (numberOfCities rd)))%float))
              ∧ 0 ≤ city < numberOfCities rd
              ∧ (rouletteDraw rd
                   <=? prefixSum ps (S (Z.to_nat city)))%float = true
              ∧ ∀ j, 0 ≤ j < city →
                  (rouletteDraw rd
                     <=? prefixSum ps (S (Z.to_nat j)))%float = false)
    as Hspin.
  { intros rd1 (i & ps & Hi & -> & Hps & Hc & Hle & Hbefore)%spin_spec ->.
    exists i, ps. simpl in *. split; [done|]. split; [reflexivity|].
    split; [|done].
    intros j Hj. rewrite (Hps j Hj), weightSum_set_random. reflexivity. }
  destruct (exploreDraw rd <? randomFactor rd)%float eqn:Eu; simpl in H.
  - apply bind_Ok in H as (found & Hf & H).
    apply explore_spec in Hf; [|lia]. simpl in Hf.
    destruct found as [c|].
    + injection H as <- <-. destruct Hf as (-> & Hr & Hv).
      assert (explores rd ant = true) as ->; [|done].
      unfold explores. rewrite Eu, Hv.
      destruct (Z.ltb_spec (exploreIndex rd) (numberOfCities rd)); [done|lia].
    + apply Hspin in H; [exact H|].
      unfold explores. rewrite Eu. simpl. destruct Hf as [Hf|Hf].
      * destruct (Z.ltb_spec (exploreIndex rd) (numberOfCities rd));
          [|done].
        exfalso. apply Hf. split; [|lia]. apply Z.mod_pos_bound. lia.
      * rewrite Hf. by rewrite andb_false_r.
  - apply Hspin in H; [exact H|]. unfold explores. by rewrite Eu.
Qed.

(** ** Tours under positive draws *)

Lemma positive_not_below_zero (r : float) :
  (0 <? r)%float = true → (r <=? 0)%float = false.
Proof.
  rewrite ltb_spec, leb_spec.
  replace (Prim2SF 0) with (S754_zero false) by reflexivity.
  unfold SFltb, SFleb.
  destruct (Prim2SF r) as [s|s| |s m e]; simpl; try done; by destruct s.
Qed.

Lemma leb_add_zero (r x : float) : (r <=? x + 0)%float = (r <=? x)%float.
Proof.
  rewrite !leb_spec, add_spec.
  replace (Prim2SF 0) with (S754_zero false) by reflexivity.
  unfold SFleb.
  destruct (Prim2SF x) as [s|s| |s m e]; simpl; try done.
  destruct s; simpl; done.
Qed.

(** With a positive roulette draw the wheel cannot stop on a city of
    probability zero. *)
Lemma wheel_skips_zero (ps : list float) (r : float) (c : nat) :
  (0 <? r)%float = true →
  ps !!! c = 0%float →
  (∀ j, (j < c)%nat → (r <=? prefixSum ps (S j))%float = false) →
  (r <=? prefixSum ps (S c))%float = false.
Proof.
  intros Hr Hc Hbefore. simpl. rewrite Hc, leb_add_zero.
  destruct c as [|c]; simpl.
  - by apply positive_not_below_zero.
  - apply (Hbefore c). lia.
Qed.

Lemma selectNextCity_unvisited Pow (rd rd' : RouteDiscovery) (ant : Ant)
    (city : Z) :
  (0 <? rouletteDraw rd)%float = true →
  selectNextCity Pow rd ant = Ok (city, rd') →
  visited ant !!! Z.to_nat city = false
  ∧ ∃ k ps,
      rd' = set_random (Nat.iter k advance (random rd))
              (set_probabilities ps rd).
Proof.
  intros Hr H. unfold selectNextCity, Intn, Float64 in H.
  unfold rouletteDraw in Hr.
  destruct (numberOfCities rd - currentIndex rd <=? 0) eqn:En; [done|].
  simpl in H.
  assert (∀ rd1,
    spin Pow (set_random (advance (advance (random rd))) rd) ant
      = Ok (city, rd1) →
    visited ant !!! Z.to_nat city = false
    ∧ ∃ k ps, rd1 = set_random (Nat.iter k advance (random rd))
                      (set_probabilities ps rd)) as Hspin.
  { intros rd1 (i & ps & _ & -> & Hps & Hc & Hle & Hbefore)%spin_spec.
    simpl in *. split; [|by exists 3%nat, ps].
    destruct (visited ant !!! Z.to_nat city) eqn:Ev; [|done].
    exfalso. pose proof (Hps city Hc) as Hp. rewrite Ev in Hp.
    apply index_total in Hp.
    pose proof (wheel_skips_zero ps _ (Z.to_nat city) Hr Hp) as Hz.
    simpl in Hz. rewrite Hz in Hle; [done|].
    intros j Hj. replace j with (Z.to_nat (Z.of_nat j)) by lia.
    apply Hbefore. lia. }
  destruct (units (random rd) (S (drawn (random rd))) <? randomFactor rd)%float;
    simpl in H; [|by apply Hspin].
  apply bind_Ok in H as (found & Hf & H).
  apply explore_spec in Hf; [|lia]. destruct found as [c|]; [|by apply Hspin].
  injection H as <- <-. destruct Hf as (-> & _ & Hv).
  split; [done|]. exists 2%nat, (probabilities rd). by destruct rd.
Qed.

Lemma on_tour_step (n c : nat) (h : Heap) (ant : Ant) (city : Z)
    (tr' : list Z) (vs : list bool) :
  on_tour n c h ant →
  visited ant !!! Z.to_nat city = false →
  store (deref h (trail ant)) (Z.of_nat c + 1) city = Ok tr' →
  store (visited ant) city true = Ok vs →
  on_tour n (S c) (<[trail ant := tr']> h) (set_visited vs ant).
Proof.
  intros (Hlen & tr & Hh & Htr & Hnd & Hiff) Hfree Hst Hvs.
  unfold deref in Hst. rewrite (list_lookup_total_correct _ _ _ Hh) in Hst.
  apply store_Ok in Hst as (_ & Hc & ->).
  apply store_Ok in Hvs as (Hcity & Hcl & ->).
  replace (Z.to_nat (Z.of_nat c + 1)) with (S c) in * by lia.
  assert (take (S (S c)) (<[S c := city]> tr) = take (S c) tr ++ [city])
    as Htake.
  { rewrite (take_S_r _ (S c) city) by (by apply list_lookup_insert_eq).
    by rewrite take_insert_ge. }
  split; [simpl; by rewrite length_insert|].
  exists (<[S c := city]> tr). split.
  { apply list_lookup_insert_eq. by apply lookup_lt_Some in Hh. }
  split; [by rewrite length_insert|]. rewrite Htake. split.
  - apply NoDup_app. split; [done|]. split; [|apply NoDup_singleton].
    intros x Hx ->%list_elem_of_singleton. apply Hiff in Hx as [_ Hx].
    apply list_lookup_total_correct in Hx. congruence.
  - intros x. rewrite elem_of_app, list_elem_of_singleton, Hiff. simpl.
    split.
    + intros [[Hx Hv]| ->].
      * split; [done|]. destruct (decide (Z.to_nat x = Z.to_nat city)) as [E|E].
        -- rewrite E. by apply list_lookup_insert_eq.
        -- by rewrite list_lookup_insert_ne.
      * split; [done|]. by apply list_lookup_insert_eq.
    + intros [Hx Hv].
      destruct (decide (Z.to_nat x = Z.to_nat city)) as [E|E].
      * right. lia.
      * left. split; [done|]. by rewrite list_lookup_insert_ne in Hv.
Qed.

Lemma on_tour_other (n c : nat) (h : Heap) (ant : Ant) (l : loc)
    (v : list Z) :
  on_tour n c h ant → trail ant ≠ l → on_tour n c (<[l := v]> h) ant.
Proof.
  intros (Hlen & tr & Hh & Hrest) Hne. split; [done|]. exists tr.
  split; [|done]. by rewrite list_lookup_insert_ne.
Qed.

Lemma moveAnt_staged Pow (n c k : nat) (rd rd' : RouteDiscovery) :
  positive_draws (random rd) →
  currentIndex rd = Z.of_nat c →
  staged n c k (heap rd) (ants rd) →
  moveAnt Pow (Z.of_nat k) rd = Ok rd' →
  positive_draws (random rd')
  ∧ currentIndex rd' = Z.of_nat c
  ∧ numberOfCities rd' = numberOfCities rd
  ∧ length (ants rd') = length (ants rd)
  ∧ staged n c (S k) (heap rd') (ants rd').
Proof.
  intros Hpos Hci [Hnd Hall] H. unfold moveAnt in H. inv_ok.
  match goal with H : index _ _ = Ok ?a |- _ =>
    apply index_Ok in H as [_ Hant]; rewrite Nat2Z.id in Hant;
    rename a into ant end.
  match goal with H : selectNextCity _ _ _ = Ok _ |- _ =>
    apply selectNextCity_unvisited in H as (Hfree & steps & ps & ->);
    [|apply Hpos] end.
  match goal with H : visitCity _ _ _ _ = Ok _ |- _ =>
    apply visitCity_Ok in H as (tr' & vs & Htr & Hvs & -> & ->) end.
  match goal with H : store (ants _) _ _ = Ok _ |- _ =>
    apply store_Ok in H as (_ & _ & ->) end.
  subst rd'. simpl in *. rewrite Hci in Htr. rewrite Nat2Z.id.
  pose proof (Hall k ant Hant) as Hk. rewrite decide_False in Hk by lia.
  split. { intros j. rewrite iter_advance. simpl. apply Hpos. }
  split; [done|]. split; [done|]. split; [by rewrite length_insert|].
  split.
  - rewrite list_fmap_insert, list_insert_id; [done|].
    by rewrite list_lookup_fmap, Hant.
  - intros j a Hj. destruct (decide (j = k)) as [->|Hne].
    + rewrite list_lookup_insert_eq in Hj by (by apply lookup_lt_Some in Hant).
      injection Hj as <-. rewrite decide_True by lia.
      by eapply on_tour_step.
    + rewrite list_lookup_insert_ne in Hj by done.
      replace (if decide (j < S k)%nat then S c else c)
        with (if decide (j < k)%nat then S c else c)
        by (repeat case_decide; lia).
      apply on_tour_other; [by apply Hall|].
      intros Heq. apply Hne.
      eapply (NoDup_lookup _ _ _ _ Hnd); rewrite list_lookup_fmap.
      * by rewrite Hj.
      * rewrite Hant. simpl. by rewrite Heq.
Qed.

Lemma moveStep_staged Pow (n c : nat) (rd rd' : RouteDiscovery) :
  positive_draws (random rd) →
  currentIndex rd = Z.of_nat c →
  staged n c 0 (heap rd) (ants rd) →
  moveStep Pow rd = Ok rd' →
  positive_draws (random rd')
  ∧ currentIndex rd' = Z.of_nat (S c)
  ∧ numberOfCities rd' = numberOfCities rd
  ∧ staged n (S c) 0 (heap rd') (ants rd').
Proof.
  intros Hpos Hci Hst H. unfold moveStep in H. inv_ok. subst rd'. simpl.
  match goal with H : for_range _ _ _ = Ok _ |- _ =>
    unfold for_range in H; rewrite Nat2Z.id in H;
    apply (for_loop_inv (fun i t =>
      positive_draws (random t)
      ∧ currentIndex t = Z.of_nat c
      ∧ numberOfCities t = numberOfCities rd
      ∧ length (ants t) = length (ants rd)
      ∧ staged n c (Z.to_nat i) (heap t) (ants t))) in H;
    [destruct H as (Hpos' & Hci' & Hn' & Hlen' & Hnd' & Hall')| |] end.
  - split; [done|]. split; [lia|]. split; [done|]. split; [done|].
    intros j ant Hj. specialize (Hall' j ant Hj).
    rewrite decide_True in Hall' by (apply lookup_lt_Some in Hj; lia).
    by rewrite decide_False by lia.
  - split; [done|]. split; [done|]. split; [done|]. split; [done|].
    exact Hst.
  - intros i t t' Hi (Hp & Hc & Hn & Hl & Hs) Hb.
    replace i with (Z.of_nat (Z.to_nat i)) in Hb by lia.
    eapply moveAnt_staged in Hb as (Hp' & Hc' & Hn' & Hl' & Hs'); [|done..].
    replace (Z.to_nat (i + 1)) with (S (Z.to_nat i)) by lia.
    split; [done|]. split; [done|]. split; [congruence|].
    split; [congruence|]. exact Hs'.
Qed.

Lemma moveAnts_staged Pow (n c : nat) (rd rd' : RouteDiscovery) :
  positive_draws (random rd) →
  currentIndex rd = Z.of_nat c →
  staged n c 0 (heap rd) (ants rd) →
  moveAnts Pow rd = Ok rd' →
  staged n (Z.to_nat (currentIndex rd')) 0 (heap rd') (ants rd')
  ∧ currentIndex rd'
    = currentIndex rd
      + Z.of_nat (Z.to_nat (numberOfCities rd - 1 - currentIndex rd)).
Proof.
  intros Hpos Hci Hst H. unfold moveAnts in H.
  apply (for_loop_inv (fun i t =>
    0 ≤ i ∧ positive_draws (random t) ∧ currentIndex t = i
    ∧ staged n (Z.to_nat i) 0 (heap t) (ants t))) in H.
  - destruct H as (_ & _ & Hci' & Hst'). rewrite Hci'. done.
  - rewrite Hci, Nat2Z.id. split; [lia|]. done.
  - intros i t t' Hi (H0 & Hp & Hc & Hs) Hb.
    eapply (moveStep_staged _ n (Z.to_nat i)) in Hb
      as (Hp' & Hc' & _ & Hs'); [|done|lia|done].
    replace (Z.to_nat (i + 1)) with (S (Z.to_nat i)) by lia.
    split; [lia|]. split; [done|]. split; [lia|done].
Qed.

Lemma setupAnts_staged (rd rd' : RouteDiscovery) :
  setupAnts rd = Ok rd' →
  staged (Z.to_nat (numberOfCities rd)) 0 0 (heap rd') (ants rd')
  ∧ (ants rd' ≠ [] → 0 < numberOfCities rd).
Proof.
  intros (as' & h & -> & Hl & Hh & Hn & Hold & Has)%setupAnts_spec. simpl.
  set (n := Z.to_nat (numberOfCities rd)) in *.
  assert (∀ j ant, as' !! j = Some ant →
    0 < numberOfCities rd ∧ trail ant = (length (heap rd) + j)%nat
    ∧ ∃ t, ant = placedAnt rd j t
           ∧ h !! trail ant = Some (<[0%nat := startCity rd j]> (replicate n 0)))
    as Hant.
  { intros j ant Hj. pose proof (lookup_lt_Some _ _ _ Hj) as Hlt.
    destruct (Has j) as (t & _ & Hj' & Hcell); [lia|].
    rewrite Hj in Hj'. injection Hj' as ->.
    split; [apply Hn; lia|]. split; [done|]. exists t. done. }
  split; [split|].
  - apply NoDup_alt. intros i j l. rewrite !list_lookup_fmap.
    destruct (as' !! i) as [a|] eqn:Ei; [|done].
    destruct (as' !! j) as [b|] eqn:Ej; [|done]. simpl.
    destruct (Hant _ _ Ei) as (_ & Ha & _).
    destruct (Hant _ _ Ej) as (_ & Hb & _). intros [= <-] [= E]. lia.
  - intros j ant Hj. destruct (Hant _ _ Hj) as (Hpos & _ & t & -> & Hcell).
    rewrite decide_False by lia.
    assert (0 ≤ startCity rd j < numberOfCities rd) as Hcity
      by (apply Z.mod_pos_bound; lia).
    split; [simpl; by rewrite length_insert, length_replicate|].
    eexists. split; [exact Hcell|].
    split; [by rewrite length_insert, length_replicate|].
    assert (take 1 (<[0%nat := startCity rd j]> (replicate n 0))
            = [startCity rd j]) as ->.
    { destruct n as [|n'] eqn:En; [lia|]. reflexivity. }
    split; [apply NoDup_singleton|].
    intros city. rewrite list_elem_of_singleton. simpl. split.
    + intros ->. split; [lia|]. apply list_lookup_insert_eq.
      rewrite length_replicate. lia.
    + intros [Hc Hv].
      destruct (decide (Z.to_nat city = Z.to_nat (startCity rd j)));
        [lia|].
      rewrite list_lookup_insert_ne in Hv by done.
      apply lookup_replicate in Hv as [[=] _].
  - intros Hne. destruct as' as [|a as'']; [done|].
    by destruct (Hant 0%nat a) as (? & _).
Qed.

(** A trail of [n] distinct cities, all visited cities of an engine of
    [n] cities, is a permutation of the city indices. *)
Lemma on_tour_complete (n : nat) (h : Heap) (ant : Ant) :
  (0 < n)%nat → on_tour n (n - 1) h ant →
  deref h (trail ant) ≡ₚ seqZ 0 (Z.of_nat n).
Proof.
  intros Hn (Hlen & tr & Hh & Htr & Hnd & Hiff).
  unfold deref. rewrite (list_lookup_total_correct _ _ _ Hh).
  replace (S (n - 1)) with n in * by lia.
  rewrite take_ge in Hnd, Hiff by lia.
  apply submseteq_length_Permutation.
  - apply NoDup_submseteq; [done|]. intros x [Hx Hv]%Hiff.
    apply lookup_lt_Some in Hv. apply elem_of_seqZ. lia.
  - rewrite length_seqZ. lia.
Qed.

(** X5: when every unit draw of the generator is positive, so that no
    roulette draw is zero, construction visits every city once: after
    [setupAnts], [clearTrails] and the [moveAnts] of the first pass,
    every ant's trail is a permutation of the city indices. *)
Theorem tours_are_permutations_under_positive_draws Pow
    (rd rd1 rd2 rd3 : RouteDiscovery) (ant : Ant) :
  positive_draws (random rd) →
  setupAnts rd = Ok rd1 → clearTrails rd1 = Ok rd2 →
  moveAnts Pow rd2 = Ok rd3 →
  ant ∈ ants rd3 →
  deref (heap rd3) (trail ant) ≡ₚ seqZ 0 (numberOfCities rd).
Proof.
  intros Hpos Hsetup Hclear Hmove Hant.
  pose proof (setupAnts_staged _ _ Hsetup) as [Hst Hne].
  apply setupAnts_spec in Hsetup as (as' & h & -> & _).
  apply clearTrails_repainted in Hclear as [[p ->] _]. simpl in *.
  pose proof (moveAnts_construction _ _ _ Hmove)
    as [(as3 & h3 & g3 & ps3 & ci3 & Hrd3 & _ & Hcore) _].
  apply (moveAnts_staged _ (Z.to_nat (numberOfCities rd)) 0) in Hmove
    as [[_ Hall] Hci]; [| |done|done].
  2: { intros k. rewrite iter_advance. simpl. apply Hpos. }
  simpl in Hci, Hcore.
  apply list_elem_of_lookup in Hant as [j Hj].
  specialize (Hall j ant Hj). rewrite decide_False in Hall by lia.
  assert (0 < numberOfCities rd) as Hn.
  { apply Hne. intros ->. rewrite Hrd3 in Hj. simpl in Hj.
    apply (f_equal length) in Hcore. rewrite !length_fmap in Hcore.
    apply lookup_lt_Some in Hj. simpl in Hcore. lia. }
  set (n := Z.to_nat (numberOfCities rd)) in *.
  replace (Z.to_nat (currentIndex rd3)) with (n - 1)%nat in Hall by lia.
  replace (numberOfCities rd) with (Z.of_nat n) by lia.
  apply on_tour_complete; [lia | exact Hall].
Qed.

(** The same on three tasks and a generator whose unit draws are all one
    half. *)
Lemma tours_are_permutations_under_positive_draws_witness :
  ∃ rd0 rd,
    NewRouteDiscovery threeTasks halfRand = Ok rd0
    ∧ toured threeTasks halfRand = Ok rd
    ∧ ∀ ant, ant ∈ ants rd →
        deref (heap rd) (trail ant) ≡ₚ seqZ 0 (numberOfCities rd0).
Proof.
  eexists _, _. split; [run|]. split; [run|]. intros ant Hant.
  eapply (tours_are_permutations_under_positive_draws powInt);
    [intros k; reflexivity | run | run | run | exact Hant].
Defined.

(** ** The construction steps of a pass *)









(** ** The claims on concrete runs *)

(** C1: the code never computes a tour length. With latencies 2 and 1,
    when [updateTrails] and [updateBest] read the first ant its trail is
    0, 1 and its [tourLength] is still 0, while the sum of the costs
    along the closed tour, which [calculateTourLength] would store, is 3. *)
Theorem tour_length_is_never_computed :
  ∃ rd rd' ant ant',
    toured twoTasks halfRand = Ok rd
    ∧ index (ants rd) 0 = Ok ant
    ∧ deref (heap rd) (trail ant) = [0; 1]
    ∧ tourLength ant = 0%float
    ∧ calculateTourLength (heap rd) ant (distances rd) = Ok ant'
    ∧ tourLength ant' = 3%float
    ∧ trailed twoTasks halfRand = Ok rd'
    ∧ ants rd' = ants rd.
Proof.
  eexists _, _, _, _.
  split; [vm_compute; reflexivity|]. split; [vm_compute; reflexivity|].
  split; [vm_compute; reflexivity|]. split; [vm_compute; reflexivity|].
  split; [vm_compute; reflexivity|]. split; [vm_compute; reflexivity|].
  split; vm_compute; reflexivity.
Qed.

(** C6: a roulette draw of exactly 0 selects city 0 even when it is
    visited. With every draw zero both ants start on city 0 and move to
    city 0: the completed trail 0, 0 is not a permutation. *)
Theorem completed_trail_with_a_repeat :
  ∃ rd ant,
    toured twoTasks zeroRand = Ok rd
    ∧ index (ants rd) 0 = Ok ant
    ∧ Z.of_nat (length (deref (heap rd) (trail ant))) = numberOfCities rd
    ∧ deref (heap rd) (trail ant) = [0; 0]
    ∧ ¬ NoDup (deref (heap rd) (trail ant)).
Proof.
  eexists _, _.
  split; [vm_compute; reflexivity|]. split; [vm_compute; reflexivity|].
  split; [vm_compute; reflexivity|]. split; [vm_compute; reflexivity|].
  vm_compute. intros H. apply NoDup_cons in H as [H _]. apply H. by left.
Qed.



(** After three iterations over two tasks the matrix holds 1/8 and
    [+Inf]. *)
Lemma pheromones_stay_nonneg_witness :
  ∃ rd rd',
    NewRouteDiscovery twoTasks halfRand = Ok rd
    ∧ optimizeFor powInt 3 rd = Ok rd'
    ∧ pheromones rd' = [[0.125; infinity]; [infinity; 0.125]]%float
    ∧ pheromones_nonneg rd'.
Proof.
  eexists _, _. split; [run|]. split; [run|]. split; [run|].
  apply (pheromones_stay_nonneg powInt).
  eapply (reach_optimize powInt 3);
    [eapply (reach_new powInt twoTasks halfRand)|]; run.
Defined.

(** The recorded cost over the second and third iterations of a run. *)
Lemma best_tour_update_witness :
  ∃ rd0 rd1 rd2,
    NewRouteDiscovery twoTasks halfRand = Ok rd0
    ∧ optimizeFor powInt 1 rd0 = Ok rd1
    ∧ iterations powInt 2 rd1 = Ok rd2
    ∧ is_Some (bestTourOrder rd1)
    ∧ is_Some (bestTourOrder rd2)
    ∧ (bestTourLength rd1 <? bestTourLength rd2)%float = false.
Proof.
  eexists _, _, _. split; [run|]. split; [run|]. split; [run|].
  split; [eexists; run|].
  apply (proj1 (proj2 (best_tour_update powInt)) 2%nat); [eexists; run | run].
Defined.

(** The copying branch of [updateBest] on a state in which the first ant
    is alone and has been given the length of its tour, 3, against a
    recorded cost of 5: the best tour moves to a slice of its own with the
    same cities. *)
Lemma best_tour_copy_example :
  ∃ rd ant ant' rd',
    trailed twoTasks halfRand = Ok rd
    ∧ ants rd !! 0%nat = Some ant
    ∧ calculateTourLength (heap rd) ant (distances rd) = Ok ant'
    ∧ updateBest (set_best (Some 1%nat) 5%float
                    (set_ants [ant'] rd)) = Ok rd'
    ∧ bestTourLength rd' = 3%float
    ∧ bestTourOrder rd' = Some 2%nat
    ∧ trail ant' = 0%nat
    ∧ heap rd' = [[0; 1]; [0; 1]; [0; 1]].
Proof.
  eexists _, _, _, _. split; [run|]. split; [run|]. split; [run|].
  split; [run|]. split; [run|]. split; [run|]. split; run.
Qed.

(** C8, the claim as written, fails on the first [updateBest] of an
    engine: the best tour changes from none to the tour 0, 1 of the first
    ant, although no ant is strictly shorter than the recorded cost. *)
Lemma first_best_tour_needs_no_shorter_ant :
  ∃ rd rd' ant,
    trailed twoTasks halfRand = Ok rd
    ∧ updateBest rd = Ok rd'
    ∧ index (ants rd) 0 = Ok ant
    ∧ bestTourOrder rd = None
    ∧ bestTour rd = []
    ∧ deref (heap rd) (trail ant) = [0; 1]
    ∧ bestTour rd' = [0; 1]
    ∧ bestTourLength rd' = tourLength ant
    ∧ Forall (fun a => (tourLength a <? bestTourLength rd)%float = false)
        (ants rd).
Proof.
  eexists _, _, _. split; [run|]. split; [run|]. split; [run|].
  split; [run|]. split; [run|]. split; [run|]. split; [run|]. split; [run|].
  vm_compute. repeat constructor.
Qed.

(** The ranks of the best tour 0, 1, 2 of a run over three tasks. *)
Lemma priority_map_of_best_tour_witness :
  ∃ rd0 rd,
    NewRouteDiscovery threeTasks halfRand = Ok rd0
    ∧ optimizeFor powInt 1 rd0 = Ok rd
    ∧ bestTour rd = [0; 1; 2]
    ∧ size (getPriorityMap rd) = 3%nat
    ∧ getPriorityMap rd !! 0 = Some 1
    ∧ getPriorityMap rd !! 2 = Some 3.
Proof.
  eexists _, _. split; [run|]. split; [run|]. split; [run|].
  lazymatch goal with
  | |- size (getPriorityMap ?rd) = _ ∧ _ =>
      destruct (priority_map_of_best_tour rd 3) as (Hsize & Hpos & _)
  end.
  - apply (bool_decide_unpack _). vm_compute. exact I.
  - run.
  - split; [exact Hsize|]. split.
    + apply (Hpos 0%nat). run.
    + apply (Hpos 2%nat). run.
Defined.

(** C9: the keys of the map are the entries of the best tour, which are
    city indices, positions in the task list, and not the identifiers of
    the tasks. After a run over tasks 10, 20, 30 the best tour is 0, 1, 2
    and the map ranks the keys 0, 1, 2: no task identifier has a rank.
    After the same run over the identifiers 2, 0, 1 the first city of the
    best tour is city 0, the task of identifier 2, and the last is city
    2, the task of identifier 1; identifier 2 has rank 3 and identifier 1
    has rank 2, where the claim gives them 1 and 3. *)
Theorem priority_map_is_keyed_by_city_index :
  (∀ rd, dom (getPriorityMap rd) = list_to_set (bestTour rd))
  ∧ (∃ rd0 rd,
       NewRouteDiscovery threeTasks halfRand = Ok rd0
       ∧ optimizeFor powInt 1 rd0 = Ok rd
       ∧ TaskID <$> tasks rd = [10; 20; 30]
       ∧ bestTour rd = [0; 1; 2]
       ∧ getPriorityMap rd = {[0 := 1; 1 := 2; 2 := 3]}
       ∧ Forall (fun t => getPriorityMap rd !! TaskID t = None) (tasks rd))
  ∧ (∃ rd0 rd first last,
       NewRouteDiscovery shuffledTasks halfRand = Ok rd0
       ∧ optimizeFor powInt 1 rd0 = Ok rd
       ∧ TaskID <$> tasks rd = [2; 0; 1]
       ∧ bestTour rd = [0; 1; 2]
       ∧ tasks rd !! 0%nat = Some first ∧ TaskID first = 2
       ∧ tasks rd !! 2%nat = Some last ∧ TaskID last = 1
       ∧ getPriorityMap rd !! TaskID first = Some 3
       ∧ getPriorityMap rd !! TaskID last = Some 2).
Proof.
  split; [|split].
  - intros rd. rewrite getPriorityMap_rankFrom, rankFrom_dom.
    by rewrite dom_empty_L, (left_id_L ∅ (∪)).
  - eexists _, _. split; [run|]. split; [run|]. split; [run|].
    split; [run|]. split; [vm_compute; reflexivity|].
    vm_compute. repeat constructor.
  - eexists _, _, _, _. split; [run|]. split; [run|]. split; [run|].
    split; [run|]. split; [run|]. split; [run|]. split; [run|].
    split; [run|]. split; run.
Qed.

(** The first selection of a run over two tasks: no exploration, and
    the wheel stops on city 1. *)
Lemma next_city_selection_witness :
  ∃ rd ant city rd',
    started twoTasks halfRand = Ok rd
    ∧ index (ants rd) 0 = Ok ant
    ∧ selectNextCity powInt rd ant = Ok (city, rd')
    ∧ city = 1
    ∧ if explores rd ant then
        city = exploreIndex rd
        ∧ rd' = set_random (advance (advance (random rd))) rd
      else
        ∃ i ps,
          index (deref (heap rd) (trail ant)) (currentIndex rd) = Ok i
          ∧ rd' = set_random (advance (advance (advance (random rd))))
                    (set_probabilities ps rd)
          ∧ (∀ j, 0 ≤ j < numberOfCities rd →
               index ps j
               = Ok (if (visited ant !!! Z.to_nat j : bool) then 0%float
                     else (weight powInt rd ant i j
                           / weightSum powInt rd ant i
                               (Z.to_nat (numberOfCities rd)))%float))
          ∧ 0 ≤ city < numberOfCities rd
          ∧ (rouletteDraw rd
               <=? prefixSum ps (S (Z.to_nat city)))%float = true
          ∧ ∀ j, 0 ≤ j < city →
              (rouletteDraw rd
                 <=? prefixSum ps (S (Z.to_nat j)))%float = false.
Proof.
  eexists _, _, _, _. split; [run|]. split; [run|]. split; [run|].
  split; [run|].
  apply (next_city_selection powInt). run.
Defined.

(** C10, the claim as written, fails. Two engines that differ only in a
    later draw both draw an exploration number below [randomFactor] and
    the index 0 of a visited city; the next city is then decided by the
    roulette wheel: city 1 for a draw of 0.25, city 2 for 0.75. *)
Lemma exploring_a_visited_index_spins_the_wheel :
  ∃ rd1 rd2 ant rd1' rd2',
    started threeTasks (sixthRand 0.25) = Ok rd1
    ∧ started threeTasks (sixthRand 0.75) = Ok rd2
    ∧ index (ants rd1) 0 = Ok ant ∧ index (ants rd2) 0 = Ok ant
    ∧ visited ant = [true; false; false]
    ∧ (exploreDraw rd1 <? randomFactor rd1)%float = true
    ∧ (exploreDraw rd2 <? randomFactor rd2)%float = true
    ∧ exploreIndex rd1 = 0 ∧ exploreIndex rd2 = 0
    ∧ selectNextCity powInt rd1 ant = Ok (1, rd1')
    ∧ selectNextCity powInt rd2 ant = Ok (2, rd2')
    ∧ probabilities rd1' = [0; 0.5; 0.5]%float.
Proof.
  eexists _, _, _, _, _. split; [run|]. split; [run|]. split; [run|].
  split; [run|]. split; [run|]. split; [run|]. split; [run|].
  split; [run|]. split; [run|]. split; [run|]. split; run.
Qed.

(** * Further properties of the engine *)

(** ** Counting the cities *)

Lemma citySet_dom (ts : list AllocatedTaskInfo) (m : gmap Z bool) :
  dom (foldl (fun (citySet : gmap Z bool) task =>
                <[TaskID task := true]> citySet) m ts)
  = dom m ∪ list_to_set (TaskID <$> ts).
Proof.
  revert m. induction ts as [|t ts IH]; intros m; simpl.
  - set_solver.
  - rewrite IH, dom_insert_L. set_solver.
Qed.

Lemma remove_dups_length_le {A} `{EqDecision A} (l : list A) :
  (length (remove_dups l) ≤ length l)%nat.
Proof.
  induction l as [|x l IH]; simpl; [done|]. case_decide; simpl; lia.
Qed.

Lemma remove_dups_length_NoDup {A} `{EqDecision A} (l : list A) :
  length (remove_dups l) = length l ↔ NoDup l.
Proof.
  induction l as [|x l IH]; simpl.
  - split; [constructor|done].
  - pose proof (remove_dups_length_le l). case_decide as Hx; simpl.
    + split; [lia|]. intros [? _]%NoDup_cons. done.
    + rewrite NoDup_cons. split.
      * intros [= E]. split; [done|]. by apply IH.
      * intros [_ Hnd]. f_equal. by apply IH.
Qed.

Lemma size_list_to_set_remove_dups (l : list Z) :
  size (list_to_set l : gset Z) = length (remove_dups l).
Proof.
  rewrite <- (size_list_to_set (C := gset Z) (remove_dups l))
    by apply NoDup_remove_dups.
  f_equal. apply set_eq. intros x.
  by rewrite !elem_of_list_to_set, elem_of_remove_dups.
Qed.

(** X1: [getTotalCities] counts the distinct task identifiers: the
    length of the identifier list without its repeats. It equals the
    number of tasks exactly when no identifier repeats, and it is zero
    only for the empty task list. *)
Theorem getTotalCities_counts_distinct_ids (ts : list AllocatedTaskInfo) :
  getTotalCities ts = Z.of_nat (length (remove_dups (TaskID <$> ts)))
  ∧ (getTotalCities ts = Z.of_nat (length ts) ↔ NoDup (TaskID <$> ts))
  ∧ (getTotalCities ts = 0 ↔ ts = []).
Proof.
  assert (getTotalCities ts = Z.of_nat (length (remove_dups (TaskID <$> ts))))
    as Hn.
  { unfold getTotalCities. f_equal. rewrite <- size_dom, citySet_dom.
    rewrite dom_empty_L, (left_id_L ∅ (∪)).
    apply size_list_to_set_remove_dups. }
  split; [exact Hn|]. rewrite Hn. split.
  - rewrite <- remove_dups_length_NoDup, length_fmap. lia.
  - destruct ts as [|t ts]; [done|]. simpl. split; [|done].
    case_decide as Hx; simpl; [|lia].
    intros Hz. apply elem_of_remove_dups in Hx.
    assert (remove_dups (TaskID <$> ts) = []) as E
      by (apply nil_length_inv, Nat2Z.inj; exact Hz).
    change (TaskID t ∈ remove_dups (TaskID <$> ts)) in Hx.
    rewrite E in Hx. by apply elem_of_nil in Hx.
Qed.

(** ** The engine as constructed *)

Lemma square_const {A} (n : Z) (m : list (list A)) (x : A) :
  square n m →
  (∀ a b, 0 ≤ a < n → 0 ≤ b < n → index2 m a b = Ok x) →
  m = replicate (Z.to_nat n) (replicate (Z.to_nat n) x).
Proof.
  intros [Hlen Hrows] Hx. apply list_eq. intros a.
  destruct (decide (a < Z.to_nat n)%nat) as [Ha|Ha].
  - rewrite (lookup_replicate_2 _ _ _ Ha).
    destruct (lookup_lt_is_Some_2 m a) as [row Hrow]; [lia|].
    rewrite Hrow. f_equal. apply list_eq. intros b.
    pose proof (proj1 (Forall_lookup _ _) Hrows a row Hrow) as Hl.
    simpl in Hl.
    destruct (decide (b < Z.to_nat n)%nat) as [Hb|Hb].
    + rewrite (lookup_replicate_2 _ _ _ Hb).
      assert (index2 m (Z.of_nat a) (Z.of_nat b) = Ok x) as Hab
        by (apply Hx; lia).
      unfold index2 in Hab. apply bind_Ok in Hab as (row' & Hr & Hab).
      apply index_Ok in Hr as [_ Hr]. apply index_Ok in Hab as [_ Hab].
      rename Hab into Hx'.
      rewrite Nat2Z.id in Hr, Hx'. congruence.
    + rewrite !lookup_ge_None_2; [done| |]; rewrite ?length_replicate; lia.
  - rewrite !lookup_ge_None_2; [done| |]; rewrite ?length_replicate; lia.
Qed.

(** X2: [NewRouteDiscovery] never panics. For every task list and
    generator it returns an engine that keeps both, has as many ants as
    cities, the number of distinct identifiers, a pheromone matrix of
    that size filled with 1, a cost matrix of that size, as many zero
    probabilities, no ant and no best tour. *)
Theorem new_engine_never_panics (ts : list AllocatedTaskInfo) (r : Rand) :
  ∃ rd,
    NewRouteDiscovery ts r = Ok rd
    ∧ tasks rd = ts ∧ random rd = r
    ∧ numberOfCities rd = getTotalCities ts
    ∧ numberOfAnts rd = getTotalCities ts
    ∧ pheromones rd
      = replicate (Z.to_nat (getTotalCities ts))
          (replicate (Z.to_nat (getTotalCities ts)) 1%float)
    ∧ square (getTotalCities ts) (distances rd)
    ∧ probabilities rd = replicate (Z.to_nat (getTotalCities ts)) 0%float
    ∧ ants rd = [] ∧ bestTourOrder rd = None ∧ currentIndex rd = 0.
Proof.
  destruct (NewRouteDiscovery_spec ts r) as (p & d & Hrun & Hp & Hd & _ & Hph).
  exists (freshEngine ts r p d). split; [exact Hrun|]. simpl.
  repeat (split; [done|]). split; [|done].
  by apply square_const.
Qed.

(** ** Clearing an ant *)

Lemma for_loop_app {St} (a b : nat) (from : Z) (body : Z → St → result St)
    (s : St) :
  for_loop (a + b) from body s
  = s' ← for_loop a from body s; for_loop b (from + Z.of_nat a) body s'.
Proof.
  revert from s. induction a as [|a IH]; intros from s; simpl.
  - by rewrite Z.add_0_r.
  - destruct (body from s) as [s'|p]; simpl; [|done].
    rewrite IH.
    by replace (from + 1 + Z.of_nat a) with (from + Z.of_nat (S a)) by lia.
Qed.

Lemma clear_loop (ant : Ant) (k i : nat) (vs : list bool) :
  (i + k ≤ length vs)%nat →
  for_loop k (Z.of_nat i)
    (fun i a => vs ← store (visited a) i false; Ok (set_visited vs a))
    (set_visited vs ant)
  = Ok (set_visited (take i vs ++ replicate k false ++ drop (i + k) vs) ant).
Proof.
  revert i vs. induction k as [|k IH]; intros i vs Hlen; simpl.
  - by rewrite Nat.add_0_r, take_drop.
  - rewrite (store_in_range vs (Z.of_nat i) false) by lia. simpl.
    rewrite Nat2Z.id. replace (Z.of_nat i + 1) with (Z.of_nat (S i)) by lia.
    change (set_visited (<[i:=false]> vs) (set_visited vs ant))
      with (set_visited (<[i:=false]> vs) ant).
    rewrite IH by (rewrite length_insert; lia). do 2 f_equal.
    rewrite (take_S_r _ i false) by (apply list_lookup_insert_eq; lia).
    rewrite take_insert_ge by lia. rewrite <- app_assoc. simpl.
    rewrite drop_insert_lt by lia.
    by replace (S (i + k)) with (i + S k)%nat by lia.
Qed.

Lemma clear_prefix (ant : Ant) (k : nat) :
  (k ≤ length (visited ant))%nat →
  for_loop k 0
    (fun i a => vs ← store (visited a) i false; Ok (set_visited vs a)) ant
  = Ok (set_visited (replicate k false ++ drop k (visited ant)) ant).
Proof.
  intros Hk. pose proof (clear_loop ant k 0 (visited ant)) as H.
  simpl in H. replace (set_visited (visited ant) ant) with ant in H
    by (by destruct ant).
  apply H. lia.
Qed.

(** X3: [clear] sets the first [trailSize] flags of [visited] to false
    and leaves the later flags and every other field as they were; when
    [visited] holds fewer than [trailSize] flags it panics with an index
    out of range. *)
Theorem clear_resets_or_panics (ant : Ant) :
  clear ant
  = if decide (Z.to_nat (trailSize ant) ≤ length (visited ant))%nat
    then Ok (set_visited
               (replicate (Z.to_nat (trailSize ant)) false
                  ++ drop (Z.to_nat (trailSize ant)) (visited ant)) ant)
    else Panic IndexOutOfRange.
Proof.
  unfold clear, for_range. set (n := Z.to_nat (trailSize ant)).
  case_decide as Hn.
  - by apply clear_prefix.
  - replace n with (length (visited ant) + S (n - S (length (visited ant))))%nat
      by lia.
    rewrite for_loop_app, clear_prefix by lia. simpl.
    unfold store. simpl.
    rewrite lookup_ge_None_2; [by case_match|].
    rewrite length_app, length_replicate, length_drop. lia.
Qed.

(** ** Outcomes of calls and loops *)

Lemma within_bind {A B} (bad : panic → Prop) (P : A → Prop) (Q : B → Prop)
    (m : result A) (f : A → result B) :
  within bad P m → (∀ a, P a → within bad Q (f a)) →
  within bad Q (m ≫= f).
Proof. destruct m; simpl; auto. Qed.

Lemma within_weaken {A} (bad : panic → Prop) (P Q : A → Prop)
    (m : result A) :
  within bad P m → (∀ a, P a → Q a) → within bad Q m.
Proof. destruct m; simpl; auto. Qed.

Lemma within_relax {A} (bad bad' : panic → Prop) (Q : A → Prop)
    (m : result A) :
  within bad Q m → (∀ p, bad p → bad' p) → within bad' Q m.
Proof. destruct m; simpl; auto. Qed.

Lemma within_Ok {A} (Q : A → Prop) (m : result A) :
  within (fun _ => False) Q m ↔ ∃ a, m = Ok a ∧ Q a.
Proof.
  destruct m as [a|p]; simpl.
  - split; [by exists a | by intros (? & [= <-] & ?)].
  - split; [done | by intros (? & [=] & _)].
Qed.

Lemma for_loop_within {St} (bad : panic → Prop) (P : Z → St → Prop)
    (body : Z → St → result St) (k : nat) (from : Z) (s : St) :
  P from s →
  (∀ i t, from ≤ i < from + Z.of_nat k → P i t →
          within bad (P (i + 1)) (body i t)) →
  within bad (P (from + Z.of_nat k)) (for_loop k from body s).
Proof.
  revert from s. induction k as [|k IH]; intros from s H0 Hstep; simpl.
  - by replace (from + Z.of_nat 0) with from by lia.
  - eapply within_bind; [apply Hstep; [lia | exact H0]|].
    intros t Ht.
    replace (from + Z.of_nat (S k)) with (from + 1 + Z.of_nat k)
      by lia.
    apply IH; [done|]. intros i u Hi. apply Hstep. lia.
Qed.

Lemma for_range_within {St} (bad : panic → Prop) (P : Z → St → Prop)
    (body : Z → St → result St) (n : Z) (s : St) :
  0 ≤ n → P 0 s →
  (∀ i t, 0 ≤ i < n → P i t → within bad (P (i + 1)) (body i t)) →
  within bad (P n) (for_range n body s).
Proof.
  intros Hn H0 Hstep. unfold for_range.
  replace n with (0 + Z.of_nat (Z.to_nat n)) at 1 by lia.
  apply for_loop_within; [done|]. intros i t Hi. apply Hstep. lia.
Qed.

Lemma for_each_within {A St} (bad : panic → Prop) (P : St → Prop)
    (body : A → St → result St) (xs : list A) (s : St) :
  P s → (∀ x t, x ∈ xs → P t → within bad P (body x t)) →
  within bad P (for_each xs body s).
Proof.
  revert s. induction xs as [|x xs IH]; intros s H0 Hstep; simpl; [done|].
  eapply within_bind; [apply Hstep; [by left | exact H0]|].
  intros t Ht. apply IH; [done|]. intros y u Hy. apply Hstep. by right.
Qed.

(** ** Shapes *)

Lemma shaped_insert (n : nat) (h : Heap) (a : Ant) (l : loc) (tr' : list Z) :
  shaped n h a → length tr' = n → Forall (in_range n) tr' →
  shaped n (<[l := tr']> h) a.
Proof.
  intros (Hv & Hs & tr & Hh & Hl & Hf) Hl' Hf'. split; [done|]. split; [done|].
  destruct (decide (trail a = l)) as [<-|Hne].
  - exists tr'. split; [|done]. apply list_lookup_insert_eq.
    by apply lookup_lt_Some in Hh.
  - exists tr. by rewrite list_lookup_insert_ne.
Qed.

Lemma shaped_app (n : nat) (h h' : Heap) (a : Ant) :
  shaped n h a → shaped n (h ++ h') a.
Proof.
  intros (Hv & Hs & tr & Hh & Hl & Hf). split; [done|]. split; [done|].
  exists tr. split; [|done]. by apply lookup_app_l_Some.
Qed.

Lemma shaped_visited (n : nat) (h : Heap) (a : Ant) (vs : list bool) :
  shaped n h a → length vs = n → shaped n h (set_visited vs a).
Proof. intros (Hv & Hs & Htr) Hvs. done. Qed.

Lemma shaped_trail (n : nat) (h : Heap) (a : Ant) (i : Z) :
  shaped n h a → 0 ≤ i < Z.of_nat n →
  ∃ c, index (deref h (trail a)) i = Ok c ∧ in_range n c.
Proof.
  intros (_ & _ & tr & Hh & Hl & Hf) Hi. unfold deref.
  rewrite (list_lookup_total_correct _ _ _ Hh).
  destruct (index_in_range tr i) as [c Hc]; [lia|]. exists c.
  split; [done|]. apply index_Ok in Hc as [_ Hc].
  by eapply Forall_lookup_1 in Hf.
Qed.

Lemma sound_frame (rd rd' : RouteDiscovery) :
  sound rd →
  tasks rd' = tasks rd → numberOfCities rd' = numberOfCities rd →
  numberOfAnts rd' = numberOfAnts rd →
  square (numberOfCities rd) (pheromones rd') →
  distances rd' = distances rd →
  length (probabilities rd') = length (probabilities rd) →
  sound rd'.
Proof.
  intros (Hn & Ha & Hp & Hd & Hps) Ht Hn' Ha' Hp' Hd' Hps'. unfold sound.
  rewrite Ht, Hn', Ha', Hd', Hps'. done.
Qed.

Lemma populated_set_pheromones (rd : RouteDiscovery) (p : list (list float)) :
  populated rd → square (numberOfCities rd) p →
  populated (set_pheromones p rd).
Proof.
  intros ((Hn & Ha & _ & Hd & Hps) & Hrest) Hp. split; [|exact Hrest].
  split; [done|]. split; [done|]. split; [exact Hp|]. split; done.
Qed.

(** ** Selecting a city *)

Lemma desirability_total Pow (rd : RouteDiscovery) (ant : Ant) (i l : Z) :
  square (numberOfCities rd) (pheromones rd) →
  square (numberOfCities rd) (distances rd) →
  0 ≤ i < numberOfCities rd → 0 ≤ l < numberOfCities rd →
  ∃ x, desirability Pow rd ant i l = Ok x.
Proof.
  intros Hp Hd Hi Hl. unfold desirability.
  destruct (index2_in_range _ _ i l Hp) as [p ->]; [done..|].
  destruct (index2_in_range _ _ i l Hd) as [d ->]; [done..|].
  simpl. by eexists.
Qed.

Lemma calculateProbabilities_within Pow (bad : panic → Prop)
    (rd : RouteDiscovery) (ant : Ant) :
  sound rd →
  shaped (Z.to_nat (numberOfCities rd)) (heap rd) ant →
  0 ≤ currentIndex rd < numberOfCities rd →
  within bad
    (fun rd' => ∃ ps, rd' = set_probabilities ps rd
                      ∧ length ps = Z.to_nat (numberOfCities rd))
    (calculateProbabilities Pow rd ant).
Proof.
  intros (Hn & Ha & Hp & Hd & Hps) Hant Hci. unfold calculateProbabilities.
  destruct (shaped_trail _ _ _ (currentIndex rd) Hant) as (i & -> & Hi);
    [lia|]. simpl.
  destruct Hant as (Hv & _).
  eapply within_bind.
  { apply (for_range_within bad (fun _ _ => True)); [lia | done |].
    intros l acc Hl _.
    destruct (index_in_range (visited ant) l) as [v ->]; [lia|]. simpl.
    destruct v; simpl; [done|].
    destruct (desirability_total Pow rd ant i l) as [x ->]; try done.
    unfold in_range in Hi. lia. }
  intros total _.
  apply (for_range_within bad (fun _ t =>
    ∃ ps, t = set_probabilities ps rd
          ∧ length ps = Z.to_nat (numberOfCities rd))); [lia | |].
  { exists (probabilities rd). split; [by destruct rd | done]. }
  intros j t Hj (ps & -> & Hlen).
  destruct (index_in_range (visited ant) j) as [v ->]; [lia|]. simpl.
  destruct v; simpl.
  - rewrite store_in_range by lia. simpl. eexists. split; [reflexivity|].
    by rewrite length_insert.
  - destruct (desirability_total Pow (set_probabilities ps rd) ant i j)
      as [x ->]; try done.
    { unfold in_range in Hi. simpl. lia. }
    simpl. rewrite store_in_range by lia. simpl. eexists.
    split; [reflexivity|]. by rewrite length_insert.
Qed.

Lemma explore_total (vs : list bool) (t : Z) (k : nat) (i : Z) :
  0 ≤ i → (Z.to_nat i + k ≤ length vs)%nat →
  ∃ found, explore vs t k i = Ok found
           ∧ ∀ c, found = Some c → i ≤ c < i + Z.of_nat k.
Proof.
  revert i. induction k as [|k IH]; intros i Hi Hlen; simpl.
  - exists None. done.
  - destruct (IH (i + 1)) as (found & Hf & Hc); [lia | lia |].
    destruct (Z.eqb_spec i t) as [->|Hne].
    + destruct (index_in_range vs t) as [v ->]; [lia|]. simpl.
      destruct v; simpl.
      * exists found. split; [done|]. intros c Hs. specialize (Hc c Hs). lia.
      * exists (Some t). split; [done|]. intros c [= <-]. lia.
    + exists found. split; [done|]. intros c Hs. specialize (Hc c Hs). lia.
Qed.

Lemma roulette_within (bad : panic → Prop) (ps : list float)
    (r total : float) (k : nat) (i : Z) :
  bad NoOtherCities →
  0 ≤ i → (Z.to_nat i + k ≤ length ps)%nat →
  within bad (fun c => i ≤ c < i + Z.of_nat k) (roulette ps r total k i).
Proof.
  intros Hbad. revert i total. induction k as [|k IH]; intros i total Hi Hlen;
    simpl; [done|].
  destruct (index_in_range ps i) as [p ->]; [lia|]. simpl.
  destruct (r <=? total + p)%float; simpl; [lia|].
  eapply within_weaken; [apply IH; lia|]. intros c Hc. simpl in Hc. lia.
Qed.

(** What a selection leaves of the engine, and the city it gives. *)
Lemma spin_within Pow (bad : panic → Prop) (rd : RouteDiscovery) (ant : Ant) :
  bad NoOtherCities →
  sound rd →
  shaped (Z.to_nat (numberOfCities rd)) (heap rd) ant →
  0 ≤ currentIndex rd < numberOfCities rd →
  within bad
    (fun cr => 0 ≤ cr.1 < numberOfCities rd
               ∧ ∃ g ps, cr.2 = set_random g (set_probabilities ps rd)
                         ∧ length ps = Z.to_nat (numberOfCities rd))
    (spin Pow rd ant).
Proof.
  intros Hbad Hrd Hant Hci. unfold spin.
  eapply within_bind; [by apply calculateProbabilities_within|].
  intros rd1 (ps & -> & Hlen). simpl.
  eapply within_bind; [apply roulette_within; [done | lia | simpl; lia]|].
  intros c Hc. simpl in *. split; [lia|]. by eexists _, ps.
Qed.

Lemma selectNextCity_within Pow (bad : panic → Prop)
    (rd : RouteDiscovery) (ant : Ant) :
  bad NoOtherCities →
  sound rd →
  shaped (Z.to_nat (numberOfCities rd)) (heap rd) ant →
  0 ≤ currentIndex rd < numberOfCities rd →
  within bad
    (fun cr => 0 ≤ cr.1 < numberOfCities rd
               ∧ ∃ g ps, cr.2 = set_random g (set_probabilities ps rd)
                         ∧ length ps = Z.to_nat (numberOfCities rd))
    (selectNextCity Pow rd ant).
Proof.
  intros Hbad Hrd Hant Hci. unfold selectNextCity, Intn, Float64.
  destruct (Z.leb_spec (numberOfCities rd - currentIndex rd) 0); [lia|].
  simpl.
  assert (within bad
    (fun cr => 0 ≤ cr.1 < numberOfCities rd
               ∧ ∃ g ps, cr.2 = set_random g (set_probabilities ps rd)
                         ∧ length ps = Z.to_nat (numberOfCities rd))
    (spin Pow (set_random (advance (advance (random rd))) rd) ant)) as Hspin.
  { eapply within_weaken; [by apply spin_within|].
    intros [c rd1] (Hc & g & ps & Hrd1 & Hlen). simpl in *. split; [done|].
    exists g, ps. by subst rd1. }
  destruct (_ <? randomFactor rd)%float; simpl; [|exact Hspin].
  destruct Hant as (Hv & _).
  destruct (explore_total (visited ant)
              (ints (random rd) (drawn (random rd))
                 mod (numberOfCities rd - currentIndex rd))
              (Z.to_nat (numberOfCities rd)) 0) as (found & -> & Hf);
    [lia | lia |]. simpl.
  destruct found as [c|]; [|exact Hspin]. simpl.
  specialize (Hf c eq_refl). split; [lia|].
  exists (advance (advance (random rd))), (probabilities rd).
  split; [by destruct rd | apply Hrd].
Qed.

(** ** Moving the ants *)

Lemma moveAnt_within Pow (bad : panic → Prop) (k : Z)
    (rd : RouteDiscovery) :
  bad NoOtherCities →
  populated rd → 0 ≤ k < Z.of_nat (length (ants rd)) →
  currentIndex rd < numberOfCities rd - 1 →
  within bad
    (fun rd' => populated rd'
                ∧ currentIndex rd' = currentIndex rd
                ∧ numberOfCities rd' = numberOfCities rd)
    (moveAnt Pow k rd).
Proof.
  intros Hbad (Hrd & Hlen & Hall & Hci) Hk Hlt. unfold moveAnt.
  destruct (index_in_range (ants rd) k) as [ant Hant]; [done|].
  rewrite Hant. simpl. apply index_Ok in Hant as [_ Hant].
  pose proof (Forall_lookup_1 _ _ _ _ Hall Hant) as Hshape.
  eapply within_bind; [apply selectNextCity_within; try done; lia|].
  intros [city rd1] (Hcity & g & ps & Hrd1 & Hps). simpl in *. subst rd1.
  simpl. unfold visitCity. simpl.
  destruct Hshape as (Hv & Hs & tr & Hh & Hl & Hf).
  unfold deref. rewrite (list_lookup_total_correct _ _ _ Hh).
  rewrite store_in_range by lia. simpl.
  rewrite store_in_range by lia. simpl.
  rewrite store_in_range by lia. simpl.
  set (n := Z.to_nat (numberOfCities rd)) in *.
  assert (Forall (in_range n) (<[Z.to_nat (currentIndex rd + 1) := city]> tr))
    as Hf'.
  { apply Forall_insert; [done|]. unfold in_range. lia. }
  split; [|done]. split; [|split; [|split]]; simpl.
  - apply (sound_frame rd); try done; [apply Hrd|].
    simpl. destruct Hrd as (_ & _ & _ & _ & Hp). lia.
  - by rewrite length_insert.
  - apply Forall_insert.
    + eapply Forall_impl; [exact Hall|]. intros a Ha.
      apply shaped_insert; [done | by rewrite length_insert | done].
    + split; [simpl; by rewrite length_insert|]. split; [done|].
      exists (<[Z.to_nat (currentIndex rd + 1) := city]> tr). simpl.
      split; [|split; [by rewrite length_insert | done]].
      apply list_lookup_insert_eq. by apply lookup_lt_Some in Hh.
  - done.
Qed.

Lemma moveStep_within Pow (bad : panic → Prop) (rd : RouteDiscovery) :
  bad NoOtherCities →
  populated rd → currentIndex rd < numberOfCities rd - 1 →
  within bad
    (fun rd' => populated rd'
                ∧ currentIndex rd' = currentIndex rd + 1
                ∧ numberOfCities rd' = numberOfCities rd)
    (moveStep Pow rd).
Proof.
  intros Hbad Hrd Hlt. unfold moveStep.
  eapply within_bind.
  { apply (for_range_within bad (fun _ t =>
      populated t ∧ currentIndex t = currentIndex rd
      ∧ numberOfCities t = numberOfCities rd
      ∧ length (ants t) = length (ants rd))); [lia | done |].
    intros k t Hk (Ht & Hc & Hn & Hl).
    eapply within_weaken; [apply moveAnt_within; try done; lia|].
    intros t' (Ht' & Hc' & Hn'). split; [done|]. split; [congruence|].
    split; [congruence|].
    destruct Ht' as (_ & Hl' & _), Ht as (_ & Hl0 & _). congruence. }
  intros t (Ht & Hc & Hn & Hl). simpl. split; [|split; [lia | done]].
  destruct Ht as (Hs & Hl' & Hall & Hci). split; [|split; [|split]]; simpl.
  - apply (sound_frame t); try done. apply Hs.
  - done.
  - done.
  - lia.
Qed.

Lemma moveAnts_within Pow (bad : panic → Prop) (rd : RouteDiscovery) :
  bad NoOtherCities →
  populated rd →
  within bad
    (fun rd' => populated rd'
                ∧ numberOfCities rd' - 1 ≤ currentIndex rd'
                ∧ numberOfCities rd' = numberOfCities rd)
    (moveAnts Pow rd).
Proof.
  intros Hbad Hrd. unfold moveAnts.
  eapply within_weaken.
  { apply (for_loop_within bad (fun i t =>
      populated t ∧ currentIndex t = i
      ∧ numberOfCities t = numberOfCities rd)); [done|].
    intros i t Hi (Ht & Hc & Hn).
    eapply within_weaken; [apply moveStep_within; [done | done | lia]|].
    intros t' (Ht' & Hc' & Hn'). split; [done|]. split; [lia | congruence]. }
  intros t (Ht & Hc & Hn). simpl in *. split; [done|]. split; [lia | done].
Qed.

(** ** Pheromone updates never fail on a populated engine *)

Lemma for_each_total {A St} (P : St → Prop) (body : A → St → result St)
    (xs : list A) (s : St) :
  P s → (∀ x t, x ∈ xs → P t → ∃ t', body x t = Ok t' ∧ P t') →
  ∃ s', for_each xs body s = Ok s' ∧ P s'.
Proof.
  revert s. induction xs as [|x xs IH]; intros s H0 Hstep; simpl.
  - by exists s.
  - destruct (Hstep x s) as (t & -> & Ht); [by left | done |]. simpl.
    apply IH; [done|]. intros y u Hy. apply Hstep. by right.
Qed.

Lemma sound_nonneg (rd : RouteDiscovery) : sound rd → 0 ≤ numberOfCities rd.
Proof.
  intros (-> & _). apply getTotalCities_bounds.
Qed.

Lemma evaporate_total (rd : RouteDiscovery) :
  0 ≤ numberOfCities rd →
  square (numberOfCities rd) (pheromones rd) →
  ∃ p, evaporate rd = Ok (set_pheromones p rd)
       ∧ square (numberOfCities rd) p.
Proof.
  intros Hn Hp. unfold evaporate.
  destruct (for_cells_total
    (fun _ _ t =>
       ∃ p, t = set_pheromones p rd ∧ square (numberOfCities rd) p)
    (fun i j (rd : RouteDiscovery) =>
       p ← index2 (pheromones rd) i j;
       m ← store2 (pheromones rd) i j (p * remainingFactor rd)%float;
       Ok (set_pheromones m rd)) (numberOfCities rd) rd)
    as (t & Hrun & p & -> & Hsq); [done | | | done |].
  - exists (pheromones rd). split; [by destruct rd | done].
  - intros i j t Hi Hj (p & -> & Hsq). simpl.
    destruct (index2_in_range _ _ i j Hsq) as [x ->]; [done..|]. simpl.
    destruct (store2_in_range _ _ i j (x * remainingFactor rd)%float Hsq)
      as (m & -> & Hm); [done..|].
    simpl. eexists. split; [reflexivity|]. by exists m.
  - by exists p.
Qed.

Lemma deposit_total (i j : Z) (c : float) (rd : RouteDiscovery) :
  square (numberOfCities rd) (pheromones rd) →
  0 ≤ i < numberOfCities rd → 0 ≤ j < numberOfCities rd →
  ∃ p, deposit i j c rd = Ok (set_pheromones p rd)
       ∧ square (numberOfCities rd) p.
Proof.
  intros Hsq Hi Hj. unfold deposit.
  destruct (index2_in_range _ _ i j Hsq) as [x ->]; [done..|]. simpl.
  destruct (store2_in_range _ _ i j (x + c)%float Hsq) as (m & -> & Hm);
    [done..|].
  simpl. by exists m.
Qed.

Lemma reinforce_total (ant : Ant) (rd : RouteDiscovery) :
  0 < numberOfCities rd →
  square (numberOfCities rd) (pheromones rd) →
  shaped (Z.to_nat (numberOfCities rd)) (heap rd) ant →
  ∃ p, reinforce ant rd = Ok (set_pheromones p rd)
       ∧ square (numberOfCities rd) p.
Proof.
  intros Hn Hsq Hant. unfold reinforce.
  set (n := numberOfCities rd) in *.
  assert (∀ i, 0 ≤ i < n →
    ∃ c, index (deref (heap rd) (trail ant)) i = Ok c ∧ 0 ≤ c < n) as Htr.
  { intros i Hi. destruct (shaped_trail _ _ _ i Hant) as (c & Hc & Hr); [lia|].
    exists c. split; [done|]. unfold in_range in Hr. lia. }
  destruct (for_range_total
    (fun _ t => ∃ p, t = set_pheromones p rd ∧ square n p)
    (fun i rd0 =>
       x ← index (deref (heap rd) (trail ant)) i;
       y ← index (deref (heap rd) (trail ant)) (i + 1);
       deposit x y (q rd / tourLength ant)%float rd0) (n - 1) rd)
    as (t & Hrun & p & -> & Hp); [lia | | |].
  - exists (pheromones rd). split; [by destruct rd | done].
  - intros i t Hi (p & -> & Hp).
    destruct (Htr i) as (x & -> & Hx); [lia|].
    destruct (Htr (i + 1)) as (y & -> & Hy); [lia|]. simpl.
    destruct (deposit_total x y (q rd / tourLength ant)%float
                (set_pheromones p rd)) as (p' & Hd & Hp'); [done..|].
    rewrite Hd. eexists. split; [reflexivity|]. by exists p'.
  - fold n in Hrun. rewrite Hrun. simpl. fold n.
    destruct (Htr (n - 1)) as (x & -> & Hx); [lia|].
    destruct (Htr 0) as (y & -> & Hy); [lia|]. simpl.
    destruct (deposit_total x y (q rd / tourLength ant)%float
                (set_pheromones p rd)) as (p' & Hd & Hp'); [done..|].
    rewrite Hd. by exists p'.
Qed.

Lemma updateTrails_total (rd : RouteDiscovery) :
  populated rd →
  ∃ p, updateTrails rd = Ok (set_pheromones p rd)
       ∧ square (numberOfCities rd) p.
Proof.
  intros (Hrd & Hlen & Hall & Hci). unfold updateTrails.
  pose proof (sound_nonneg _ Hrd) as Hn.
  destruct (evaporate_total rd Hn) as (p & -> & Hp); [apply Hrd|]. simpl.
  destruct (for_each_total
    (fun t => ∃ p, t = set_pheromones p rd ∧ square (numberOfCities rd) p)
    reinforce (ants rd) (set_pheromones p rd)) as (t & Hrun & p' & -> & Hp').
  - by exists p.
  - intros ant t Hant (p0 & -> & Hp0).
    destruct (reinforce_total ant (set_pheromones p0 rd))
      as (p1 & Hr & Hp1); simpl.
    + destruct (ants rd); [by apply elem_of_nil in Hant|]. simpl in Hlen. lia.
    + done.
    + by eapply (proj1 (Forall_forall _ _) Hall).
    + rewrite Hr. eexists. split; [reflexivity|]. by exists p1.
  - rewrite Hrun. by exists p'.
Qed.

(** ** Recording the best tour *)

Lemma considerAnts_within (bad : panic → Prop) (xs : list Ant)
    (rd : RouteDiscovery) :
  populated rd → is_Some (bestTourOrder rd) →
  within bad
    (fun rd' => populated rd' ∧ is_Some (bestTourOrder rd')
                ∧ currentIndex rd' = currentIndex rd
                ∧ numberOfCities rd' = numberOfCities rd)
    (for_each xs considerAnt rd).
Proof.
  intros Hrd Hbest.
  apply (for_each_within bad (fun t =>
    populated t ∧ is_Some (bestTourOrder t)
    ∧ currentIndex t = currentIndex rd
    ∧ numberOfCities t = numberOfCities rd)); [done|].
  intros ant t _ (Ht & Hb & Hc & Hn). unfold considerAnt, alloc.
  destruct (tourLength ant <? bestTourLength t)%float; simpl; [|done].
  split; [|by split; [eexists|]].
  destruct Ht as (Hs & Hl & Hall & Hci). split; [|split; [|split]]; simpl.
  - apply (sound_frame t); try done. apply Hs.
  - done.
  - eapply Forall_impl; [exact Hall|]. intros a. apply shaped_app.
  - done.
Qed.

Lemma updateBest_within (bad : panic → Prop) (rd : RouteDiscovery) :
  populated rd →
  is_Some (bestTourOrder rd) ∨ 0 < numberOfCities rd
    ∨ bad IndexOutOfRange →
  within bad
    (fun rd' => populated rd' ∧ is_Some (bestTourOrder rd')
                ∧ currentIndex rd' = currentIndex rd
                ∧ numberOfCities rd' = numberOfCities rd)
    (updateBest rd).
Proof.
  intros Hrd Hcase. unfold updateBest, adoptFirst.
  destruct (bestTourOrder rd) as [l|] eqn:Eb; simpl.
  - apply considerAnts_within; [done|]. by rewrite Eb.
  - unfold index. simpl. destruct (ants rd) as [|a as'] eqn:Ea; simpl.
    + destruct Hcase as [[? [=]]|[Hn|Hbad]]; [|done].
      destruct Hrd as (_ & Hl & _). rewrite Ea in Hl. simpl in Hl. lia.
    + eapply within_weaken.
      * apply (considerAnts_within bad (ants rd)
                 (set_best (Some (trail a)) (tourLength a) rd));
          [|by eexists].
        destruct Hrd as (Hs & Hl & Hall & Hci).
        split; [|done]. apply (sound_frame rd); try done. apply Hs.
      * intros t Ht. exact Ht.
Qed.

(** ** Setting the ants up never fails on a sound engine *)

Lemma clear_total (ant : Ant) :
  (Z.to_nat (trailSize ant) ≤ length (visited ant))%nat →
  clear ant
  = Ok (set_visited
          (replicate (Z.to_nat (trailSize ant)) false
             ++ drop (Z.to_nat (trailSize ant)) (visited ant)) ant).
Proof. intros H. unfold clear, for_range. by apply clear_prefix. Qed.

Lemma spawnAnts_total (rd : RouteDiscovery) :
  sound rd →
  ∃ as' h,
    spawnAnts rd = Ok (set_ants as' (set_heap (heap rd ++ h) rd))
    ∧ length as' = Z.to_nat (numberOfCities rd)
    ∧ Forall (shaped (Z.to_nat (numberOfCities rd)) (heap rd ++ h)) as'.
Proof.
  intros Hrd. pose proof (sound_nonneg _ Hrd) as Hn0.
  destruct Hrd as (Hn & Ha & _). unfold spawnAnts. rewrite Ha.
  set (n := Z.to_nat (numberOfCities rd)).
  destruct (for_range_total
    (fun i t => ∃ as' h,
       t = set_ants as' (set_heap (heap rd ++ h) rd)
       ∧ length as' = Z.to_nat i
       ∧ Forall (shaped n (heap rd ++ h)) as')
    (fun i (rd0 : RouteDiscovery) =>
       task ← index (tasks rd0) i;
       let '(ant, h) := newAnt (heap rd0) (numberOfCities rd0) (Facets task) in
       Ok (set_ants (ants rd0 ++ [ant]) (set_heap h rd0)))
    (numberOfCities rd) (set_ants [] rd))
    as (t & Hrun & as' & h & -> & Hl & Hall); [done | | |].
  - exists [], []. rewrite app_nil_r. split; [by destruct rd|]. done.
  - intros i t Hi (as' & h & -> & Hl & Hall). simpl.
    destruct (index_in_range (tasks rd) i) as [task ->].
    { pose proof (getTotalCities_bounds (tasks rd)). lia. }
    simpl. unfold newAnt, alloc. simpl. fold n.
    eexists. split; [reflexivity|].
    exists (as' ++ [mkAnt (length (heap rd ++ h)) (replicate n false)
                      (numberOfCities rd) 0 0 (Facets task)]),
      (h ++ [replicate n 0]).
    rewrite app_assoc. split; [reflexivity|].
    split; [rewrite length_app; simpl; lia|].
    apply Forall_app. split.
    + eapply Forall_impl; [exact Hall|]. intros a. apply shaped_app.
    + apply Forall_singleton. split; [apply length_replicate|].
      split; [simpl; lia|]. exists (replicate n 0). simpl.
      split; [by apply list_lookup_middle|].
      split; [apply length_replicate|].
      apply Forall_replicate. unfold in_range. lia.
  - eexists as', h. split; [exact Hrun|]. by rewrite Hl.
Qed.

Lemma placeAnt_total (k : Z) (rd : RouteDiscovery) :
  0 ≤ k < Z.of_nat (length (ants rd)) →
  length (ants rd) = Z.to_nat (numberOfCities rd) →
  Forall (shaped (Z.to_nat (numberOfCities rd)) (heap rd)) (ants rd) →
  ∃ as' h g,
    placeAnt k rd = Ok (set_ants as' (set_heap h (set_random g rd)))
    ∧ length as' = length (ants rd)
    ∧ Forall (shaped (Z.to_nat (numberOfCities rd)) h) as'.
Proof.
  intros Hk Hlen Hall. unfold placeAnt.
  destruct (index_in_range (ants rd) k) as [ant Hant]; [done|].
  rewrite Hant. simpl. apply index_Ok in Hant as [_ Hant].
  pose proof (Forall_lookup_1 _ _ _ _ Hall Hant)
    as (Hv & Hs & tr & Hh & Hl & Hf).
  set (n := Z.to_nat (numberOfCities rd)) in *.
  rewrite clear_total by (rewrite Hs, Hv; lia). simpl.
  unfold Intn. destruct (Z.leb_spec (numberOfCities rd) 0); [lia|]. simpl.
  set (city := ints (random rd) (drawn (random rd)) mod numberOfCities rd).
  assert (0 ≤ city < numberOfCities rd) as Hcity
    by (apply Z.mod_pos_bound; lia).
  unfold visitCity. simpl. unfold deref.
  rewrite (list_lookup_total_correct _ _ _ Hh).
  rewrite (store_in_range tr) by lia. simpl.
  rewrite (store_in_range (_ ++ _))
    by (rewrite length_app, length_replicate, length_drop; lia). simpl.
  rewrite (store_in_range (ants rd)) by lia. simpl.
  eexists _, _, _. split; [reflexivity|].
  split; [by rewrite length_insert|].
  assert (Forall (in_range n) (<[0%nat := city]> tr)) as Hf'.
  { apply Forall_insert; [done|]. unfold in_range. lia. }
  apply Forall_insert.
  - eapply Forall_impl; [exact Hall|]. intros a Ha.
    apply shaped_insert; [done | by rewrite length_insert | done].
  - split.
    { simpl. rewrite length_insert, length_app, length_replicate, length_drop.
      lia. }
    split; [done|]. exists (<[0%nat := city]> tr). simpl.
    split; [|split; [by rewrite length_insert | done]].
    apply list_lookup_insert_eq. by apply lookup_lt_Some in Hh.
Qed.

Lemma setupAnts_total (rd : RouteDiscovery) :
  sound rd →
  ∃ rd', setupAnts rd = Ok rd' ∧ populated rd' ∧ currentIndex rd' = 0.
Proof.
  intros Hrd. unfold setupAnts.
  destruct (spawnAnts_total rd Hrd) as (as1 & h1 & -> & Hl1 & Hall1). simpl.
  set (n := Z.to_nat (numberOfCities rd)) in *.
  destruct (for_range_total
    (fun _ t => ∃ as' h g,
       t = set_ants as' (set_heap h (set_random g rd))
       ∧ length as' = n ∧ Forall (shaped n h) as')
    placeAnt (Z.of_nat (length as1))
    (set_ants as1 (set_heap (heap rd ++ h1) rd)))
    as (t & Hrun & as' & h & g & -> & Hl & Hall); [lia | | |].
  - exists as1, (heap rd ++ h1), (random rd). split; [by destruct rd|]. done.
  - intros k t Hk (as' & h & g & -> & Hl & Hall).
    destruct (placeAnt_total k (set_ants as' (set_heap h (set_random g rd))))
      as (as2 & h2 & g2 & Hp & Hl2 & Hall2); simpl; [lia | done | done |].
    rewrite Hp. eexists. split; [reflexivity|].
    exists as2, h2, g2. split; [reflexivity|].
    simpl in Hl2. split; [congruence | done].
  - rewrite Hrun. simpl. eexists. split; [reflexivity|]. split; [|done].
    split; [|split; [|split]]; simpl; try done.
Qed.

Lemma clearTrails_total (rd : RouteDiscovery) :
  populated rd →
  ∃ rd', clearTrails rd = Ok rd' ∧ populated rd'
         ∧ currentIndex rd' = currentIndex rd
         ∧ numberOfCities rd' = numberOfCities rd
         ∧ bestTourOrder rd' = bestTourOrder rd.
Proof.
  intros Hrd. pose proof Hrd as (Hs & _).
  destruct (clearTrails_spec rd) as (p & -> & Hp & _);
    [by apply sound_nonneg | apply Hs|].
  eexists. split; [reflexivity|].
  split; [by apply populated_set_pheromones | done].
Qed.

(** ** A run *)

Lemma iteration_within Pow (bad : panic → Prop) (rd : RouteDiscovery) :
  bad NoOtherCities →
  populated rd →
  0 < numberOfCities rd ∨ bad IndexOutOfRange →
  within bad
    (fun rd' => populated rd' ∧ is_Some (bestTourOrder rd')
                ∧ numberOfCities rd' - 1 ≤ currentIndex rd'
                ∧ numberOfCities rd' = numberOfCities rd)
    (iteration Pow rd).
Proof.
  intros Hbad Hrd Hcase. unfold iteration.
  eapply within_bind; [by apply moveAnts_within|].
  intros rd1 (Hrd1 & Hci & Hn). simpl.
  destruct (updateTrails_total rd1 Hrd1) as (p & -> & Hp). simpl.
  eapply within_weaken.
  - apply updateBest_within; [by apply populated_set_pheromones|].
    right. simpl. rewrite Hn. exact Hcase.
  - intros rd2 (Hrd2 & Hb & Hc & Hn2). simpl in *.
    split; [done|]. split; [done|]. split; [lia | congruence].
Qed.

Lemma iterations_within Pow (bad : panic → Prop) (k : nat)
    (rd : RouteDiscovery) :
  bad NoOtherCities →
  populated rd →
  0 < numberOfCities rd ∨ bad IndexOutOfRange →
  within bad
    (fun rd' => populated rd' ∧ numberOfCities rd' = numberOfCities rd)
    (iterations Pow k rd).
Proof.
  intros Hbad Hrd Hcase. unfold iterations.
  apply (for_loop_within bad (fun _ t =>
    populated t ∧ numberOfCities t = numberOfCities rd)); [done|].
  intros i t _ (Ht & Hn).
  eapply within_weaken; [apply iteration_within; [done | done |]|].
  - by rewrite Hn.
  - intros t' (Ht' & _ & _ & Hn'). split; [done | congruence].
Qed.

Lemma optimizeFor_within Pow (bad : panic → Prop) (k : nat)
    (rd : RouteDiscovery) :
  bad NoOtherCities →
  sound rd →
  0 < numberOfCities rd ∨ bad IndexOutOfRange →
  within bad populated (optimizeFor Pow k rd).
Proof.
  intros Hbad Hrd Hcase. unfold optimizeFor.
  destruct (setupAnts_total rd Hrd) as (rd1 & Hsetup & Hrd1 & _).
  pose proof (setupAnts_spec _ _ Hsetup) as (as' & h & Heq & _).
  rewrite Hsetup. simpl.
  destruct (clearTrails_total rd1 Hrd1) as (rd2 & -> & Hrd2 & _ & Hn & _).
  simpl.
  eapply within_weaken; [apply iterations_within; [done | done |]|].
  - rewrite Hn, Heq. exact Hcase.
  - by intros t [Ht _].
Qed.

(** Once construction is over and a best tour is recorded, an iteration
    cannot fail. *)
Lemma iteration_total Pow (rd : RouteDiscovery) :
  populated rd → is_Some (bestTourOrder rd) →
  numberOfCities rd - 1 ≤ currentIndex rd →
  ∃ rd', iteration Pow rd = Ok rd'
         ∧ populated rd' ∧ is_Some (bestTourOrder rd')
         ∧ numberOfCities rd' - 1 ≤ currentIndex rd'.
Proof.
  intros Hrd Hbest Hci. unfold iteration.
  rewrite moveAnts_done by done. simpl.
  destruct (updateTrails_total rd Hrd) as (p & -> & Hp). simpl.
  apply within_Ok. eapply within_weaken.
  - apply updateBest_within; [by apply populated_set_pheromones | by left].
  - intros rd2 (Hrd2 & Hb & Hc & Hn2). simpl in *.
    split; [done|]. split; [done|]. lia.
Qed.

Lemma iterations_total Pow (k : nat) (rd : RouteDiscovery) :
  populated rd → is_Some (bestTourOrder rd) →
  numberOfCities rd - 1 ≤ currentIndex rd →
  ∃ rd', iterations Pow k rd = Ok rd'.
Proof.
  intros Hrd Hbest Hci. unfold iterations.
  destruct (for_loop_total
    (fun _ t => populated t ∧ is_Some (bestTourOrder t)
                ∧ numberOfCities t - 1 ≤ currentIndex t)
    (fun _ => iteration Pow) k 0 rd) as (rd' & Hrun & _); [done | |].
  - intros i t _ (Ht & Hb & Hc).
    destruct (iteration_total Pow t) as (t' & Hi & Ht'); [done..|].
    by exists t'.
  - by exists rd'.
Qed.

Lemma getTotalCities_positive (ts : list AllocatedTaskInfo) :
  ts ≠ [] → 0 < getTotalCities ts.
Proof.
  destruct ts as [|t ts]; [done|]. intros _. unfold getTotalCities. simpl.
  assert (TaskID t ∈ dom (foldl (fun (citySet : gmap Z bool) task =>
            <[TaskID task := true]> citySet) (<[TaskID t := true]> ∅) ts))
    as Hin by (rewrite citySet_dom; set_solver).
  apply elem_of_dom in Hin as [b Hb].
  pose proof (map_size_non_empty_iff
    (foldl (fun (citySet : gmap Z bool) task =>
              <[TaskID task := true]> citySet) (<[TaskID t := true]> ∅) ts)).
  assert (size (foldl (fun (citySet : gmap Z bool) task =>
            <[TaskID task := true]> citySet) (<[TaskID t := true]> ∅) ts)
          ≠ 0%nat); [|lia].
  apply map_size_non_empty_iff. intros E. rewrite E in Hb.
  by rewrite lookup_empty in Hb.
Qed.

Lemma NewRouteDiscovery_sound (ts : list AllocatedTaskInfo) (r : Rand)
    (rd : RouteDiscovery) :
  NewRouteDiscovery ts r = Ok rd → sound rd.
Proof.
  destruct (NewRouteDiscovery_spec ts r) as (p & d & -> & Hp & Hd & _).
  intros [= <-]. split; [done|]. split; [done|]. split; [done|].
  split; [done|]. apply length_replicate.
Qed.

Lemma populated_sound (rd : RouteDiscovery) : populated rd → sound rd.
Proof. by intros [? _]. Qed.

Lemma reachable_sound Pow (rd : RouteDiscovery) :
  reachable Pow rd → sound rd.
Proof.
  induction 1 as [ts r rd Hnew | k rd rd' _ IH Hrun].
  - by eapply NewRouteDiscovery_sound.
  - pose proof (optimizeFor_within Pow (fun _ => True) k rd I IH) as Hw.
    rewrite Hrun in Hw. apply populated_sound, Hw. by right.
Qed.

(** ** The whole run as a number of passes *)

Lemma InitiateOptimization_passes Pow (rd : RouteDiscovery) :
  InitiateOptimization Pow rd
  = optimizeFor Pow (Z.to_nat (maxIterations rd)) rd.
Proof.
  unfold InitiateOptimization, optimizeFor.
  destruct (setupAnts rd) as [rd1|p] eqn:E1; simpl; [|done].
  apply setupAnts_spec in E1 as (as' & h & -> & _).
  destruct (clearTrails _) as [rd2|p] eqn:E2; simpl; [|done].
  by apply clearTrails_repainted in E2 as [[p ->] _].
Qed.

(** ** The best tour is never replaced *)

Lemma considerAnts_idle (xs : list Ant) (rd : RouteDiscovery) :
  Forall (fun ant => tourLength ant = 0%float) xs →
  bestTourLength rd = 0%float →
  for_each xs considerAnt rd = Ok rd.
Proof.
  intros Hxs Hb. induction Hxs as [|a xs Ha _ IH]; simpl; [done|].
  unfold considerAnt. rewrite Ha, Hb.
  replace (0 <? 0)%float with false by reflexivity. simpl. exact IH.
Qed.

Lemma updateBest_adoptFirst (rd : RouteDiscovery) :
  Forall (fun ant => tourLength ant = 0%float) (ants rd) →
  bestTourLength rd = 0%float →
  updateBest rd = adoptFirst rd.
Proof.
  intros Hall Hb. unfold updateBest, adoptFirst.
  destruct (bestTourOrder rd) as [l|]; simpl.
  - by apply considerAnts_idle.
  - destruct (index (ants rd) 0) as [ant|p] eqn:E; simpl; [|done].
    apply considerAnts_idle; [done|]. simpl.
    apply index_Ok in E as [_ E].
    by apply (Forall_lookup_1 _ _ _ _ Hall E).
Qed.

(** One pass, when no ant has a tour length: construction, a repainting
    of the pheromones, and the first branch of [updateBest]. *)
Lemma iteration_unfold Pow (rd rd' : RouteDiscovery) :
  steady rd → bestTourLength rd = 0%float →
  iteration Pow rd = Ok rd' →
  ∃ rd1 p,
    moveAnts Pow rd = Ok rd1 ∧ steady (set_pheromones p rd1)
    ∧ adoptFirst (set_pheromones p rd1) = Ok rd'.
Proof.
  intros Hst Hb H. unfold iteration in H.
  apply bind_Ok in H as (rd1 & Hmove & H).
  apply bind_Ok in H as (rd2 & Htrails & H).
  pose proof (moveAnts_steady _ _ _ Hst Hmove) as Hst1.
  pose proof (updateTrails_steady _ _ Hst1 Htrails) as Hst2.
  apply moveAnts_construction in Hmove as Hc.
  destruct Hc as [(as' & h & g & ps & ci & Hrd1 & _) _].
  apply updateTrails_repainted in Htrails as [[p ->] _].
  exists rd1, p. split; [done|]. split; [done|].
  rewrite <- updateBest_adoptFirst; [done | apply Hst2 |].
  subst rd1. simpl. exact Hb.
Qed.

(** Construction writes the trails of the ants and no other slice. *)
Lemma moveAnt_elsewhere Pow (k : Z) (rd rd' : RouteDiscovery) :
  moveAnt Pow k rd = Ok rd' →
  trail <$> ants rd' = trail <$> ants rd
  ∧ ∀ l, l ∉ trail <$> ants rd → heap rd' !! l = heap rd !! l.
Proof.
  unfold moveAnt. intros H. inv_ok.
  match goal with H : index _ _ = Ok ?a |- _ =>
    apply index_Ok in H as [_ Hant]; rename a into ant end.
  match goal with H : selectNextCity _ _ _ = Ok _ |- _ =>
    apply selectNextCity_frame in H as (g & ps & ->) end.
  match goal with H : visitCity _ _ _ _ = Ok _ |- _ =>
    apply visitCity_Ok in H as (tr & vs & _ & _ & -> & ->) end.
  match goal with H : store (ants _) _ _ = Ok _ |- _ =>
    apply store_Ok in H as (_ & _ & ->) end.
  subst rd'. simpl in *. split.
  - rewrite list_fmap_insert, list_insert_id; [done|].
    by rewrite list_lookup_fmap, Hant.
  - intros l Hl. apply list_lookup_insert_ne. intros <-. apply Hl.
    apply list_elem_of_fmap. exists ant. split; [done|].
    by eapply list_elem_of_lookup_2.
Qed.

Lemma moveAnts_elsewhere Pow (rd rd' : RouteDiscovery) :
  moveAnts Pow rd = Ok rd' →
  trail <$> ants rd' = trail <$> ants rd
  ∧ ∀ l, l ∉ trail <$> ants rd → heap rd' !! l = heap rd !! l.
Proof.
  unfold moveAnts.
  apply (for_loop_keeps (fun t =>
    trail <$> ants t = trail <$> ants rd
    ∧ ∀ l, l ∉ trail <$> ants rd → heap t !! l = heap rd !! l)); [|done].
  intros _ t t' Ht Hstep. unfold moveStep in Hstep.
  apply bind_Ok in Hstep as (t1 & Hloop & [= <-]). simpl.
  revert Hloop. unfold for_range.
  apply (for_loop_keeps (fun u =>
    trail <$> ants u = trail <$> ants rd
    ∧ ∀ l, l ∉ trail <$> ants rd → heap u !! l = heap rd !! l)); [|exact Ht].
  intros k u u' [Hu1 Hu2] Hk. apply moveAnt_elsewhere in Hk as [Hk1 Hk2].
  split; [congruence|]. intros l Hl. rewrite Hk2, Hu2; [done..|].
  by rewrite Hu1.
Qed.

(** ** What every state of an engine keeps *)

Lemma iteration_kept Pow (rd rd' : RouteDiscovery) :
  populated rd → kept rd → iteration Pow rd = Ok rd' →
  populated rd' ∧ kept rd'.
Proof.
  intros Hpop (Hs & Hst & Hb & Hv) Hrun.
  assert (populated rd') as Hpop'.
  { pose proof (iteration_within Pow (fun _ => True) rd I Hpop (or_intror I))
      as Hw.
    rewrite Hrun in Hw. apply Hw. }
  split; [done|]. split; [by apply populated_sound|].
  split; [by eapply iteration_steady|].
  destruct (iteration_unfold _ _ _ Hst Hb Hrun)
    as (rd1 & p & Hmove & Hst2 & Ha).
  assert (populated rd1) as Hpop1.
  { pose proof (moveAnts_within Pow (fun _ => True) rd I Hpop) as Hw.
    rewrite Hmove in Hw. apply Hw. }
  apply moveAnts_construction in Hmove
    as [(as' & h & g & ps & ci & Hrd1 & Hlen & _) _].
  apply adoptFirst_spec in Ha. simpl in Ha.
  assert (bestTourOrder rd1 = bestTourOrder rd
          ∧ bestTourLength rd1 = bestTourLength rd
          ∧ length (heap rd1) = length (heap rd)) as (Ho1 & Hb1 & Hl1)
    by (by subst rd1).
  destruct (bestTourOrder rd1) as [l|] eqn:Eo.
  - rewrite Ha. simpl. split; [congruence|]. intros l' Hl'.
    rewrite Hl1. apply Hv. congruence.
  - destruct Ha as (ant & Hant & ->). simpl.
    apply index_Ok in Hant as [_ Hant].
    destruct Hpop1 as (_ & _ & Hall & _).
    pose proof (Forall_lookup_1 _ _ _ _ Hall Hant)
      as (_ & _ & tr & Hh & _).
    destruct Hst2 as (_ & _ & _ & _ & Hzero). simpl in Hzero.
    split; [by apply (Forall_lookup_1 _ _ _ _ Hzero Hant)|].
    intros l' [= <-]. by apply lookup_lt_Some in Hh.
Qed.

Lemma optimizeFor_kept Pow (k : nat) (rd rd' : RouteDiscovery) :
  kept rd → optimizeFor Pow k rd = Ok rd' → populated rd' ∧ kept rd'.
Proof.
  intros (Hs & Hst & Hb & Hv) Hrun. unfold optimizeFor in Hrun.
  apply bind_Ok in Hrun as (rd1 & Hsetup & Hrun).
  apply bind_Ok in Hrun as (rd2 & Hclear & Hrun).
  destruct (setupAnts_total rd Hs) as (rd1' & Hsetup' & Hpop1 & _).
  assert (rd1' = rd1) as -> by congruence.
  pose proof (setupAnts_steady _ _ Hst Hsetup) as Hst1.
  apply setupAnts_spec in Hsetup as (as' & h & Hrd1 & _ & Hlen & _).
  destruct (clearTrails_total rd1 Hpop1) as (rd2' & Hclear' & Hpop2 & _).
  assert (rd2' = rd2) as -> by congruence.
  pose proof (clearTrails_steady _ _ Hst1 Hclear) as Hst2.
  apply clearTrails_repainted in Hclear as [[p Hrd2] _].
  revert Hrun. unfold iterations.
  apply (for_loop_keeps (fun t => populated t ∧ kept t)).
  - intros _ t t' [Ht1 Ht2]. by apply iteration_kept.
  - split; [done|]. split; [by apply populated_sound|]. split; [done|].
    subst rd2 rd1. simpl. split; [done|]. intros l Hl. apply Hv in Hl. lia.
Qed.

Lemma reachable_kept Pow (rd : RouteDiscovery) : reachable Pow rd → kept rd.
Proof.
  induction 1 as [ts r rd Hnew | k rd rd' _ IH Hrun].
  - split; [by eapply NewRouteDiscovery_sound|].
    split; [by eapply NewRouteDiscovery_steady|].
    destruct (NewRouteDiscovery_spec ts r) as (p & d & Heq & _).
    rewrite Heq in Hnew. injection Hnew as <-. done.
  - by eapply optimizeFor_kept.
Qed.

(** The passes of a run keep a best tour once it is recorded, as long as
    its slice is not the trail of an ant still under construction. *)
Lemma iterations_keep_best Pow (k : nat) (rd rd' : RouteDiscovery) (l : loc) :
  steady rd → bestTourLength rd = 0%float →
  bestTourOrder rd = Some l →
  iterations Pow k rd = Ok rd' →
  bestTourOrder rd' = Some l ∧ bestTourLength rd' = 0%float
  ∧ (l ∉ trail <$> ants rd → heap rd' !! l = heap rd !! l).
Proof.
  intros Hst Hb Hl Hrun.
  assert (steady rd' ∧ bestTourLength rd' = 0%float
          ∧ bestTourOrder rd' = Some l
          ∧ trail <$> ants rd' = trail <$> ants rd
          ∧ (l ∉ trail <$> ants rd → heap rd' !! l = heap rd !! l)) as H;
    [|by destruct H as (_ & ? & ? & _ & ?)].
  revert Hrun. unfold iterations.
  apply (for_loop_keeps (fun t =>
    steady t ∧ bestTourLength t = 0%float ∧ bestTourOrder t = Some l
    ∧ trail <$> ants t = trail <$> ants rd
    ∧ (l ∉ trail <$> ants rd → heap t !! l = heap rd !! l))).
  - intros _ t t' (Ht & Hbt & Hlt & Htr & Hh) Hrun.
    pose proof (iteration_steady _ _ _ Ht Hrun) as Ht'.
    destruct (iteration_unfold _ _ _ Ht Hbt Hrun)
      as (t1 & p & Hmove & _ & Ha).
    pose proof (moveAnts_elsewhere _ _ _ Hmove) as [Htr1 Hh1].
    apply moveAnts_construction in Hmove
      as [(as' & h & g & ps & ci & Hrd1 & _) _].
    apply adoptFirst_spec in Ha. simpl in Ha.
    replace (bestTourOrder t1) with (Some l) in Ha by (by subst t1).
    rewrite Ha. simpl. split; [by rewrite Ha in Ht'|].
    split; [by subst t1|]. split; [by subst t1|]. split; [congruence|].
    intros Hl'. rewrite Hh1, Hh; [done..|]. by rewrite Htr.
  - done.
Qed.

(** ** Which panics a run can end in *)

Lemma first_pass_state Pow (rd rd1 : RouteDiscovery) :
  kept rd → optimizeFor Pow 1 rd = Ok rd1 →
  populated rd1 ∧ is_Some (bestTourOrder rd1)
  ∧ numberOfCities rd1 - 1 ≤ currentIndex rd1.
Proof.
  intros Hk Hrun. pose proof Hk as (Hs & _).
  unfold optimizeFor in Hrun.
  apply bind_Ok in Hrun as (a & Hsetup & Hrun).
  apply bind_Ok in Hrun as (b & Hclear & Hrun).
  destruct (setupAnts_total rd Hs) as (a' & Hsetup' & Hpa & _).
  assert (a' = a) as -> by congruence.
  destruct (clearTrails_total a Hpa) as (b' & Hclear' & Hpb & _).
  assert (b' = b) as -> by congruence.
  unfold iterations in Hrun. simpl in Hrun.
  apply bind_Ok in Hrun as (c & Hit & [= <-]).
  pose proof (iteration_within Pow (fun _ => True) b I Hpb (or_intror I)) as Hw.
  rewrite Hit in Hw. destruct Hw as (? & ? & ? & _). done.
Qed.

Lemma later_passes_complete Pow (k : nat) (rd rd1 : RouteDiscovery) :
  kept rd → optimizeFor Pow 1 rd = Ok rd1 →
  ∃ rd', optimizeFor Pow (S k) rd = Ok rd'.
Proof.
  intros Hk Hrun.
  destruct (first_pass_state _ _ _ Hk Hrun) as (Hp1 & Hb1 & Hc1).
  unfold optimizeFor in *.
  destruct (setupAnts rd) as [a|]; simpl in *; [|done].
  destruct (clearTrails a) as [b|]; simpl in *; [|done].
  unfold iterations in *. simpl in *.
  destruct (iteration Pow b) as [c|]; simpl in *; [|done].
  injection Hrun as ->. rewrite (for_loop_from _ _ _ 0).
  by apply iterations_total.
Qed.

(** X6: on an engine built by [NewRouteDiscovery] from a non-empty task
    list, optimised before or not, [InitiateOptimization] makes no
    access out of range and no call of [Intn] with a non-positive
    bound: if it panics, it is with the program's own "There are no
    other cities". *)
Theorem only_panic_is_no_other_cities Pow (rd : RouteDiscovery) (p : panic) :
  reachable Pow rd → tasks rd ≠ [] →
  InitiateOptimization Pow rd = Panic p → p = NoOtherCities.
Proof.
  intros Hreach Hts Hrun. pose proof (reachable_sound _ _ Hreach) as Hrd.
  assert (0 < numberOfCities rd) as Hn.
  { destruct Hrd as (-> & _). by apply getTotalCities_positive. }
  rewrite InitiateOptimization_passes in Hrun.
  pose proof (optimizeFor_within Pow (fun p => p = NoOtherCities)
                (Z.to_nat (maxIterations rd)) rd eq_refl Hrd (or_introl Hn))
    as Hw.
  by rewrite Hrun in Hw.
Qed.

Lemma only_panic_is_no_other_cities_witness :
  ∃ rd p,
    NewRouteDiscovery idleTasks halfRand = Ok rd
    ∧ InitiateOptimization powInt rd = Panic p
    ∧ p = NoOtherCities.
Proof.
  eexists _, _. split; [run|]. split; [run|].
  eapply (only_panic_is_no_other_cities powInt);
    [eapply (reach_new powInt idleTasks halfRand); run | by vm_compute | run].
Defined.

(** X4: a first run panics with an index out of range exactly when the
    task list is empty: then no ant is created and the first
    [updateBest] reads [rd.ants[0]]; with a task, every index is in
    range. *)
Theorem index_out_of_range_only_without_tasks Pow
    (ts : list AllocatedTaskInfo) (r : Rand) :
  NewRouteDiscovery ts r ≫= InitiateOptimization Pow = Panic IndexOutOfRange
  ↔ ts = [].
Proof.
  split; [|by intros ->].
  intros Hrun. destruct ts as [|t ts]; [done|]. exfalso.
  destruct (NewRouteDiscovery_spec (t :: ts) r) as (p & d & Hnew & _).
  pose proof (NewRouteDiscovery_sound _ _ _ Hnew) as Hrd.
  rewrite Hnew in Hrun. simpl in Hrun.
  rewrite InitiateOptimization_passes in Hrun.
  pose proof (optimizeFor_within Pow (fun p => p = NoOtherCities)
                (Z.to_nat (maxIterations (freshEngine (t :: ts) r p d)))
                (freshEngine (t :: ts) r p d) eq_refl Hrd) as Hw.
  rewrite Hrun in Hw. discriminate Hw. left.
  by apply getTotalCities_positive.
Qed.

(** X7: a run can only fail in its first pass. If the first pass of
    [InitiateOptimization] completes, so does the run, for any number of
    passes: later passes construct nothing and only repaint the
    pheromones. *)
Theorem run_completes_once_first_pass_does Pow (rd rd1 : RouteDiscovery) :
  reachable Pow rd → optimizeFor Pow 1 rd = Ok rd1 →
  (∀ k, ∃ rd', optimizeFor Pow (S k) rd = Ok rd')
  ∧ ∃ rd', InitiateOptimization Pow rd = Ok rd'.
Proof.
  intros Hreach Hrun. pose proof (reachable_kept _ _ Hreach) as Hk.
  split; [intros k; by eapply later_passes_complete|].
  rewrite InitiateOptimization_passes.
  destruct (Z.to_nat (maxIterations rd)) as [|k].
  - unfold optimizeFor in *.
    destruct (setupAnts rd) as [a|]; simpl in *; [|done].
    destruct (clearTrails a) as [b|]; simpl in *; [|done]. by exists b.
  - by eapply later_passes_complete.
Qed.

Lemma run_completes_once_first_pass_does_witness :
  ∃ rd rd1,
    NewRouteDiscovery twoTasks halfRand = Ok rd
    ∧ optimizeFor powInt 1 rd = Ok rd1
    ∧ (∀ k, ∃ rd', optimizeFor powInt (S k) rd = Ok rd')
    ∧ ∃ rd', InitiateOptimization powInt rd = Ok rd'.
Proof.
  eexists _, _. split; [run|]. split; [run|].
  eapply (run_completes_once_first_pass_does powInt);
    [eapply (reach_new powInt twoTasks halfRand); run | run].
Defined.

(** ** The best tour of an engine *)

Lemma bestTour_lookup (rd rd' : RouteDiscovery) (l : loc) :
  bestTourOrder rd = Some l → bestTourOrder rd' = Some l →
  heap rd' !! l = heap rd !! l → bestTour rd' = bestTour rd.
Proof.
  intros H H' Hh. unfold bestTour, deref. rewrite H, H'.
  by rewrite !list_lookup_total_alt, Hh.
Qed.

Lemma getPriorityMap_bestTour (rd rd' : RouteDiscovery) :
  bestTour rd' = bestTour rd → getPriorityMap rd' = getPriorityMap rd.
Proof. unfold getPriorityMap. by intros ->. Qed.

Lemma optimizeFor_keeps_best Pow (k : nat) (rd rd' : RouteDiscovery)
    (l : loc) :
  kept rd → bestTourOrder rd = Some l → optimizeFor Pow k rd = Ok rd' →
  bestTourOrder rd' = Some l ∧ bestTourLength rd' = 0%float
  ∧ heap rd' !! l = heap rd !! l.
Proof.
  intros (Hs & Hst & Hb & Hv) Hl Hrun. unfold optimizeFor in Hrun.
  apply bind_Ok in Hrun as (rd1 & Hsetup & Hrun).
  apply bind_Ok in Hrun as (rd2 & Hclear & Hrun).
  pose proof (setupAnts_steady _ _ Hst Hsetup) as Hst1.
  pose proof (clearTrails_steady _ _ Hst1 Hclear) as Hst2.
  apply setupAnts_spec in Hsetup
    as (as' & h & Hrd1 & Hlen & _ & _ & Hold & Hants).
  apply clearTrails_repainted in Hclear as [[p Hrd2] _].
  apply (iterations_keep_best _ _ _ _ l) in Hrun as (Ho & Hc & Hh);
    [| done | by subst rd2 rd1 | by subst rd2 rd1].
  split; [done|]. split; [done|]. pose proof (Hv l Hl) as Hvalid.
  rewrite Hh.
  - subst rd2 rd1. simpl. by apply Hold.
  - subst rd2 rd1. simpl. intros (a & Ha & Hin)%list_elem_of_fmap.
    apply list_elem_of_lookup in Hin as [j Hj].
    destruct (Hants j) as (t & _ & Hj' & _).
    { apply lookup_lt_Some in Hj. lia. }
    rewrite Hj in Hj'. injection Hj' as ->. simpl in Ha. lia.
Qed.

(** X8: once an engine has recorded a best tour, optimising it again,
    for any number of passes, changes neither the best tour, nor its
    cost, nor the priority map: no ant is ever given a tour length, so
    none compares below the recorded cost of zero, and the new ants'
    trails are slices of their own. *)
Theorem reoptimizing_keeps_the_best_tour Pow (k : nat)
    (rd rd' : RouteDiscovery) :
  reachable Pow rd → is_Some (bestTourOrder rd) →
  optimizeFor Pow k rd = Ok rd' →
  bestTourOrder rd' = bestTourOrder rd
  ∧ bestTour rd' = bestTour rd
  ∧ bestTourLength rd' = bestTourLength rd
  ∧ getPriorityMap rd' = getPriorityMap rd.
Proof.
  intros Hreach [l Hl] Hrun. pose proof (reachable_kept _ _ Hreach) as Hk.
  destruct (optimizeFor_keeps_best _ _ _ _ _ Hk Hl Hrun) as (Ho & Hc & Hh).
  destruct Hk as (_ & _ & Hb & _).
  assert (bestTour rd' = bestTour rd) as Ht by (by eapply bestTour_lookup).
  split; [congruence|]. split; [done|]. split; [congruence|].
  by apply getPriorityMap_bestTour.
Qed.

Lemma reoptimizing_keeps_the_best_tour_witness :
  ∃ rd0 rd rd',
    NewRouteDiscovery threeTasks halfRand = Ok rd0
    ∧ optimizeFor powInt 2 rd0 = Ok rd
    ∧ optimizeFor powInt 3 rd = Ok rd'
    ∧ bestTour rd = [0; 1; 2]
    ∧ bestTourOrder rd' = bestTourOrder rd
    ∧ bestTour rd' = bestTour rd
    ∧ bestTourLength rd' = bestTourLength rd
    ∧ getPriorityMap rd' = getPriorityMap rd.
Proof.
  eexists _, _, _. split; [run|]. split; [run|]. split; [run|].
  split; [run|].
  eapply (reoptimizing_keeps_the_best_tour powInt 3);
    [|eexists; run|run].
  eapply (reach_optimize powInt 2);
    [eapply (reach_new powInt threeTasks halfRand)|]; run.
Defined.

Lemma first_pass_records_first_ant Pow (k : nat)
    (rd rd1 rd2 rd3 rd' : RouteDiscovery) :
  kept rd → bestTourOrder rd = None →
  setupAnts rd = Ok rd1 → clearTrails rd1 = Ok rd2 →
  moveAnts Pow rd2 = Ok rd3 →
  optimizeFor Pow (S k) rd = Ok rd' →
  ∃ ant,
    ants rd3 !! 0%nat = Some ant
    ∧ bestTourOrder rd' = Some (trail ant)
    ∧ bestTour rd' = deref (heap rd3) (trail ant)
    ∧ bestTourLength rd' = 0%float.
Proof.
  intros Hk Hnone Hsetup Hclear Hmove Hrun.
  destruct (optimizeFor_kept Pow 0 rd rd2) as [Hp2 Hk2];
    [done | by unfold optimizeFor; rewrite Hsetup; simpl; rewrite Hclear|].
  assert (bestTourOrder rd2 = None) as Hnone2.
  { apply setupAnts_spec in Hsetup as (as' & h & -> & _).
    by apply clearTrails_repainted in Hclear as [[p ->] _]. }
  unfold optimizeFor in Hrun. rewrite Hsetup in Hrun. simpl in Hrun.
  rewrite Hclear in Hrun. simpl in Hrun. unfold iterations in Hrun.
  simpl in Hrun. apply bind_Ok in Hrun as (rd4 & Hit & Hrun).
  rewrite (for_loop_from _ _ _ 0) in Hrun.
  destruct (iteration_kept _ _ _ Hp2 Hk2 Hit) as [Hp4 Hk4].
  pose proof (iteration_currentIndex _ _ _ Hit) as [Hn4 Hc4].
  pose proof Hk2 as (_ & Hst2 & Hb2 & _).
  destruct (iteration_unfold _ _ _ Hst2 Hb2 Hit) as (t & p & Hmove' & _ & Ha).
  assert (t = rd3) as -> by congruence.
  apply moveAnts_construction in Hmove
    as [(as' & h & g & ps & ci & Hrd3 & _) _].
  apply adoptFirst_spec in Ha. simpl in Ha.
  replace (bestTourOrder rd3) with (@None nat) in Ha
    by (subst rd3; simpl; congruence).
  destruct Ha as (ant & Hant & Hrd4). apply index_Ok in Hant as [_ Hant].
  exists ant. split; [exact Hant|].
  pose proof Hk4 as (_ & Hst4 & Hb4 & Hv4).
  assert (bestTourOrder rd4 = Some (trail ant)) as Ho4 by (by subst rd4).
  destruct (iterations_keep_best _ _ _ _ _ Hst4 Hb4 Ho4 Hrun)
    as (Ho & Hc & _).
  split; [done|]. split; [|done].
  apply iterations_settled in Hrun as (_ & _ & _ & _ & h' & Hh); [|lia].
  unfold bestTour, deref. rewrite Ho, Hh.
  rewrite lookup_total_app_l by (by apply Hv4). by subst rd4.
Qed.

(** X9: on an engine with no best tour yet, the best tour after a run
    of one pass or more is the trail of the first ant as the first
    [moveAnts] left it, shared with that ant, and the recorded cost is
    zero: no other ant is considered. *)
Theorem best_tour_is_the_first_ants_first_tour Pow (k : nat)
    (rd rd1 rd2 rd3 rd' : RouteDiscovery) :
  reachable Pow rd → bestTourOrder rd = None →
  setupAnts rd = Ok rd1 → clearTrails rd1 = Ok rd2 →
  moveAnts Pow rd2 = Ok rd3 →
  optimizeFor Pow (S k) rd = Ok rd' →
  ∃ ant,
    ants rd3 !! 0%nat = Some ant
    ∧ bestTourOrder rd' = Some (trail ant)
    ∧ bestTour rd' = deref (heap rd3) (trail ant)
    ∧ bestTourLength rd' = 0%float.
Proof.
  intros Hreach. apply first_pass_records_first_ant.
  by eapply reachable_kept.
Qed.

Lemma best_tour_is_the_first_ants_first_tour_witness :
  ∃ rd rd1 rd2 rd3 rd',
    NewRouteDiscovery threeTasks halfRand = Ok rd
    ∧ setupAnts rd = Ok rd1 ∧ clearTrails rd1 = Ok rd2
    ∧ moveAnts powInt rd2 = Ok rd3
    ∧ optimizeFor powInt 4 rd = Ok rd'
    ∧ ∃ ant,
        ants rd3 !! 0%nat = Some ant
        ∧ bestTourOrder rd' = Some (trail ant)
        ∧ bestTour rd' = deref (heap rd3) (trail ant)
        ∧ bestTourLength rd' = 0%float.
Proof.
  eexists _, _, _, _, _. split; [run|]. split; [run|]. split; [run|].
  split; [run|]. split; [run|].
  eapply (best_tour_is_the_first_ants_first_tour powInt 3);
    [eapply (reach_new powInt threeTasks halfRand); run
    | run | run | run | run | run].
Defined.

(** ** A single city *)

(** X10: a task list with one distinct identifier. The run of 1000
    passes completes for every generator: the best tour is the single
    city 0, its cost is zero, and the priority map gives city 0 the
    rank 1. *)
Theorem single_city_run Pow (ts : list AllocatedTaskInfo) (r : Rand) :
  getTotalCities ts = 1 →
  ∃ rd rd',
    NewRouteDiscovery ts r = Ok rd
    ∧ InitiateOptimization Pow rd = Ok rd'
    ∧ bestTour rd' = [0]
    ∧ bestTourLength rd' = 0%float
    ∧ getPriorityMap rd' = {[0 := 1]}.
Proof.
  intros Hn. destruct (NewRouteDiscovery_spec ts r) as (p & d & Hnew & _).
  set (rd := freshEngine ts r p d) in *.
  assert (numberOfCities rd = 1) as Hn0 by exact Hn.
  assert (reachable Pow rd) as Hreach by (by eapply reach_new).
  pose proof (reachable_kept _ _ Hreach) as Hk. pose proof Hk as (Hs & _).
  destruct (setupAnts_total rd Hs) as (rd1 & Hsetup & Hp1 & Hc1).
  destruct (clearTrails_total rd1 Hp1)
    as (rd2 & Hclear & Hp2 & Hc2 & Hn2 & _).
  pose proof (setupAnts_spec _ _ Hsetup)
    as (as' & h & Hrd1 & _ & _ & _ & _ & Hants).
  pose proof (clearTrails_repainted _ _ Hclear) as [[p2 Hrd2] _].
  assert (numberOfCities rd2 = 1) as Hn2' by (by subst rd2 rd1).
  assert (moveAnts Pow rd2 = Ok rd2) as Hmove
    by (apply moveAnts_done; lia).
  destruct (updateTrails_total rd2 Hp2) as (p' & Htr & Hsq).
  assert (∃ rd4, updateBest (set_pheromones p' rd2) = Ok rd4) as [rd4 Hbest].
  { pose proof (updateBest_within (fun _ => False) (set_pheromones p' rd2))
      as Hw.
    apply within_Ok in Hw as (rd4 & Hrd4 & _);
      [by exists rd4 | by apply populated_set_pheromones |].
    right. left. simpl. lia. }
  assert (optimizeFor Pow 1 rd = Ok rd4) as Hfirst.
  { unfold optimizeFor. rewrite Hsetup. simpl. rewrite Hclear. simpl.
    unfold iterations. simpl. unfold iteration. rewrite Hmove. simpl.
    rewrite Htr. simpl. by rewrite Hbest. }
  destruct (later_passes_complete Pow 999 rd rd4 Hk Hfirst) as [rd' Hrun].
  exists rd, rd'. split; [exact Hnew|].
  split; [rewrite InitiateOptimization_passes; exact Hrun|].
  destruct (first_pass_records_first_ant Pow 999 rd rd1 rd2 rd2 rd' Hk
              eq_refl Hsetup Hclear Hmove Hrun) as (ant & Hant & _ & Ht & Hc).
  assert (bestTour rd' = [0]) as Hbt.
  { rewrite Ht. destruct (Hants 0%nat) as (t & _ & Ha0 & Hcell).
    { replace (numberOfAnts rd) with 1 by (symmetry; exact Hn). lia. }
    assert (ant = placedAnt rd 0 t) as ->.
    { subst rd2 rd1. simpl in Hant. congruence. }
    unfold deref. subst rd2 rd1. simpl in *.
    rewrite (list_lookup_total_correct _ _ _ Hcell).
    unfold startCity. subst rd. simpl. rewrite Hn, Z.mod_1_r. reflexivity. }
  split; [exact Hbt|]. split; [exact Hc|].
  unfold getPriorityMap. rewrite Hbt. reflexivity.
Qed.

Lemma single_city_run_witness :
  ∃ rd rd',
    NewRouteDiscovery [task 7 3; task 7 5] halfRand = Ok rd
    ∧ InitiateOptimization powInt rd = Ok rd'
    ∧ bestTour rd' = [0]
    ∧ bestTourLength rd' = 0%float
    ∧ getPriorityMap rd' = {[0 := 1]}.
Proof. apply (single_city_run powInt). reflexivity. Defined.

(** ** Selection with no city left *)

Lemma explore_visited (vs : list bool) (t : Z) (k : nat) (i : Z) :
  Forall (fun v => v = true) vs →
  0 ≤ i → (Z.to_nat i + k ≤ length vs)%nat →
  explore vs t k i = Ok None.
Proof.
  intros Hvs. revert i. induction k as [|k IH]; intros i Hi Hlen; simpl;
    [done|].
  destruct (Z.eqb_spec i t) as [->|Hne]; [|apply IH; lia].
  destruct (index_in_range vs t) as [v Hv]; [lia|]. rewrite Hv. simpl.
  apply index_Ok in Hv as [_ Hv].
  rewrite (Forall_lookup_1 _ _ _ _ Hvs Hv). simpl. apply IH; lia.
Qed.

Lemma roulette_zeros (ps : list float) (r : float) (k : nat) (i : Z) :
  (0 <? r)%float = true → 0 ≤ i →
  (∀ j, i ≤ j < i + Z.of_nat k → index ps j = Ok 0%float) →
  roulette ps r 0 k i = Panic NoOtherCities.
Proof.
  intros Hr. revert i. induction k as [|k IH]; intros i Hi Hps; simpl;
    [done|].
  rewrite Hps by lia. simpl.
  replace (0 + 0)%float with 0%float by reflexivity.
  rewrite (positive_not_below_zero _ Hr). apply IH; [lia|].
  intros j Hj. apply Hps. lia.
Qed.

(** X11: [selectNextCity] called for an ant that has visited every
    city, with a positive roulette draw: exploration finds no city,
    every probability is zero, the running total never reaches the draw
    and the call panics with "There are no other cities". *)
Theorem selection_with_every_city_visited_panics Pow (rd : RouteDiscovery)
    (ant : Ant) :
  populated rd → ant ∈ ants rd →
  Forall (fun v => v = true) (visited ant) →
  currentIndex rd < numberOfCities rd →
  (0 <? rouletteDraw rd)%float = true →
  selectNextCity Pow rd ant = Panic NoOtherCities.
Proof.
  intros (Hs & _ & Hall & Hci) Hant Hvs Hlt Hr.
  pose proof (proj1 (Forall_forall _ _) Hall ant Hant) as Hshape.
  pose proof Hshape as (Hv & _).
  unfold selectNextCity, Intn, Float64.
  destruct (Z.leb_spec (numberOfCities rd - currentIndex rd) 0); [lia|].
  simpl.
  assert (spin Pow (set_random (advance (advance (random rd))) rd) ant
          = Panic NoOtherCities) as Hspin.
  { unfold spin.
    pose proof (calculateProbabilities_within Pow (fun _ => False)
      (set_random (advance (advance (random rd))) rd) ant) as Hw.
    apply within_Ok in Hw as (rd1 & Hcalc & ps & -> & Hlen);
      [| apply (sound_frame rd); try done; apply Hs | done | simpl; lia].
    rewrite Hcalc. simpl.
    apply calculateProbabilities_spec in Hcalc as (c & ps' & _ & Heq & Hps).
    assert (ps' = ps) as -> by (by injection Heq).
    rewrite roulette_zeros; [done | exact Hr | lia |].
    intros j Hj. simpl in Hps. rewrite Hps by lia.
    destruct (lookup_lt_is_Some_2 (visited ant) (Z.to_nat j)) as [v Hj'];
      [lia|].
    rewrite (list_lookup_total_correct _ _ _ Hj').
    by rewrite (Forall_lookup_1 _ _ _ _ Hvs Hj'). }
  destruct (_ <? randomFactor rd)%float; simpl; [|exact Hspin].
  rewrite explore_visited; [exact Hspin | done | lia | lia].
Qed.

Lemma selection_with_every_city_visited_panics_witness :
  ∃ rd0 rd ant,
    NewRouteDiscovery twoTasks halfRand = Ok rd0
    ∧ optimizeFor powInt 1 rd0 = Ok rd
    ∧ ants rd !! 0%nat = Some ant
    ∧ visited ant = [true; true]
    ∧ selectNextCity powInt rd ant = Panic NoOtherCities.
Proof.
  eexists _, _, _. split; [run|]. split; [run|]. split; [run|].
  split; [run|].
  apply (selection_with_every_city_visited_panics powInt).
  - eapply (optimizeFor_kept powInt 1);
      [eapply (reachable_kept powInt),
         (reach_new powInt twoTasks halfRand)|]; run.
  - apply list_elem_of_here.
  - by repeat constructor.
  - by vm_compute.
  - run.
Defined.

(** ** The trails [setupAnts] allocates *)

(** X12: on every engine built by [NewRouteDiscovery], optimised before
    or not, [setupAnts] does not panic. It makes one ant per city; each
    ant's trail is a slice allocated by this call and shared with no
    other ant; the slices allocated before, the best tour among them,
    are left as they were. *)
Theorem setupAnts_gives_every_ant_a_trail_of_its_own Pow
    (rd : RouteDiscovery) :
  reachable Pow rd →
  ∃ rd',
    setupAnts rd = Ok rd'
    ∧ length (ants rd') = Z.to_nat (numberOfCities rd)
    ∧ NoDup (trail <$> ants rd')
    ∧ (∀ ant, ant ∈ ants rd' →
         (length (heap rd) ≤ trail ant < length (heap rd'))%nat)
    ∧ (∀ l, (l < length (heap rd))%nat → heap rd' !! l = heap rd !! l)
    ∧ bestTour rd' = bestTour rd.
Proof.
  intros Hreach. pose proof (reachable_kept _ _ Hreach) as (Hs & _ & _ & Hv).
  destruct (setupAnts_total rd Hs) as (rd' & Hsetup & _).
  exists rd'. split; [exact Hsetup|].
  pose proof (setupAnts_staged _ _ Hsetup) as [[Hnd _] _].
  apply setupAnts_spec in Hsetup
    as (as' & h & -> & Hlen & Hlenh & _ & Hold & Hants). simpl.
  destruct Hs as (_ & Ha & _). rewrite Ha in *.
  split; [done|]. split; [done|]. split; [|split; [done|]].
  - intros ant [j Hj]%list_elem_of_lookup.
    destruct (Hants j) as (t & _ & Hj' & _).
    { apply lookup_lt_Some in Hj. lia. }
    rewrite Hj in Hj'. injection Hj' as ->. simpl.
    apply lookup_lt_Some in Hj. lia.
  - unfold bestTour, deref. simpl. destruct (bestTourOrder rd) as [l|] eqn:E;
      [|done].
    by rewrite !list_lookup_total_alt, Hold by (by apply Hv).
Qed.

Lemma setupAnts_gives_every_ant_a_trail_of_its_own_witness :
  ∃ rd0 rd,
    NewRouteDiscovery twoTasks halfRand = Ok rd0
    ∧ optimizeFor powInt 2 rd0 = Ok rd
    ∧ length (heap rd) = 2%nat
    ∧ ∃ rd',
        setupAnts rd = Ok rd'
        ∧ length (ants rd') = Z.to_nat (numberOfCities rd)
        ∧ NoDup (trail <$> ants rd')
        ∧ (∀ ant, ant ∈ ants rd' →
             (length (heap rd) ≤ trail ant < length (heap rd'))%nat)
        ∧ (∀ l, (l < length (heap rd))%nat → heap rd' !! l = heap rd !! l)
        ∧ bestTour rd' = bestTour rd.
Proof.
  eexists _, _. split; [run|]. split; [run|]. split; [run|].
  apply (setupAnts_gives_every_ant_a_trail_of_its_own powInt).
  eapply (reach_optimize powInt 2);
    [eapply (reach_new powInt twoTasks halfRand)|]; run.
Defined.

(** ** The length of a tour *)

Lemma index_lookup_total `{Inhabited A} (s : list A) (i : Z) :
  0 ≤ i < Z.of_nat (length s) → index s i = Ok (s !!! Z.to_nat i).
Proof.
  intros Hi. destruct (index_in_range s i Hi) as [x Hx]. rewrite Hx.
  by apply index_total in Hx as ->.
Qed.

Lemma costOf_source (ts : list AllocatedTaskInfo) (a b : Z) :
  a ≠ b → 0 ≤ a < Z.of_nat (length ts) →
  costOf ts a b = Ok (latencyOf ts a).
Proof.
  intros Hne Ha. unfold costOf, latencyOf.
  destruct (Z.eqb_spec a b); [done|].
  destruct (index_in_range ts a Ha) as [t Ht]. rewrite Ht. simpl.
  apply index_Ok in Ht as [_ Ht]. by rewrite Ht.
Qed.

(** X13: what [calculateTourLength] would store, over the cost matrix
    of [NewRouteDiscovery], for a trail of two or more distinct cities:
    the latency of the last city of the trail, then the latencies of the
    others added in trail order. Every city pays its own latency once,
    whatever the order of the tour. *)
Theorem tour_length_adds_the_latencies (ts : list AllocatedTaskInfo)
    (r : Rand) (rd : RouteDiscovery) (h : Heap) (ant : Ant) (tr : list Z) :
  NewRouteDiscovery ts r = Ok rd →
  2 ≤ numberOfCities rd → trailSize ant = numberOfCities rd →
  h !! trail ant = Some tr → Z.of_nat (length tr) = numberOfCities rd →
  NoDup tr → Forall (fun c => 0 ≤ c < numberOfCities rd) tr →
  calculateTourLength h ant (distances rd)
  = Ok (set_tourLength
          (addLatencies ts (latencyOf ts (tr !!! (length tr - 1)%nat))
             (take (length tr - 1) tr)) ant).
Proof.
  intros Hnew Hn Hsize Hh Hlen Hnd Hrange.
  destruct (NewRouteDiscovery_spec ts r) as (p & d & Heq & _ & _ & Hcost & _).
  rewrite Heq in Hnew. injection Hnew as <-. simpl in *.
  pose proof (getTotalCities_bounds ts) as Hb.
  set (n := getTotalCities ts) in *.
  assert (∀ i, 0 ≤ i < n → 0 ≤ tr !!! Z.to_nat i < n) as Hin.
  { intros i Hi. eapply (Forall_lookup_1 _ _ _ _ Hrange).
    apply list_lookup_lookup_total_lt. lia. }
  assert (∀ i j, 0 ≤ i < n → 0 ≤ j < n → i ≠ j →
    index2 d (tr !!! Z.to_nat i) (tr !!! Z.to_nat j)
    = Ok (latencyOf ts (tr !!! Z.to_nat i))) as Hedge.
  { intros i j Hi Hj Hne. rewrite Hcost by (by apply Hin).
    apply costOf_source; [|specialize (Hin i Hi); lia].
    intros E. apply Hne.
    assert (Z.to_nat i = Z.to_nat j); [|lia].
    apply (NoDup_lookup tr _ _ (tr !!! Z.to_nat i) Hnd).
    - apply list_lookup_lookup_total_lt. lia.
    - rewrite E. apply list_lookup_lookup_total_lt. lia. }
  unfold calculateTourLength, deref.
  rewrite (list_lookup_total_correct _ _ _ Hh), Hsize.
  rewrite !index_lookup_total by lia. simpl.
  rewrite Hedge by lia. simpl.
  replace (Z.to_nat (n - 1)) with (length tr - 1)%nat by lia.
  set (x0 := latencyOf ts (tr !!! (length tr - 1)%nat)).
  destruct (for_range_total
    (fun i a => a = set_tourLength
                      (addLatencies ts x0 (take (Z.to_nat i) tr)) ant)
    (fun i a =>
       x ← index tr i; y ← index tr (i + 1); d0 ← index2 d x y;
       Ok (set_tourLength (tourLength a + d0)%float a))
    (n - 1) (set_tourLength x0 ant)) as (a & Hrun & ->); [lia | done | |].
  - intros i a Hi ->. rewrite !index_lookup_total by lia. simpl.
    rewrite Hedge by lia. simpl. eexists. split; [reflexivity|].
    replace (Z.to_nat (i + 1)) with (S (Z.to_nat i)) by lia.
    rewrite (take_S_r _ _ (tr !!! Z.to_nat i))
      by (apply list_lookup_lookup_total_lt; lia).
    unfold addLatencies. by rewrite foldl_snoc.
  - rewrite Hrun. by replace (Z.to_nat (n - 1)) with (length tr - 1)%nat by lia.
Qed.

Lemma tour_length_adds_the_latencies_witness :
  ∃ rd ant,
    NewRouteDiscovery threeTasks halfRand = Ok rd
    ∧ calculateTourLength [[2; 0; 1]] ant (distances rd)
      = Ok (set_tourLength 7 ant).
Proof.
  eexists _, (mkAnt 0 [true; true; true] 3 0 0 (Facets (task 10 2))).
  split; [run|].
  apply (tour_length_adds_the_latencies threeTasks halfRand _ _ _ [2; 0; 1]);
    [run | by vm_compute | run | run | run | |].
  - apply (bool_decide_unpack _). by vm_compute.
  - repeat constructor; by vm_compute.
Defined.

(** ** The priority map of a tour with repeats *)

Lemma rankFrom_last (t : list Z) (m : gmap Z Z) (p c : Z) (k : nat) :
  t !! k = Some c → (∀ j, (k < j)%nat → t !! j ≠ Some c) →
  (rankFrom m p t).1 !! c = Some (p + Z.of_nat k).
Proof.
  revert m p k. induction t as [|c0 t IH]; intros m p k Hk Hlast; [done|].
  rewrite rankFrom_cons. destruct k as [|k]; simpl in Hk.
  - injection Hk as ->. rewrite rankFrom_other.
    + rewrite lookup_insert_eq. f_equal. lia.
    + intros [j Hj]%list_elem_of_lookup. by apply (Hlast (S j)); [lia|].
  - rewrite (IH _ _ k); [f_equal; lia | done |].
    intros j Hj. apply (Hlast (S j)). lia.
Qed.

Lemma rankFrom_occurs (t : list Z) (m : gmap Z Z) (p c rank : Z) :
  (rankFrom m p t).1 !! c = Some rank →
  m !! c = Some rank ∨ ∃ k, t !! k = Some c ∧ rank = p + Z.of_nat k.
Proof.
  revert m p. induction t as [|c0 t IH]; intros m p H; [by left|].
  rewrite rankFrom_cons in H. apply IH in H as [H|(k & Hk & ->)].
  - destruct (decide (c = c0)) as [->|Hne].
    + rewrite lookup_insert_eq in H. injection H as <-. right.
      exists 0%nat. split; [done | lia].
    + rewrite lookup_insert_ne in H by done. by left.
  - right. exists (S k). split; [done | lia].
Qed.

(** X18: [getPriorityMap] on any best tour, repeats included: the map
    has one entry per distinct city of the tour, so no more entries than
    the tour has positions; a city has the rank of its last position in
    the tour, counted from 1; and every rank in the map is a position
    of its city. *)
Theorem priority_map_ranks_last_occurrence (rd : RouteDiscovery) :
  dom (getPriorityMap rd) = list_to_set (bestTour rd)
  ∧ (size (getPriorityMap rd) ≤ length (bestTour rd))%nat
  ∧ (∀ k c, bestTour rd !! k = Some c →
       (∀ j, (k < j)%nat → bestTour rd !! j ≠ Some c) →
       getPriorityMap rd !! c = Some (Z.of_nat k + 1))
  ∧ (∀ c rank, getPriorityMap rd !! c = Some rank →
       ∃ k, bestTour rd !! k = Some c ∧ rank = Z.of_nat k + 1).
Proof.
  rewrite getPriorityMap_rankFrom. set (t := bestTour rd).
  assert (dom (rankFrom ∅ 1 t).1 = list_to_set t) as Hdom.
  { by rewrite rankFrom_dom, dom_empty_L, (left_id_L ∅ (∪)). }
  split; [exact Hdom|]. split; [|split].
  - rewrite <- size_dom, Hdom, size_list_to_set_remove_dups.
    apply remove_dups_length_le.
  - intros k c Hk Hlast. rewrite (rankFrom_last t ∅ 1 c k) by done.
    f_equal. lia.
  - intros c rank [H|(k & Hk & ->)]%rankFrom_occurs; [done|].
    exists k. split; [done | lia].
Qed.

(** ** What the choice of a city depends on *)

Lemma moveAnt_pheromones Pow (j : Z) (rd rd' : RouteDiscovery) :
  moveAnt Pow j rd = Ok rd' → pheromones rd' = pheromones rd.
Proof.
  intros [(as' & h & g & ps & ci & -> & _) _]%moveAnt_construction. done.
Qed.

(** X19: tour construction never sees a pheromone other than 1.0. In
    every run the matrix is filled with 1 by [clearTrails] before the
    first pass; no step of construction writes it; and after the first
    pass [moveAnts] constructs nothing more. The pheromones that
    [updateTrails] computes are never read by a selection. *)
Theorem construction_sees_uniform_pheromones Pow (k : nat)
    (rd rd1 rd2 rd' : RouteDiscovery) :
  reachable Pow rd →
  setupAnts rd = Ok rd1 → clearTrails rd1 = Ok rd2 →
  optimizeFor Pow (S k) rd = Ok rd' →
  pheromones rd2
  = replicate (Z.to_nat (numberOfCities rd))
      (replicate (Z.to_nat (numberOfCities rd)) 1%float)
  ∧ (∀ j t t', moveAnt Pow j t = Ok t' → pheromones t' = pheromones t)
  ∧ moveAnts Pow rd' = Ok rd'.
Proof.
  intros Hreach Hsetup Hclear Hrun.
  pose proof (reachable_kept _ _ Hreach) as (Hs & Hst & _).
  destruct (setupAnts_total rd Hs) as (rd1' & Hsetup' & Hp1 & _).
  assert (rd1' = rd1) as -> by congruence.
  pose proof (setupAnts_steady _ _ Hst Hsetup) as (_ & Hinit & _).
  pose proof (setupAnts_spec _ _ Hsetup) as (as' & h & Hrd1 & _).
  assert (numberOfCities rd1 = numberOfCities rd) as Hn1 by (by subst rd1).
  split; [|split].
  - destruct (clearTrails_spec rd1) as (p & Hc & Hsq & Hp);
      [by apply sound_nonneg, populated_sound | apply Hp1 |].
    rewrite Hc in Hclear. injection Hclear as <-. simpl.
    rewrite <- Hn1. apply square_const; [done|].
    intros a b Ha Hb. rewrite Hp by done. by rewrite Hinit.
  - intros j t t'. apply moveAnt_pheromones.
  - unfold optimizeFor in Hrun. rewrite Hsetup in Hrun. simpl in Hrun.
    rewrite Hclear in Hrun. simpl in Hrun. unfold iterations in Hrun.
    simpl in Hrun. apply bind_Ok in Hrun as (rd4 & Hit & Hrun).
    rewrite (for_loop_from _ _ _ 0) in Hrun.
    pose proof (iteration_currentIndex _ _ _ Hit) as [Hn4 Hc4].
    apply iterations_settled in Hrun as (_ & _ & Hc & Hn & _); [|lia].
    apply moveAnts_done. lia.
Qed.

Lemma construction_sees_uniform_pheromones_witness :
  ∃ rd rd1 rd2 rd',
    NewRouteDiscovery twoTasks halfRand = Ok rd
    ∧ setupAnts rd = Ok rd1 ∧ clearTrails rd1 = Ok rd2
    ∧ optimizeFor powInt 3 rd = Ok rd'
    ∧ pheromones rd' = [[0.125; infinity]; [infinity; 0.125]]%float
    ∧ pheromones rd2
      = replicate (Z.to_nat (numberOfCities rd))
          (replicate (Z.to_nat (numberOfCities rd)) 1%float)
    ∧ (∀ j t t', moveAnt powInt j t = Ok t' → pheromones t' = pheromones t)
    ∧ moveAnts powInt rd' = Ok rd'.
Proof.
  eexists _, _, _, _. split; [run|]. split; [run|]. split; [run|].
  split; [run|]. split; [run|].
  eapply (construction_sees_uniform_pheromones powInt 2);
    [eapply (reach_new powInt twoTasks halfRand); run | run | run | run].
Defined.

(** X20: the cost of every step out of a city is the latency of that
    city, so the cities still to visit are equally desirable. Over a
    uniform pheromone matrix and the cost matrix of
    [NewRouteDiscovery], [calculateProbabilities] for an ant standing on
    a visited city gives every unvisited city the same probability: the
    latencies of the candidates do not bias the choice. *)
Theorem unvisited_cities_are_equally_likely Pow (rd rd' : RouteDiscovery)
    (ant : Ant) (i : Z) (x : float) :
  index (deref (heap rd) (trail ant)) (currentIndex rd) = Ok i →
  0 ≤ i < numberOfCities rd →
  visited ant !!! Z.to_nat i = true →
  (∀ a b, 0 ≤ a < numberOfCities rd → 0 ≤ b < numberOfCities rd →
     index2 (pheromones rd) a b = Ok x) →
  (∀ a b, 0 ≤ a < numberOfCities rd → 0 ≤ b < numberOfCities rd →
     index2 (distances rd) a b = costOf (tasks rd) a b) →
  calculateProbabilities Pow rd ant = Ok rd' →
  ∀ j l,
    0 ≤ j < numberOfCities rd → 0 ≤ l < numberOfCities rd →
    visited ant !!! Z.to_nat j = false →
    visited ant !!! Z.to_nat l = false →
    probabilities rd' !!! Z.to_nat j = probabilities rd' !!! Z.to_nat l.
Proof.
  intros Hi Hin Hvi Hph Hd Hrun j l Hj Hl Hvj Hvl.
  apply calculateProbabilities_spec in Hrun as (i' & ps & Hi' & -> & Hps).
  assert (i' = i) as -> by congruence. simpl.
  pose proof (Hps j Hj) as Hpj. pose proof (Hps l Hl) as Hpl.
  rewrite Hvj in Hpj. rewrite Hvl in Hpl.
  apply index_total in Hpj, Hpl. rewrite Hpj, Hpl. f_equal.
  assert (∀ c, 0 ≤ c < numberOfCities rd →
    visited ant !!! Z.to_nat c = false →
    desirability Pow rd ant i c
    = (d ← (task ← index (tasks rd) i; Ok (Latency (Facets task)));
       Ok (Pow x (alpha rd)
           * Pow (1 / d * CPU (facetsValues ant)) (beta rd))%float))
    as Hsame.
  { intros c Hc Hvc. unfold desirability.
    rewrite Hph, Hd by done. simpl. unfold costOf.
    destruct (Z.eqb_spec i c) as [->|Hne]; [congruence | done]. }
  unfold weight. by rewrite !Hsame.
Qed.

Lemma unvisited_cities_are_equally_likely_witness :
  ∃ rd ant rd',
    started threeTasks halfRand = Ok rd
    ∧ ants rd !! 0%nat = Some ant
    ∧ visited ant = [true; false; false]
    ∧ calculateProbabilities powInt rd ant = Ok rd'
    ∧ probabilities rd' = [0; 0.5; 0.5]%float
    ∧ ∀ j l,
        0 ≤ j < numberOfCities rd → 0 ≤ l < numberOfCities rd →
        visited ant !!! Z.to_nat j = false →
        visited ant !!! Z.to_nat l = false →
        probabilities rd' !!! Z.to_nat j = probabilities rd' !!! Z.to_nat l.
Proof.
  eexists _, _, _. split; [run|]. split; [run|]. split; [run|].
  split; [run|]. split; [run|].
  assert (∀ n a, 0 ≤ a < n → n = 3 → a = 0 ∨ a = 1 ∨ a = 2) as Hcase
    by (intros; lia).
  eapply (unvisited_cities_are_equally_likely powInt _ _ _ 0 1);
    [run | by vm_compute | run | | | run].
  - intros a b [->|[->| ->]]%Hcase [->|[->| ->]]%Hcase; run.
  - intros a b [->|[->| ->]]%Hcase [->|[->| ->]]%Hcase; run.
Defined.

(** * Properties of the schema client *)

Lemma after_nil (c : cqlClient) : after [] c c.
Proof.
  unfold after. rewrite app_nil_r. by destruct c as [? ? ? [] ?].
Qed.

Lemma after_app (xs ys : list string) (a b c : cqlClient) :
  after xs a b → after ys b c → after (xs ++ ys) a c.
Proof.
  unfold after. intros -> ->. simpl. by rewrite app_assoc.
Qed.

Lemma Exec_outcome (stmt : string) (c : cqlClient) :
  (Exec stmt c).1
  = outcome (session c) (length (executed (session c))) stmt
  ∧ after [stmt] c (Exec stmt c).2.
Proof.
  unfold Exec, outcome, waitSchemaAgreement.
  destruct (answers _ _ stmt); simpl; [done|].
  rewrite length_app. simpl. by rewrite Nat.add_1_r.
Qed.

Lemma dropTables_after (tables : list string) (c : cqlClient) :
  after (tableDrops tables) c (dropTables tables c).
Proof.
  unfold dropTables, tableDrops. revert c.
  induction tables as [|t ts IH]; intros c; simpl; [apply after_nil|].
  eapply (after_app [_]); [|apply IH]. apply Exec_outcome.
Qed.

Lemma after_executed (sent : list string) (c c' : cqlClient) :
  after sent c c' →
  executed (session c') = executed (session c) ++ sent
  ∧ ∀ k stmt, outcome (session c') k stmt = outcome (session c) k stmt.
Proof. by intros ->. Qed.

Lemma refused_app (s : Session) (k : nat) (xs ys : list string) :
  refused s k (xs ++ ys) = refused s k xs ++ refused s (k + length xs) ys.
Proof.
  revert k. induction xs as [|x xs IH]; intros k; simpl.
  - by rewrite Nat.add_0_r.
  - rewrite IH. replace (S k + length xs)%nat with (k + S (length xs))%nat
      by lia.
    by destruct (outcome s k _).
Qed.

(** One pass over [types]. *)
Lemma dropTypesOnce_spec (all types : list string) (err : option error)
    (c : cqlClient) :
  types ⊆ all →
  ∃ errored err' c',
    dropTypesOnce types err c = (errored, err', c')
    ∧ after (typeDrops types) c c'
    ∧ sublist errored types
    ∧ (reported all c err → reported all c' err')
    ∧ ((∀ i t, types !! i = Some t →
          outcome (session c) (length (executed (session c)) + i)
            ("DROP TYPE " +:+ t) = None) →
       errored = [] ∧ (err = None → err' = None))
    ∧ errored = refused (session c) (length (executed (session c))) types
    ∧ (∀ types' t, types = types' ++ [t] →
         err' = outcome (session c)
                  (length (executed (session c)) + length types')
                  ("DROP TYPE " +:+ t)).
Proof.
  unfold dropTypesOnce, typeDrops.
  induction types as [|t types IH] using rev_ind; intros Hall.
  - exists [], err, c. split; [done|]. split; [apply after_nil|].
    split; [done|]. split; [done|]. split; [done|]. split; [done|].
    by intros [|] ? [=].
  - destruct IH
      as (errored & err1 & c1 & Hrun & Haft & Hsub & Hrep & Hok & Href & _).
    { intros x Hx. apply Hall. apply elem_of_app. by left. }
    rewrite foldl_app, Hrun. simpl. unfold dropType.
    destruct (Exec_outcome ("DROP TYPE " +:+ t) c1) as [Hout Hsent].
    destruct (Exec ("DROP TYPE " +:+ t) c1) as [e c2]. simpl in *.
    pose proof (after_executed _ _ _ Haft) as [Hex1 Ho1].
    pose proof (after_executed _ _ _ Hsent) as [Hex2 Ho2].
    assert (after (((fun t => "DROP TYPE " +:+ t) <$> types)
                     ++ ["DROP TYPE " +:+ t]) c c2) as Haft2
      by (by eapply after_app).
    assert (reported all c2 e) as Hrep2.
    { destruct e as [e|]; [|by left]. right.
      exists (executed (session c1)), t.
      split; [apply Hall, elem_of_app; right; by apply list_elem_of_singleton|].
      split; [done|]. by rewrite Ho2. }
    assert (e = outcome (session c)
                  (length (executed (session c)) + length types)
                  ("DROP TYPE " +:+ t)) as He.
    { rewrite Hout, Ho1, Hex1, length_app, length_fmap. done. }
    exists (match e with Some _ => errored ++ [t] | None => errored end),
      e, c2.
    split; [by destruct e|].
    rewrite fmap_app. split; [exact Haft2|].
    split; [|split; [done|split; [|split]]].
    + destruct e; [by apply sublist_app | by apply sublist_inserts_r].
    + intros Hnone.
      destruct Hok as [-> Herr].
      { intros i u Hi. apply Hnone. by apply lookup_app_l_Some. }
      rewrite (Hnone (length types) t) in He
        by (by apply list_lookup_middle).
      clear Hout Hrep2. subst e. split; [reflexivity | by intros _].
    + rewrite refused_app, <- Href. simpl. rewrite <- He.
      destruct e; [done | by rewrite app_nil_r].
    + intros types' t' [-> ->]%app_inj_tail. exact He.
Qed.

Lemma retryTypes_spec (all : list string) (k : nat) (types : list string)
    (err : option error) (c : cqlClient) :
  types ⊆ all →
  ∃ types' err' c' sent,
    retryTypes k types err c = (types', err', c')
    ∧ after sent c c'
    ∧ Forall (fun stmt => ∃ t, t ∈ types ∧ stmt = "DROP TYPE " +:+ t) sent
    ∧ (length sent ≤ k * length types)%nat
    ∧ sublist types' types
    ∧ (reported all c err → reported all c' err').
Proof.
  revert types err c. induction k as [|k IH]; intros types err c Hall.
  { exists types, err, c, []. split; [by destruct types|].
    split; [apply after_nil|]. split; [done|]. split; [simpl; lia|]. done. }
  destruct types as [|t0 types0] eqn:Et.
  { exists [], err, c, []. split; [done|]. split; [apply after_nil|].
    split; [done|]. split; [simpl; lia|]. done. }
  rewrite <- Et in *.
  destruct (dropTypesOnce_spec all types err c Hall)
    as (errored & err1 & c1 & Hrun & Haft & Hsub & Hrep & _).
  destruct (IH errored err1 c1)
    as (types' & err' & c' & sent & Hrec & Haft' & Hsent & Hlen & Hsub'
        & Hrep').
  { intros x Hx. apply Hall. by eapply elem_of_sublist. }
  exists types', err', c', (typeDrops types ++ sent).
  split. { rewrite Et at 1. simpl. rewrite <- Et, Hrun. exact Hrec. }
  split; [by eapply after_app|]. split; [|split; [|split]].
  - apply Forall_app. split.
    + apply Forall_fmap, Forall_forall. intros t Ht. by exists t.
    + eapply Forall_impl; [exact Hsent|]. intros stmt (t & Ht & ->).
      exists t. split; [by eapply elem_of_sublist | done].
  - rewrite length_app. unfold typeDrops. rewrite length_fmap.
    apply sublist_length in Hsub. nia.
  - by etrans.
  - auto.
Qed.

(** X14: when both listings succeed, [dropAllTablesTypes] sends one
    DROP TABLE for every listed table, in listing order, and after them
    nothing but DROP TYPE statements for listed types, at most the
    square of their number; it changes nothing else of the client. *)
Theorem drop_all_sends_only_listed_drops (c : cqlClient)
    (tables types : list string) :
  ListTables c = (tables, None) →
  listTypes (dropTables tables c) = (types, None) →
  ∃ sent,
    after (tableDrops tables ++ sent) c (dropAllTablesTypes c).2
    ∧ Forall (fun stmt => ∃ t, t ∈ types ∧ stmt = "DROP TYPE " +:+ t) sent
    ∧ (length sent ≤ length types * length types)%nat.
Proof.
  intros Htables Htypes. unfold dropAllTablesTypes.
  rewrite Htables, Htypes.
  destruct (retryTypes_spec types (length types) types None
              (dropTables tables c))
    as (types' & err' & c' & sent & -> & Haft & Hsent & Hlen & _); [done|].
  exists sent. split; [|done].
  assert (after (tableDrops tables ++ sent) c c') as H
    by (eapply after_app; [apply dropTables_after | done]).
  by destruct types'.
Qed.

(** X15: when every listed type is dropped at the first attempt,
    [dropAllTablesTypes] returns nil after one DROP TABLE per table and
    one DROP TYPE per type, in listing order, whatever the DROP TABLE
    statements were answered: a table that cannot be dropped is only
    logged. *)
Theorem drop_all_succeeds_when_every_type_drops (c : cqlClient)
    (tables types : list string) :
  ListTables c = (tables, None) →
  listTypes (dropTables tables c) = (types, None) →
  (∀ i t, types !! i = Some t →
     outcome (session c)
       (length (executed (session c)) + length tables + i)
       ("DROP TYPE " +:+ t) = None) →
  (dropAllTablesTypes c).1 = None
  ∧ after (tableDrops tables ++ typeDrops types) c (dropAllTablesTypes c).2.
Proof.
  intros Htables Htypes Hok. unfold dropAllTablesTypes.
  rewrite Htables, Htypes.
  pose proof (dropTables_after tables c) as Haft.
  pose proof (after_executed _ _ _ Haft) as [Hex Ho].
  destruct types as [|t types].
  { simpl. split; [done|]. unfold typeDrops. simpl. by rewrite app_nil_r. }
  set (ts := t :: types) in *.
  destruct (dropTypesOnce_spec ts ts None (dropTables tables c))
    as (errored & err1 & c1 & Hrun & Haft1 & _ & _ & Hnone & _); [done|].
  destruct Hnone as [-> Herr].
  { intros i u Hi. rewrite Ho, Hex, length_app. unfold tableDrops.
    rewrite length_fmap. by apply Hok. }
  change (retryTypes (length ts) ts None (dropTables tables c))
    with (let '(erroredTypes, err, c) :=
            dropTypesOnce ts None (dropTables tables c) in
          retryTypes (length types) erroredTypes err c).
  rewrite Hrun.
  replace (retryTypes (length types) [] err1 c1)
    with ([] : list string, err1, c1) by (by destruct (length types)).
  simpl. split; [done|]. by eapply after_app.
Qed.

(** X16: an error returned by [dropAllTablesTypes] after both listings
    succeeded is the answer to the last statement it sent, the DROP TYPE
    of a listed type. *)
Theorem drop_all_reports_the_last_answer (c : cqlClient)
    (tables types : list string) (e : error) :
  ListTables c = (tables, None) →
  listTypes (dropTables tables c) = (types, None) →
  (dropAllTablesTypes c).1 = Some e →
  ∃ pre t,
    t ∈ types
    ∧ executed (session (dropAllTablesTypes c).2)
      = pre ++ ["DROP TYPE " +:+ t]
    ∧ outcome (session c) (length pre) ("DROP TYPE " +:+ t) = Some e.
Proof.
  intros Htables Htypes. unfold dropAllTablesTypes.
  rewrite Htables, Htypes.
  pose proof (dropTables_after tables c) as Haft.
  destruct (retryTypes_spec types (length types) types None
              (dropTables tables c))
    as (types' & err' & c' & sent & -> & Haft' & _ & _ & _ & Hrep); [done|].
  destruct types' as [|t' types']; simpl; [done|]. intros ->.
  destruct Hrep as [[=]|(pre & t & Ht & Hex & He)]; [by left|].
  exists pre, t. split; [done|]. split; [done|].
  rewrite He.
  pose proof (after_executed _ _ _ (after_app _ _ _ _ _ Haft Haft'))
    as [_ Ho].
  by rewrite Ho.
Qed.

(** X17: a nil result of [dropAllTablesTypes] does not mean that every
    type was dropped. With two listed types, when both drops are refused
    in the first pass and, in the second, the drop of the first type is
    refused again and the drop of the second succeeds, the call returns
    nil: [err] holds the answer to the last statement, and the first
    type was never dropped. *)
Theorem drop_all_returns_nil_with_a_type_left (c : cqlClient)
    (tables : list string) (a b : string) (e1 e2 e3 : error) :
  ListTables c = (tables, None) →
  listTypes (dropTables tables c) = ([a; b], None) →
  outcome (session c) (length (executed (session c)) + length tables)
    ("DROP TYPE " +:+ a) = Some e1 →
  outcome (session c) (length (executed (session c)) + length tables + 1)
    ("DROP TYPE " +:+ b) = Some e2 →
  outcome (session c) (length (executed (session c)) + length tables + 2)
    ("DROP TYPE " +:+ a) = Some e3 →
  outcome (session c) (length (executed (session c)) + length tables + 3)
    ("DROP TYPE " +:+ b) = None →
  (dropAllTablesTypes c).1 = None
  ∧ after (tableDrops tables ++ typeDrops [a; b; a; b]) c
      (dropAllTablesTypes c).2.
Proof.
  intros Htables Htypes H0 H1 H2 H3. unfold dropAllTablesTypes.
  rewrite Htables, Htypes.
  pose proof (dropTables_after tables c) as Haft.
  pose proof (after_executed _ _ _ Haft) as [Hex Ho].
  set (k := (length (executed (session c)) + length tables)%nat) in *.
  assert (length (executed (session (dropTables tables c))) = k) as Hk.
  { rewrite Hex, length_app. unfold tableDrops. by rewrite length_fmap. }
  destruct (dropTypesOnce_spec [a; b] [a; b] None (dropTables tables c))
    as (errored & err1 & c1 & Hrun1 & Haft1 & _ & _ & _ & Href1 & _);
    [done|].
  rewrite Hk in Href1. simpl in Href1.
  rewrite !Ho, H0 in Href1.
  replace (S k) with (k + 1)%nat in Href1 by lia. rewrite H1 in Href1.
  subst errored.
  pose proof (after_executed _ _ _ Haft1) as [Hex1 Ho1].
  assert (length (executed (session c1)) = (k + 2)%nat) as Hk1.
  { rewrite Hex1, length_app, Hk. done. }
  destruct (dropTypesOnce_spec [a; b] [a; b] err1 c1)
    as (errored & err2 & c2 & Hrun2 & Haft2 & _ & _ & _ & Href2 & Hlast);
    [done|].
  rewrite Hk1 in Href2. simpl in Href2.
  rewrite !Ho1, !Ho, H2 in Href2.
  replace (S (k + 2)) with (k + 3)%nat in Href2 by lia. rewrite H3 in Href2.
  subst errored.
  specialize (Hlast [a] b eq_refl). rewrite Hk1, Ho1, Ho in Hlast.
  replace (k + 2 + length [a])%nat with (k + 3)%nat in Hlast by (simpl; lia).
  rewrite H3 in Hlast. subst err2.
  cbn [retryTypes length]. rewrite Hrun1. cbn [retryTypes]. rewrite Hrun2.
  cbn [retryTypes]. split; [done|].
  eapply after_app; [exact Haft|]. by eapply (after_app (typeDrops [a; b])).
Qed.

(** A cluster without tables, with the types a and b, that answers its
    first three statements with an error. *)
Lemma drop_all_returns_nil_with_a_type_left_witness :
  (dropAllTablesTypes (clientOf 3 [] ["a"; "b"])).1 = None
  ∧ after (tableDrops [] ++ typeDrops ["a"; "b"; "a"; "b"])
      (clientOf 3 [] ["a"; "b"])
      (dropAllTablesTypes (clientOf 3 [] ["a"; "b"])).2.
Proof.
  apply (drop_all_returns_nil_with_a_type_left (clientOf 3 [] ["a"; "b"]) []
           "a" "b" (gocqlError "in use") (gocqlError "in use")
           (gocqlError "in use")); reflexivity.
Defined.

(** One table whose drop is refused, two types. *)
Lemma drop_all_sends_only_listed_drops_witness :
  ∃ sent,
    after (tableDrops ["t"] ++ sent) (clientOf 2 ["t"] ["a"; "b"])
      (dropAllTablesTypes (clientOf 2 ["t"] ["a"; "b"])).2
    ∧ Forall (fun stmt => ∃ t, t ∈ ["a"; "b"] ∧ stmt = "DROP TYPE " +:+ t)
        sent
    ∧ (length sent ≤ length ["a"; "b"] * length ["a"; "b"])%nat.
Proof.
  apply (drop_all_sends_only_listed_drops (clientOf 2 ["t"] ["a"; "b"]));
    reflexivity.
Defined.

Lemma drop_all_succeeds_when_every_type_drops_witness :
  (dropAllTablesTypes (clientOf 1 ["t"] ["a"; "b"])).1 = None
  ∧ after (tableDrops ["t"] ++ typeDrops ["a"; "b"])
      (clientOf 1 ["t"] ["a"; "b"])
      (dropAllTablesTypes (clientOf 1 ["t"] ["a"; "b"])).2.
Proof.
  apply (drop_all_succeeds_when_every_type_drops
           (clientOf 1 ["t"] ["a"; "b"]) ["t"] ["a"; "b"]);
    [reflexivity | reflexivity |].
  intros [|[|i]] t [= <-]; reflexivity.
Defined.

Lemma drop_all_reports_the_last_answer_witness :
  ∃ pre t,
    t ∈ ["a"; "b"]
    ∧ executed (session (dropAllTablesTypes (clientOf 9 [] ["a"; "b"])).2)
      = pre ++ ["DROP TYPE " +:+ t]
    ∧ outcome (session (clientOf 9 [] ["a"; "b"])) (length pre)
        ("DROP TYPE " +:+ t) = Some (gocqlError "in use").
Proof.
  apply (drop_all_reports_the_last_answer (clientOf 9 [] ["a"; "b"]) []);
    reflexivity.
Defined.
